(** * tianxin-bot: protocol adapter, plugin manager and message processor

    A shallow embedding of the JavaScript classes

      - [Adapter]            (app/bot/adapter.js)
      - [MessageProcessor]   (the module the bot requires as './message')
      - [PluginManager], with the file filter of [PluginLoader], and
        [PluginSandbox]      (app/plugin/loader.js)

    together with the properties the design document states about them.
    Part I holds the model, Part II the lemmas and theorems. *)

From stdpp Require Import gmap list strings.
From Stdlib Require Import NArith ZArith Lia Sorted.

Set Default Proof Using "Type".

(* ===================================================================== *)
(** * Part I: the model *)
(* ===================================================================== *)

(** ** JavaScript values used by the sources *)

Module Js.

(** A JavaScript string is a sequence of UTF-16 code units. *)
Abbreviation jsstring := (list N).

(** ASCII literals, for readable examples. *)
Definition lit (s : string) : jsstring :=
  (fun a => N.of_nat (Ascii.nat_of_ascii a)) <$> String.list_ascii_of_string s.

(** The values a handler can hand back to the framework.  Objects are
    opaque references. *)
Inductive jsval :=
| JUndefined
| JNull
| JBool (b : bool)
| JNum (z : Z)
| JStr (s : jsstring)
| JObj (ref : nat).

#[global] Instance jsval_eq_dec : EqDecision jsval.
Proof. solve_decision. Defined.

(** [v === true] *)
Definition strict_true (v : jsval) : bool :=
  match v with JBool true => true | _ => false end.

(** The code units matched by [\s] and removed by [String.prototype.trim]:
    ECMAScript WhiteSpace and LineTerminator. *)
Definition isWhiteSpace (c : N) : bool :=
  ((9 <=? c) && (c <=? 13) || (c =? 32) || (c =? 160) || (c =? 0x1680)
   || (0x2000 <=? c) && (c <=? 0x200A)
   || (c =? 0x2028) || (c =? 0x2029) || (c =? 0x202F) || (c =? 0x205F)
   || (c =? 0x3000) || (c =? 0xFEFF))%N.

(** [s.startsWith(p)] *)
Fixpoint startsWith (s p : jsstring) : bool :=
  match p, s with
  | [], _ => true
  | _ :: _, [] => false
  | a :: p', b :: s' => (a =? b)%N && startsWith s' p'
  end.

(** [s.endsWith(p)] *)
Definition endsWith (s p : jsstring) : bool := startsWith (rev s) (rev p).

(** [s.slice(n)] for [0 <= n] *)
Definition slice (n : nat) (s : jsstring) : jsstring := drop n s.

Fixpoint trimStart (s : jsstring) : jsstring :=
  match s with
  | c :: s' => if isWhiteSpace c then trimStart s' else s
  | [] => []
  end.

(** [s.trim()] *)
Definition trim (s : jsstring) : jsstring := rev (trimStart (rev (trimStart s))).

(** [s.split(/\s+/)]: [cur] is the piece being collected (reversed),
    [inSep] tells that the previous code unit belonged to the separator
    match in progress. *)
Fixpoint split_go (s : jsstring) (cur : jsstring) (inSep : bool) : list jsstring :=
  match s with
  | [] => [rev cur]
  | c :: s' =>
      if isWhiteSpace c
      then if inSep then split_go s' cur true else rev cur :: split_go s' [] true
      else split_go s' (c :: cur) false
  end.

Definition split_ws (s : jsstring) : list jsstring := split_go s [] false.

(** [s.replace(/\\/g, '/')] *)
Definition replace_backslashes (s : jsstring) : jsstring :=
  (fun c => if (c =? 92)%N then 47%N else c) <$> s.

(** [s.replace(/\.js$/, '')] *)
Definition strip_js_suffix (s : jsstring) : jsstring :=
  if endsWith s (lit ".js") then take (length s - 3) s else s.

(** [path.relative(from, to)] of Node on POSIX, with [cwd] for
    [process.cwd()], an absolute path.  Both arguments are resolved first
    ([path.resolve]): a path that does not start with '/' is taken below
    [cwd], empty segments and '.' are dropped, and '..' takes back the
    segment before it (nothing at the root).  The result climbs with '..'
    out of what is left of [from] after the segments the two paths share,
    and then goes down what is left of [to]. *)
Fixpoint segments_go (s : jsstring) (cur : jsstring) : list jsstring :=
  match s with
  | [] => [rev cur]
  | c :: s' =>
      if (c =? 47)%N then rev cur :: segments_go s' []
      else segments_go s' (c :: cur)
  end.

(** [s.split('/')] *)
Definition segments (s : jsstring) : list jsstring := segments_go s [].

(** One segment more on a resolved path, held last segment first. *)
Definition normalize_step (resolved : list jsstring) (segment : jsstring)
  : list jsstring :=
  if decide (segment = []) then resolved
  else if decide (segment = lit ".") then resolved
  else if decide (segment = lit "..") then tail resolved
  else segment :: resolved.

(** [path.resolve(p)], as the list of the segments of the result *)
Definition posix_resolve (cwd p : jsstring) : list jsstring :=
  let absolute := if startsWith p (lit "/") then p else cwd ++ lit "/" ++ p in
  rev (foldl normalize_step [] (segments absolute)).

Fixpoint strip_common (from to : list jsstring) : list jsstring * list jsstring :=
  match from, to with
  | a :: from', b :: to' =>
      if decide (a = b) then strip_common from' to' else (from, to)
  | _, _ => (from, to)
  end.

(** [parts.join('/')] *)
Definition join_slash (parts : list jsstring) : jsstring :=
  match parts with
  | [] => []
  | first :: others => first ++ concat ((fun part => 47%N :: part) <$> others)
  end.

Definition posix_relative (cwd from to : jsstring) : jsstring :=
  let '(up, down) := strip_common (posix_resolve cwd from) (posix_resolve cwd to) in
  join_slash (replicate (length up) (lit "..") ++ down).

(** [s.includes(p)] *)
Fixpoint includes (s p : jsstring) : bool :=
  startsWith s p ||
  match s with
  | [] => false
  | _ :: s' => includes s' p
  end.

End Js.

Import Js.

(** ** MessageProcessor.parseCommand *)

Module Command.

Record CommandInfo := {
  command : jsstring;
  args : list jsstring;
  prefix : jsstring
}.

(** The [for (const p of this.commandPrefix)] loop: [prefix] stays [null]
    ([None]) unless some [p] is a prefix of [text]; the first one wins. *)
Fixpoint findPrefix (commandPrefix : list jsstring) (text : jsstring) : option jsstring :=
  match commandPrefix with
  | [] => None
  | p :: ps => if startsWith text p then Some p else findPrefix ps text
  end.

(** Truthiness of a string: [!s] holds exactly for the empty string. *)
Definition falsy (s : jsstring) : bool :=
  match s with [] => true | _ => false end.

Definition parseCommand (commandPrefix : list jsstring) (text : jsstring)
  : option CommandInfo :=
  if falsy text then None else
  match findPrefix commandPrefix text with
  | None => None
  | Some p =>
      (* [if (!prefix) return null;] -- also taken when [prefix === ''] *)
      if falsy p then None else
      let commandText := trim (slice (length p) text) in
      if falsy commandText then None else
      let parts := split_ws commandText in
      Some {| command := default [] (head parts);
              args := tail parts;
              prefix := p |}
  end.

(** [bot.config.commandPrefix || ['#', '']] *)
Definition defaultCommandPrefix : list jsstring := [lit "#"; lit ""].


(** *** Notions used to state the properties of [parseCommand] *)

(** Strings of white space only, and words: non-empty strings without
    white space. *)
Definition isBlank (s : jsstring) : bool := forallb isWhiteSpace s.

Definition isWord (s : jsstring) : bool :=
  negb (falsy s) && forallb (fun c => negb (isWhiteSpace c)) s.

(** The words, with [sep] between each two. *)
Fixpoint unwords (sep : jsstring) (words : list jsstring) : jsstring :=
  match words with
  | [] => []
  | [w] => w
  | w :: words' => w ++ sep ++ unwords sep words'
  end.

(** What is left of a string when its white space is taken out. *)
Definition stripWhite (s : jsstring) : jsstring :=
  filter (fun c => isWhiteSpace c = false) s.

(** A string that begins and ends with a code unit that is no white
    space. *)
Definition tight (s : jsstring) : Prop :=
  (∃ c, head s = Some c ∧ isWhiteSpace c = false)
  ∧ (∃ c, last s = Some c ∧ isWhiteSpace c = false).

End Command.

Import Command.

(** ** The protocol adapter ([app/bot/adapter.js])

    The adapter is an object whose methods and callbacks run one at a time,
    each to its end: the model is a state and a step function, one step per
    call of a public method and per callback run by the runtime (socket
    events, timers, the HTTP server).  What a step does to the outside is
    its output.  Promises, sockets and timers are identified by the order of
    their creation; a promise is settled by the first call of its [resolve]
    or [reject].  [config.ws] is taken to be present, [new WebSocket] and
    the listeners of the emitted signals not to throw. *)

Module Adapter.

(** [x || d] for a numeric configuration entry: [0] and a missing entry
    are both falsy. *)
Definition or_default (x : option N) (d : N) : N :=
  match x with
  | Some 0%N | None => d
  | Some n => n
  end.

Inductive AdapterType := TypeWs | TypeHttp | TypeOther.

(** [this.config] *)
Record Config := {
  type : AdapterType;
  timeout : option N;
  reconnectDelay : option N
}.

(** The [Error] objects the adapter creates or passes on. *)
Inductive Error :=
| NotConnected                    (* new Error('适配器未连接') *)
| ApiTimeout (action : jsstring)  (* new Error(`API调用超时: ${action}`) *)
| ApiFailed (msg : jsval)         (* new Error(`API调用失败: ${payload.msg || '未知错误'}`) *)
| UnsupportedType                 (* new Error(`不支持的适配器类型: ...`) *)
| NullSocket                      (* TypeError of [this.ws.send] when [this.ws] is null *)
| Thrown (e : jsval).             (* an error raised by the socket library *)

(** '未知错误' *)
Definition unknownError : jsstring := [26410; 30693; 38169; 35823]%N.

Definition truthy (v : jsval) : bool :=
  match v with
  | JUndefined | JNull | JBool false | JNum 0%Z | JStr [] => false
  | _ => true
  end.

(** The object [JSON.parse] returned, restricted to the properties the
    adapter reads. *)
Record Payload := {
  echo : jsval;
  status : jsval;
  data : jsval;
  msg : jsval;
  post_type : jsval;
  meta_event_type : jsval;
  sub_type : jsval;
  self_id : jsval
}.

(** What arrives on the socket: [Malformed] covers every input on which
    the body of the [try] throws ([JSON.parse] fails, or yields [null]). *)
Inductive Frame :=
| Malformed (e : jsval)
| Parsed (payload : Payload).

(** Callbacks handed to [setTimeout].  The closure of a send timeout
    holds [echo], [action] and the [reject] of the promise of that call. *)
Inductive Timer :=
| SendTimeout (delay : N) (echo : N) (action : jsstring) (promise : nat)
| ReconnectTimer (delay : N).

(** A socket made by [new WebSocket]; [settled] tells whether the promise
    of its [connectWebSocket] call was resolved or rejected already, [retry]
    that the call came from [reconnect], whose [catch] reconnects again. *)
Record Socket := {
  connectPromise : nat;
  settled : bool;
  retry : bool
}.

(** The fields of the [Adapter] object, followed by the part of the runtime
    its callbacks live in: scheduled timers, the sockets created so far, the
    servers being started, and allocation counters for promises and timers.
    An entry of [pendingRequests] holds the [resolve] and [reject] of one
    promise: the table maps the correlation id to that promise. *)
Record Adapter := {
  ws : option nat;
  connected : bool;
  echoCounter : N;
  pendingRequests : gmap N nat;
  timers : gmap nat Timer;
  nextTimer : nat;
  nextPromise : nat;
  sockets : list Socket;
  servers : list nat
}.

Definition set_ws v (s : Adapter) : Adapter :=
  {| ws := v; connected := connected s; echoCounter := echoCounter s;
     pendingRequests := pendingRequests s; timers := timers s;
     nextTimer := nextTimer s; nextPromise := nextPromise s;
     sockets := sockets s; servers := servers s |}.
Definition set_connected v (s : Adapter) : Adapter :=
  {| ws := ws s; connected := v; echoCounter := echoCounter s;
     pendingRequests := pendingRequests s; timers := timers s;
     nextTimer := nextTimer s; nextPromise := nextPromise s;
     sockets := sockets s; servers := servers s |}.
Definition set_echoCounter v (s : Adapter) : Adapter :=
  {| ws := ws s; connected := connected s; echoCounter := v;
     pendingRequests := pendingRequests s; timers := timers s;
     nextTimer := nextTimer s; nextPromise := nextPromise s;
     sockets := sockets s; servers := servers s |}.
Definition set_pendingRequests v (s : Adapter) : Adapter :=
  {| ws := ws s; connected := connected s; echoCounter := echoCounter s;
     pendingRequests := v; timers := timers s;
     nextTimer := nextTimer s; nextPromise := nextPromise s;
     sockets := sockets s; servers := servers s |}.
Definition set_timers v (s : Adapter) : Adapter :=
  {| ws := ws s; connected := connected s; echoCounter := echoCounter s;
     pendingRequests := pendingRequests s; timers := v;
     nextTimer := nextTimer s; nextPromise := nextPromise s;
     sockets := sockets s; servers := servers s |}.
Definition set_nextTimer v (s : Adapter) : Adapter :=
  {| ws := ws s; connected := connected s; echoCounter := echoCounter s;
     pendingRequests := pendingRequests s; timers := timers s;
     nextTimer := v; nextPromise := nextPromise s;
     sockets := sockets s; servers := servers s |}.
Definition set_nextPromise v (s : Adapter) : Adapter :=
  {| ws := ws s; connected := connected s; echoCounter := echoCounter s;
     pendingRequests := pendingRequests s; timers := timers s;
     nextTimer := nextTimer s; nextPromise := v;
     sockets := sockets s; servers := servers s |}.
Definition set_sockets v (s : Adapter) : Adapter :=
  {| ws := ws s; connected := connected s; echoCounter := echoCounter s;
     pendingRequests := pendingRequests s; timers := timers s;
     nextTimer := nextTimer s; nextPromise := nextPromise s;
     sockets := v; servers := servers s |}.
Definition set_servers v (s : Adapter) : Adapter :=
  {| ws := ws s; connected := connected s; echoCounter := echoCounter s;
     pendingRequests := pendingRequests s; timers := timers s;
     nextTimer := nextTimer s; nextPromise := nextPromise s;
     sockets := sockets s; servers := v |}.

(** What the adapter does to the outside: calls on the socket, calls of a
    promise's [resolve] or [reject], emitted signals, log lines (named by a
    label in place of their text). *)
Inductive Output :=
| NewWebSocket (sock : nat)
| WsSend (sock : nat) (action : jsstring) (echo : N)
| WsCloseCall (sock : nat)
| StartHttpServer (promise : nat)
| DrawEcho (promise : nat) (echo : N)   (* [const echo = this.echoCounter++] *)
| Resolve (promise : nat) (v : jsval)
| Reject (promise : nat) (e : Error)
| SetTimeout (id : nat) (t : Timer)
| EmitMessage (payload : Payload)
| EmitEvent (payload : Payload)
| EmitSelfId (v : jsval)
| LogInfo (what : jsstring)
| LogWarn (what : jsstring)
| LogError (what : jsstring) (e : Error).

(** What can happen to the adapter: calls of its public methods, events of
    a socket it created, a timer running, the HTTP server coming up or
    receiving a callback. *)
Inductive Input :=
| CallConnect
| CallSend (action : jsstring) (wsSendThrows : option jsval)
| CallDisconnect
| WsOpen (sock : nat)
| WsMessage (sock : nat) (data : Frame)
| WsClose (sock : nat)
| WsError (sock : nat) (e : jsval)
| TimerFires (id : nat)
| HttpListening (promise : nat)
| HttpCallback (payload : Payload).

(** [constructor(bot, config)] *)
Definition constructor : Adapter :=
  {| ws := None; connected := false; echoCounter := 0;
     pendingRequests := ∅; timers := ∅; nextTimer := 0; nextPromise := 0;
     sockets := []; servers := [] |}.

(** [x++] on a JavaScript number that holds a natural number: exact up to
    [2^53], where adding one is rounded back to the same value.  The
    counter starts at 0 and is changed by [++] only, so it never leaves
    this range. *)
Definition maxExact : N := 2 ^ 53.
Definition postIncrement (n : N) : N :=
  if (n <? maxExact)%N then (n + 1)%N else n.

Definition setTimeout (t : Timer) (s : Adapter) : Adapter * list Output :=
  let id := nextTimer s in
  (set_nextTimer (S id) (set_timers (<[id := t]> (timers s)) s),
   [SetTimeout id t]).

(** [connectWebSocket()]: the executor of the returned promise creates the
    socket and registers the four handlers below. *)
Definition connectWebSocket (viaReconnect : bool) (s : Adapter)
  : Adapter * list Output :=
  let sock := length (sockets s) in
  let p := nextPromise s in
  (set_ws (Some sock)
     (set_sockets (sockets s ++ [{| connectPromise := p; settled := false;
                                    retry := viaReconnect |}])
        (set_nextPromise (S p) s)),
   [LogInfo (lit "connecting"); NewWebSocket sock]).

(** [reconnect()] *)
Definition reconnect (cfg : Config) (s : Adapter) : Adapter * list Output :=
  let delay := or_default (reconnectDelay cfg) 5000 in
  let '(s, o) := setTimeout (ReconnectTimer delay) s in
  (s, LogInfo (lit "reconnect scheduled") :: o).

Definition settle (sock : nat) (s : Adapter) : Adapter :=
  set_sockets (alter (fun k => {| connectPromise := connectPromise k;
                                  settled := true; retry := retry k |})
                 sock (sockets s)) s.

(** [this.ws.on('open', ...)] *)
Definition onOpen (sock : nat) (s : Adapter) : Adapter * list Output :=
  match sockets s !! sock with
  | None => (s, [])
  | Some k =>
      let s := set_connected true s in
      if settled k then (s, [LogInfo (lit "open")])
      else (settle sock s, [LogInfo (lit "open"); Resolve (connectPromise k) JUndefined])
  end.

(** [this.ws.on('close', ...)] *)
Definition onClose (cfg : Config) (sock : nat) (s : Adapter)
  : Adapter * list Output :=
  match sockets s !! sock with
  | None => (s, [])
  | Some _ =>
      let '(s, o) := reconnect cfg (set_connected false s) in
      (s, LogWarn (lit "closed") :: o)
  end.

(** [this.ws.on('error', ...)]; when the rejected promise is the one of a
    reconnection attempt, its [catch] logs and calls [reconnect] again. *)
Definition onError (cfg : Config) (sock : nat) (e : jsval) (s : Adapter)
  : Adapter * list Output :=
  match sockets s !! sock with
  | None => (s, [])
  | Some k =>
      let o := [LogError (lit "socket error") (Thrown e)] in
      if connected s || settled k then (s, o)
      else
        let s := settle sock s in
        let o := o ++ [Reject (connectPromise k) (Thrown e)] in
        if retry k then
          let '(s, o') := reconnect cfg s in
          (s, o ++ LogError (lit "reconnect failed") (Thrown e) :: o')
        else (s, o)
  end.

(** [this.pendingRequests.get(payload.echo)]: keys are the numbers drawn
    from [echoCounter], so only such a number can be found. *)
Definition getPending (v : jsval) (m : gmap N nat) : option nat :=
  match v with
  | JNum z => if (0 <=? z)%Z then m !! Z.to_N z else None
  | _ => None
  end.

Definition deletePending (v : jsval) (m : gmap N nat) : gmap N nat :=
  match v with
  | JNum z => if (0 <=? z)%Z then delete (Z.to_N z) m else m
  | _ => m
  end.

(** [handleWebSocketMessage(data)], with [raw] for the argument [data] *)
Definition handleWebSocketMessage (raw : Frame) (s : Adapter)
  : Adapter * list Output :=
  match raw with
  | Malformed e => (s, [LogError (lit "message") (Thrown e)])
  | Parsed payload =>
      if decide (echo payload = JUndefined) then
        if decide (post_type payload = JStr (lit "message")) then
          (s, [EmitMessage payload])
        else if decide (post_type payload = JStr (lit "meta_event")
                        ∧ meta_event_type payload = JStr (lit "lifecycle")) then
          if decide (sub_type payload = JStr (lit "connect")) then
            (s, [LogInfo (lit "lifecycle connect"); EmitSelfId (self_id payload)])
          else (s, [])
        else (s, [EmitEvent payload])
      else
        match getPending (echo payload) (pendingRequests s) with
        | Some p =>
            (set_pendingRequests (deletePending (echo payload) (pendingRequests s)) s,
             [if decide (status payload = JStr (lit "ok"))
              then Resolve p (data payload)
              else Reject p (ApiFailed (if truthy (msg payload) then msg payload
                                        else JStr unknownError))])
        | None => (s, [])
        end
  end.

(** [send(action, params)]; [wsSendThrows] is the exception, if any, with
    which [this.ws.send] fails on a socket that exists. *)
Definition send (cfg : Config) (action : jsstring)
    (wsSendThrows : option jsval) (s : Adapter) : Adapter * list Output :=
  let p := nextPromise s in
  let s := set_nextPromise (S p) s in
  if negb (connected s) then (s, [Reject p NotConnected])
  else
    let echo := echoCounter s in
    let s := set_pendingRequests (<[echo := p]> (pendingRequests s))
               (set_echoCounter (postIncrement echo) s) in
    let failed (e : Error) :=
      (set_pendingRequests (delete echo (pendingRequests s)) s,
       [DrawEcho p echo; Reject p e]) in
    match ws s, wsSendThrows with
    | None, _ => failed NullSocket
    | Some _, Some e => failed (Thrown e)
    | Some sock, None =>
        let '(s, o) :=
          setTimeout (SendTimeout (or_default (timeout cfg) 30000) echo action p) s in
        (s, DrawEcho p echo :: WsSend sock action echo :: o)
    end.

(** The callbacks passed to [setTimeout] in [send] and in [reconnect]. *)
Definition runTimer (cfg : Config) (t : Timer) (s : Adapter)
  : Adapter * list Output :=
  match t with
  | SendTimeout _ echo action p =>
      match pendingRequests s !! echo with
      | Some _ =>
          (set_pendingRequests (delete echo (pendingRequests s)) s,
           [Reject p (ApiTimeout action)])
      | None => (s, [])
      end
  | ReconnectTimer _ =>
      if connected s then (s, []) else connectWebSocket true s
  end.

(** [disconnect()] *)
Definition disconnect (s : Adapter) : Adapter * list Output :=
  let '(s, o) :=
    match ws s with
    | Some sock => (set_ws None s, [WsCloseCall sock])
    | None => (s, [])
    end in
  (set_pendingRequests ∅ (set_connected false s), o).

(** [connect()] *)
Definition connect (cfg : Config) (s : Adapter) : Adapter * list Output :=
  match type cfg with
  | TypeWs => connectWebSocket false s
  | TypeHttp =>
      let p := nextPromise s in
      (set_servers (p :: servers s) (set_nextPromise (S p) s), [StartHttpServer p])
  | TypeOther =>
      let p := nextPromise s in
      (set_nextPromise (S p) s, [Reject p UnsupportedType])
  end.

(** The [app.listen] callback of [setupHttpServer]. *)
Definition onListening (p : nat) (s : Adapter) : Adapter * list Output :=
  if decide (p ∈ servers s) then
    (set_servers (filter (fun q => q ≠ p) (servers s)) (set_connected true s),
     [LogInfo (lit "listening"); Resolve p JUndefined])
  else (s, []).

(** The [app.post] handler of [setupHttpServer]. *)
Definition onCallback (payload : Payload) (s : Adapter) : Adapter * list Output :=
  if decide (post_type payload = JStr (lit "message"))
  then (s, [EmitMessage payload])
  else (s, [EmitEvent payload]).

Definition step (cfg : Config) (s : Adapter) (i : Input) : Adapter * list Output :=
  match i with
  | CallConnect => connect cfg s
  | CallSend action thr => send cfg action thr s
  | CallDisconnect => disconnect s
  | WsOpen sock => onOpen sock s
  | WsMessage sock data =>
      match sockets s !! sock with
      | Some _ => handleWebSocketMessage data s
      | None => (s, [])
      end
  | WsClose sock => onClose cfg sock s
  | WsError sock e => onError cfg sock e s
  | TimerFires id =>
      match timers s !! id with
      | Some t => runTimer cfg t (set_timers (delete id (timers s)) s)
      | None => (s, [])
      end
  | HttpListening p => onListening p s
  | HttpCallback payload => onCallback payload s
  end.

Fixpoint run (cfg : Config) (s : Adapter) (ins : list Input) : Adapter * list Output :=
  match ins with
  | [] => (s, [])
  | i :: ins' =>
      let '(s1, o1) := step cfg s i in
      let '(s2, o2) := run cfg s1 ins' in
      (s2, o1 ++ o2)
  end.

(** *** Notions used to state the properties of the adapter *)

(** The correlation ids drawn from [echoCounter] in a run, in order. *)
Fixpoint drawn (os : list Output) : list N :=
  match os with
  | [] => []
  | DrawEcho _ e :: os' => e :: drawn os'
  | _ :: os' => drawn os'
  end.

(** The timers [reconnect] and [send] schedule. *)
Definition reconnectTimer (cfg : Config) : Timer :=
  ReconnectTimer (or_default (reconnectDelay cfg) 5000).

Definition sendTimer (cfg : Config) (action : jsstring) (s : Adapter) : Timer :=
  SendTimeout (or_default (timeout cfg) 30000) (echoCounter s) action (nextPromise s).

(** The states an adapter can be in: those [constructor] evolves into. *)
Definition reachable (cfg : Config) (s : Adapter) : Prop :=
  ∃ ins, s = (run cfg constructor ins).1.

(** Well-formed states: promise handles and timer ids in use are below the
    allocation counters, and the id held by a scheduled send timeout was
    drawn from the counter before its current value (or the counter has
    reached the end of its exact range). *)
Definition timer_wf (s : Adapter) (t : Timer) : Prop :=
  match t with
  | SendTimeout _ e _ p =>
      p < nextPromise s ∧ (e < echoCounter s ∨ maxExact ≤ echoCounter s)%N
  | ReconnectTimer _ => True
  end.

Record wf (s : Adapter) : Prop := {
  wf_pending : ∀ e p, pendingRequests s !! e = Some p → p < nextPromise s;
  wf_timers : ∀ id t, timers s !! id = Some t → id < nextTimer s ∧ timer_wf s t;
  wf_sockets : ∀ k, k ∈ sockets s → connectPromise k < nextPromise s;
  wf_servers : ∀ q, q ∈ servers s → q < nextPromise s
}.

(** [o] is a call of the [resolve] or [reject] of promise [p]. *)
Definition settles (p : nat) (o : Output) : Prop :=
  match o with
  | Resolve q _ | Reject q _ => q = p
  | _ => False
  end.

Definition timer_other (e : N) (p : nat) (t' : Timer) : Prop :=
  match t' with
  | SendTimeout _ e' _ p' => e' ≠ e ∧ p' ≠ p
  | ReconnectTimer _ => True
  end.

(** The call with id [e] and promise [p] is pending, its timer [tid] is
    scheduled with callback [t], and nothing else in the state refers to
    [e] or [p]. *)
Record tracking (e : N) (p tid : nat) (t : Timer) (s : Adapter) : Prop := {
  tr_pending : pendingRequests s !! e = Some p;
  tr_timer : timers s !! tid = Some t;
  tr_tid : tid < nextTimer s;
  tr_echo : (e < echoCounter s)%N;
  tr_promise : p < nextPromise s;
  tr_others : ∀ e' p', pendingRequests s !! e' = Some p' → e' ≠ e → p' ≠ p;
  tr_timers : ∀ id t', timers s !! id = Some t' → id ≠ tid → timer_other e p t';
  tr_sockets : ∀ k, k ∈ sockets s → connectPromise k ≠ p;
  tr_servers : ∀ q, q ∈ servers s → q ≠ p
}.

(** Inputs other than a response frame carrying [e], a [disconnect()] and
    the run of timer [tid]. *)
Definition quiet (e : N) (tid : nat) (i : Input) : Prop :=
  match i with
  | WsMessage _ (Parsed payload) => echo payload ≠ JNum (Z.of_N e)
  | CallDisconnect => False
  | TimerFires id => id ≠ tid
  | _ => True
  end.

(** The id [e] was drawn and has no entry in the table. *)
Definition gone (e : N) (s : Adapter) : Prop :=
  pendingRequests s !! e = None ∧ (e < echoCounter s)%N.


(** The call with id [e] and promise [p] is over: [e] has no entry, no
    entry holds [p], and a timer that holds [p] belongs to [e]. *)
Record retired (e : N) (p : nat) (s : Adapter) : Prop := {
  rt_gone : pendingRequests s !! e = None;
  rt_echo : (e < echoCounter s)%N;
  rt_promise : p < nextPromise s;
  rt_pending : ∀ e' p', pendingRequests s !! e' = Some p' → p' ≠ p;
  rt_timers : ∀ id d e' a p', timers s !! id = Some (SendTimeout d e' a p') →
                p' = p → e' = e;
  rt_sockets : ∀ k, k ∈ sockets s → connectPromise k ≠ p;
  rt_servers : ∀ q, q ∈ servers s → q ≠ p
}.

(** Inputs that make the adapter connected. *)
Definition connects (i : Input) : bool :=
  match i with WsOpen _ | HttpListening _ => true | _ => false end.

(** Outputs of a call that goes out: an id is drawn, a frame is written,
    a timeout is scheduled. *)
Definition outgoing (o : Output) : bool :=
  match o with
  | WsSend _ _ _ | DrawEcho _ _ | SetTimeout _ (SendTimeout _ _ _ _) => true
  | _ => false
  end.

(** Outputs that need a socket: creating one, writing to it, scheduling a
    timer. *)
Definition socketBound (o : Output) : bool :=
  match o with
  | WsSend _ _ _ | NewWebSocket _ | SetTimeout _ _ => true
  | _ => false
  end.

(** Calls of the [resolve] or [reject] of some promise. *)
Definition settling (o : Output) : bool :=
  match o with Resolve _ _ | Reject _ _ => true | _ => false end.

(** Signals handed to the bot. *)
Definition emitting (o : Output) : bool :=
  match o with EmitMessage _ | EmitEvent _ | EmitSelfId _ => true | _ => false end.

(** One round of reconnection attempts that all fail.  The [m] timers
    [tid], ..., [tid + m - 1], which are due together, run one after the
    other, each creating a socket; then each of these sockets, [sock], ...,
    [sock + m - 1], reports an error and closes, as the socket library does
    for a connection that fails before it has opened.  [err] gives the error
    of each socket. *)
Definition failedRound (err : nat → jsval) (tid sock m : nat) : list Input :=
  (TimerFires <$> seq tid m)
  ++ flat_map (fun k => [WsError k (err k); WsClose k]) (seq sock m).

(** [n] such rounds in a row, the first one of [m] timers; every round is
    twice as large as the one before it. *)
Fixpoint failedRounds (err : nat → jsval) (n tid sock m : nat) : list Input :=
  match n with
  | 0 => []
  | S n' =>
      failedRound err tid sock m
      ++ failedRounds err n' (tid + m) (sock + m) (2 * m)
  end.

(** The sockets created and the timers scheduled in a run. *)
Definition created (os : list Output) : list nat :=
  omap (fun o => match o with NewWebSocket k => Some k | _ => None end) os.

Definition scheduled (os : list Output) : list (nat * Timer) :=
  omap (fun o => match o with SetTimeout id t => Some (id, t) | _ => None end) os.

(** No socket has been created, and nothing is pending or scheduled. *)
Definition socketless (s : Adapter) : Prop :=
  ws s = None ∧ sockets s = [] ∧ timers s = ∅ ∧ pendingRequests s = ∅.

(** Every id in the table was drawn from the counter before its current
    value, unless the counter has left its exact range. *)
Definition drawn_before (s : Adapter) : Prop :=
  ∀ e p, pendingRequests s !! e = Some p →
         (e < echoCounter s ∨ maxExact ≤ echoCounter s)%N.

(** Nothing has been started: no socket, no server, nothing pending or
    scheduled, and the adapter is not connected. *)
Definition inert (s : Adapter) : Prop :=
  connected s = false ∧ ws s = None ∧ sockets s = [] ∧ servers s = []
  ∧ timers s = ∅ ∧ pendingRequests s = ∅.

(** Outputs that start a transport. *)
Definition starting (o : Output) : bool :=
  match o with NewWebSocket _ | StartHttpServer _ => true | _ => false end.

End Adapter.

(** *** Runs of the adapter used as examples *)

Module AdapterScenario.
Import Adapter.

Definition wsConfig : Config :=
  {| type := TypeWs; timeout := Some 30000%N; reconnectDelay := Some 5000%N |}.

(** Connect, send, [disconnect()], the socket closes, the reconnection
    timer runs, the new socket opens, send again. *)
Definition reconnectScenario : list Input :=
  [CallConnect; WsOpen 0; CallSend (lit "get_status") None; CallDisconnect;
   WsClose 0; TimerFires 1; WsOpen 1; CallSend (lit "get_status") None].

Definition eventPayload : Payload :=
  {| echo := JUndefined; status := JUndefined; data := JUndefined;
     msg := JUndefined; post_type := JStr (lit "notice");
     meta_event_type := JUndefined; sub_type := JUndefined;
     self_id := JUndefined |}.

Definition response (e : Z) : Payload :=
  {| echo := JNum e; status := JStr (lit "ok"); data := JNull;
     msg := JUndefined; post_type := JUndefined;
     meta_event_type := JUndefined; sub_type := JUndefined;
     self_id := JUndefined |}.

(** A connected adapter. *)
Definition opened : Adapter := (run wsConfig constructor [CallConnect; WsOpen 0]).1.

(** While a call waits for its response: an event and the response to
    another call arrive, the socket closes and is reopened by the
    reconnection timer. *)
Definition waiting : list Input :=
  [WsMessage 0 (Parsed eventPayload); WsMessage 0 (Parsed (response 7));
   WsClose 0; TimerFires 1; WsOpen 1].

(** A call is pending when the socket closes. *)
Definition pendingCall : Adapter :=
  (run wsConfig constructor
     [CallConnect; WsOpen 0; CallSend (lit "get_status") None]).1.

Definition closedWithPending : Adapter :=
  (step wsConfig pendingCall (WsClose 0)).1.

(** The reconnection timer runs and the new socket opens. *)
Definition reconnectedWithPending : Adapter :=
  (run wsConfig closedWithPending [TimerFires 1; WsOpen 1]).1.


(** An adapter in HTTP mode: the server comes up, a callback arrives, the
    bot sends. *)
Definition httpConfig : Config :=
  {| type := TypeHttp; timeout := None; reconnectDelay := None |}.

Definition httpSession : list Input :=
  [CallConnect; HttpListening 0; HttpCallback eventPayload;
   CallSend (lit "send_group_msg") None].

(** Before a socket has opened: sends, and a connection that is refused. *)
Definition offline : list Input :=
  [CallSend (lit "get_status") None; CallConnect;
   CallSend (lit "get_status") None; WsError 0 (JStr (lit "refused"))].

(** Every connection is refused. *)
Definition refusing : nat → jsval := fun _ => JStr (lit "refused").

(** An adapter whose configured type is neither 'ws' nor 'http'. *)
Definition otherConfig : Config :=
  {| type := TypeOther; timeout := None; reconnectDelay := None |}.

Definition otherSession : list Input :=
  [CallConnect; HttpListening 0; WsOpen 0; CallSend (lit "get_status") None].

End AdapterScenario.

(** ** The plugin manager and the message processor

    Both are sequences of awaited calls on shared state: the registry
    [this.plugins] and everything else, the world.  The model is a state
    monad with exceptions that also records what a computation does.  A
    handler of a plugin is a function on the world that returns or throws;
    it changes neither the registry nor the fields of the context object
    while a message is dispatched.  Loggers and the listeners of the emitted
    signals do not throw, and one call runs to its end before the next
    starts. *)

(** The message event as the gateway delivers it. *)
Module Raw.

Inductive Segment :=
| SegText (text : jsstring)    (* {type: 'text', data: {text}} *)
| SegImage                     (* {type: 'image'} *)
| SegFace (id : jsstring)      (* {type: 'face', data: {id}} *)
| SegOther (type : jsstring).

Inductive Body :=
| BodyString (s : jsstring)
| BodyArray (items : list Segment).

Record Message := {
  message_id : jsval;
  user_id : jsval;
  group_id : jsval;
  message_type : jsval;
  message : Body;
  raw_message : jsval;
  sender : jsval;
  time : Z
}.

End Raw.

Module Host.

(** The awaited outcome of calling a function of a plugin or of the
    environment: it returns a value or throws. *)
Inductive completion :=
| Normal (v : jsval)
| Throw (e : jsval).

(** The context object handed to plugins.  [source] is the message the
    [reply] closure has captured. *)
Record Context := {
  messageId : jsval;
  userId : jsval;
  groupId : jsval;
  messageType : jsval;
  message : jsstring;
  rawMessage : jsval;
  messageArray : Raw.Body;
  sender : jsval;
  time : Z;
  isPrivate : bool;
  isGroup : bool;
  isCommand : bool;
  command : option jsstring;
  args : list jsstring;
  source : Raw.Message
}.

(** An action handed to [adapter.send] by [bot.sendPrivateMsg] and
    [bot.sendGroupMsg]: the target is the [user_id] or the [group_id]. *)
Record Action := {
  action : jsstring;
  target : jsval;
  content : jsstring
}.

Inductive Hook := OnMessage | OnCommand | OnEvent | OnUnload.

(** The events of the file watcher to which [setupWatcher] listens. *)
Inductive WatcherEvent :=
| FileAdded (filePath : jsstring)       (* 'add' *)
| FileChanged (filePath : jsstring)     (* 'change' *)
| FileUnlinked (filePath : jsstring).   (* 'unlink' *)

Inductive Signal :=
| BotMessage (context : Context)          (* bot.emit('message', context) *)
| BotCommand (context : Context)          (* bot.emit('command', context) *)
| PluginLoaded (pluginId : jsstring)      (* emit('plugin-loaded', ...) *)
| PluginUnloaded (pluginId : jsstring).   (* emit('plugin-unloaded', pluginId) *)

Inductive LogLine :=
| HandlerFailed (pluginId : jsstring) (e : jsval)   (* 插件 ... 处理消息出错 *)
| EventHandlerFailed (pluginId : jsstring) (e : jsval)
| UnloadFailed (pluginId : jsstring) (e : jsval)    (* 插件卸载失败 *)
| UnloadSucceeded (pluginId : jsstring)             (* 插件卸载成功 *)
| LoadFailed (filePath : jsstring) (e : jsval)      (* 插件加载失败 *)
| LoadSucceeded (pluginId filePath : jsstring)      (* 插件加载成功 *)
| ReplyFailed (e : jsval).                          (* 回复未知命令失败 *)

(** What a run of the manager or of the processor does, in order. *)
Inductive Effect :=
| Invoke (pluginId : jsstring) (h : Hook)
| Log (l : LogLine)
| Emit (sig : Signal)
| SendAction (a : Action)
| PluginsSet (pluginId : jsstring)
| PluginsDelete (pluginId : jsstring).

(** How a computation of the host ends: with a value, or with an
    exception on its way to the next [catch]. *)
Inductive result (A : Type) :=
| Ok (a : A)
| Raise (e : jsval).
Arguments Ok {A} a.
Arguments Raise {A} e.

(** The field of a [PluginLoader] the loader reads, and the fields of a
    [PluginManager] that play a part in its construction; a field that has
    not been assigned reads as [undefined], here [None]. *)
Record PluginLoader := {
  loader_pluginDir : option jsstring
}.

Record PluginManager := {
  manager_loader : option PluginLoader;
  manager_pluginDir : option jsstring
}.

Section Types.

(** Everything plugins and the environment can read and change, apart
    from the registry: plugin handlers are functions on it. *)
Variable World : Type.

(** The value a plugin file exports. *)
Variable RawModule : Type.

(** [typeof instance.onX === 'function'] holds exactly for [Some]. *)
Record Instance := {
  onMessage : option (Context → World → completion * World);
  onCommand : option (Context → World → completion * World);
  onEvent : option (jsval → World → completion * World);
  onUnload : option (World → completion * World)
}.

Record PluginInfo := {
  id : jsstring;
  path : jsstring;
  instance : Instance;
  module : RawModule;
  loadedAt : Z
}.

(** The state of the host: [this.plugins], a [Map] iterated in insertion
    order, and the world. *)
Record State := {
  plugins : list (jsstring * PluginInfo);
  world : World
}.

(** Computations over that state that may throw and that record what
    they do. *)
Definition M (A : Type) : Type := State → result A * State * list Effect.

(** What the manager and the processor rely on: the plugin directory
    ([bot.config.pluginDir || path.join(process.cwd(), 'plugins')]),
    [path.relative] on strings, the [TypeError] that the functions of [path]
    throw when an argument is not a string, the clock read by [new Date()],
    the loader ([loader.loadPluginModule]) and the sandbox
    ([sandbox.initializePlugin]), whose outcome on a file is a plugin or an
    exception, and the [send] of the bot's adapter, awaited. *)
Record Env := {
  pluginDir : jsstring;
  path_relative : jsstring → jsstring → jsstring;
  invalidArgType : jsval;
  now : World → Z;
  loadPluginModule : jsstring → World → (jsval + RawModule) * World;
  initializePlugin : RawModule → jsstring → World → (jsval + Instance) * World;
  adapter_send : Action → World → completion * World
}.

End Types.

Arguments onMessage {World} _.
Arguments onCommand {World} _.
Arguments onEvent {World} _.
Arguments onUnload {World} _.
Arguments id {World RawModule} _.
Arguments path {World RawModule} _.
Arguments instance {World RawModule} _.
Arguments module {World RawModule} _.
Arguments loadedAt {World RawModule} _.
Arguments plugins {World RawModule} _.
Arguments world {World RawModule} _.
Arguments pluginDir {World RawModule} _.
Arguments path_relative {World RawModule} _ _ _.
Arguments invalidArgType {World RawModule} _.
Arguments now {World RawModule} _ _.
Arguments loadPluginModule {World RawModule} _ _ _.
Arguments initializePlugin {World RawModule} _ _ _ _.
Arguments adapter_send {World RawModule} _ _ _.

Section Model.

Context {World RawModule : Type}.

#[local] Abbreviation Plugins := (list (jsstring * PluginInfo World RawModule)).
#[local] Abbreviation M := (M World RawModule).

Fixpoint plugins_get (pluginId : jsstring) (m : Plugins)
  : option (PluginInfo World RawModule) :=
  match m with
  | [] => None
  | (k, v) :: m' => if decide (k = pluginId) then Some v else plugins_get pluginId m'
  end.

Definition plugins_has (pluginId : jsstring) (m : Plugins) : bool :=
  bool_decide (is_Some (plugins_get pluginId m)).

(** [Map.prototype.set]: the value of an existing key is replaced where
    it stands, a new key goes to the end. *)
Fixpoint plugins_set (pluginId : jsstring) (v : PluginInfo World RawModule)
    (m : Plugins) : Plugins :=
  match m with
  | [] => [(pluginId, v)]
  | (k, v') :: m' =>
      if decide (k = pluginId) then (k, v) :: m'
      else (k, v') :: plugins_set pluginId v m'
  end.

Definition plugins_delete (pluginId : jsstring) (m : Plugins) : Plugins :=
  filter (fun kv => kv.1 ≠ pluginId) m.

Definition ret {A} (a : A) : M A := fun st => (Ok a, st, []).

Definition bind {A B} (m : M A) (k : A → M B) : M B :=
  fun st =>
    match m st with
    | (Ok a, st1, t1) => let '(r, st2, t2) := k a st1 in (r, st2, t1 ++ t2)
    | (Raise e, st1, t1) => (Raise e, st1, t1)
    end.

(** [try { m } catch (error) { h error }] *)
Definition try_catch {A} (m : M A) (h : jsval → M A) : M A :=
  fun st =>
    match m st with
    | (Ok a, st1, t1) => (Ok a, st1, t1)
    | (Raise e, st1, t1) => let '(r, st2, t2) := h e st1 in (r, st2, t1 ++ t2)
    end.

(** [throw e] *)
Definition throw {A} (e : jsval) : M A := fun st => (Raise e, st, []).

Definition tell (ef : Effect) : M unit := fun st => (Ok tt, st, [ef]).

Definition get_plugins : M Plugins := fun st => (Ok (plugins st), st, []).

Definition put_plugins (m : Plugins) : M unit :=
  fun st => (Ok tt, {| plugins := m; world := world st |}, []).

Definition get_world : M World := fun st => (Ok (world st), st, []).

(** [await f(...)] for a function [f] of a plugin or of the environment. *)
Definition await (f : World → completion * World) : M jsval :=
  fun st =>
    let '(c, w) := f (world st) in
    let st' := {| plugins := plugins st; world := w |} in
    match c with
    | Normal v => (Ok v, st', [])
    | Throw e => (Raise e, st', [])
    end.

Definition await_sum {A} (f : World → (jsval + A) * World) : M A :=
  fun st =>
    let '(c, w) := f (world st) in
    let st' := {| plugins := plugins st; world := w |} in
    match c with
    | inr a => (Ok a, st', [])
    | inl e => (Raise e, st', [])
    end.

#[local] Instance M_ret : MRet M := @ret.
#[local] Instance M_bind : MBind M := fun A B k m => bind m k.

(** *** PluginLoader *)

(** [new PluginLoader(pluginManager)] copies [pluginManager.pluginDir] as
    it is at that moment. *)
Definition newPluginLoader (pluginManager : PluginManager) : PluginLoader :=
  {| loader_pluginDir := manager_pluginDir pluginManager |}.

(** The callback of [files.filter] in [findPluginFiles]:
    [path.relative(this.pluginDir, file)] throws when [this.pluginDir] is
    [undefined]. *)
Definition keepPluginFile (env : Env World RawModule) (loader : PluginLoader)
    (file : jsstring) : jsval + bool :=
  match loader_pluginDir loader with
  | None => inl (invalidArgType env)
  | Some dir =>
      let relativePath := path_relative env dir file in
      inr (negb (includes relativePath (lit "node_modules"))
           && negb (startsWith relativePath (lit ".")))
  end.

(** [findPluginFiles()].  The executor of the promise first builds the
    pattern: [path.join(this.pluginDir, '**', '*.{js,mjs}')] throws when
    [this.pluginDir] is [undefined], which rejects the promise before
    [glob] is called.  Otherwise [glob] is the outcome of the directory scan
    with that pattern, an error or the files that match, and the filter runs
    with a directory that is a string. *)
Definition findPluginFiles (env : Env World RawModule) (loader : PluginLoader)
    (glob : World → (jsval + list jsstring) * World) : M (list jsstring) :=
  match loader_pluginDir loader with
  | None => throw (invalidArgType env)
  | Some _ =>
      files ← await_sum glob;
      mret (filter (fun file => keepPluginFile env loader file = inr true) files)
  end.

(** *** PluginManager *)

(** The constructor of [PluginManager], with the assignments that matter
    here in the order of the source: [this.loader = new PluginLoader(this)]
    runs before [this.pluginDir] is assigned. *)
Definition newPluginManager (env : Env World RawModule) : PluginManager :=
  let this := {| manager_loader := None; manager_pluginDir := None |} in
  let this := {| manager_loader := Some (newPluginLoader this);
                 manager_pluginDir := manager_pluginDir this |} in
  let this := {| manager_loader := manager_loader this;
                 manager_pluginDir := Some (pluginDir env) |} in
  this.

(** [getPluginId(filePath)] *)
Definition getPluginId (env : Env World RawModule) (filePath : jsstring) : jsstring :=
  let relativePath := path_relative env (pluginDir env) filePath in
  strip_js_suffix (replace_backslashes relativePath).

(** The test the watcher applies to a path before it loads or unloads. *)
Definition watched (filePath : jsstring) : bool :=
  endsWith filePath (lit ".js") || endsWith filePath (lit ".mjs").

(** A call of a handler of plugin [pluginId], awaited. *)
Definition invoke (pluginId : jsstring) (h : Hook)
    (f : World → completion * World) : M jsval :=
  tell (Invoke pluginId h) ;; await f.

(** The body of the [try] in the loop of [handleMessage], in its two
    parts; the value tells whether the loop is left through
    [handled = true; break]. *)
Definition tryOnMessage (context : Context) (pluginId : jsstring)
    (pluginInfo : PluginInfo World RawModule) : M bool :=
  match onMessage (instance pluginInfo) with
  | Some f =>
      result ← invoke pluginId OnMessage (f context);
      mret (strict_true result)
  | None => mret false
  end.

Definition tryOnCommand (context : Context) (pluginId : jsstring)
    (pluginInfo : PluginInfo World RawModule) : M bool :=
  if isCommand context then
    match onCommand (instance pluginInfo) with
    | Some f =>
        result ← invoke pluginId OnCommand (f context);
        mret (strict_true result)
    | None => mret false
    end
  else mret false.

Definition tryHandlers (context : Context) (pluginId : jsstring)
    (pluginInfo : PluginInfo World RawModule) : M bool :=
  stop ← tryOnMessage context pluginId pluginInfo;
  if stop : bool then mret true
  else tryOnCommand context pluginId pluginInfo.

(** The [catch] of that [try]. *)
Definition catchHandlers (pluginId : jsstring) (error : jsval) : M bool :=
  tell (Log (HandlerFailed pluginId error)) ;; mret false.

(** [for (const [pluginId, pluginInfo] of this.plugins) { try ... catch ... }] *)
Fixpoint dispatch (context : Context) (entries : Plugins) : M bool :=
  match entries with
  | [] => mret false
  | (pluginId, pluginInfo) :: rest =>
      stop ← try_catch (tryHandlers context pluginId pluginInfo)
               (catchHandlers pluginId);
      if stop : bool then mret true else dispatch context rest
  end.

(** [handleMessage(context)] *)
Definition handleMessage (context : Context) : M bool :=
  entries ← get_plugins; dispatch context entries.

Fixpoint dispatchEvent (event : jsval) (entries : Plugins) : M unit :=
  match entries with
  | [] => mret tt
  | (pluginId, pluginInfo) :: rest =>
      try_catch
        match onEvent (instance pluginInfo) with
        | Some f => invoke pluginId OnEvent (f event) ;; mret tt
        | None => mret tt
        end
        (fun error => tell (Log (EventHandlerFailed pluginId error))) ;;
      dispatchEvent event rest
  end.

(** [handleEvent(event)] *)
Definition handleEvent (event : jsval) : M unit :=
  entries ← get_plugins; dispatchEvent event entries.

(** [unloadPlugin(pluginId)] *)
Definition unloadPlugin (pluginId : jsstring) : M bool :=
  try_catch
    (entries ← get_plugins;
     match plugins_get pluginId entries with
     | None => mret false
     | Some pluginInfo =>
         match onUnload (instance pluginInfo) with
         | Some f => invoke pluginId OnUnload f ;; mret tt
         | None => mret tt
         end ;;
         entries ← get_plugins;
         put_plugins (plugins_delete pluginId entries) ;;
         tell (PluginsDelete pluginId) ;;
         tell (Log (UnloadSucceeded pluginId)) ;;
         tell (Emit (PluginUnloaded pluginId)) ;;
         mret true
     end)
    (fun error => tell (Log (UnloadFailed pluginId error)) ;; mret false).

(** The part of [loadPlugin] after the old record has been dealt with. *)
Definition install (env : Env World RawModule) (filePath pluginId : jsstring)
  : M bool :=
  pluginModule ← await_sum (loadPluginModule env filePath);
  plugin ← await_sum (initializePlugin env pluginModule filePath);
  entries ← get_plugins;
  w ← get_world;
  put_plugins (plugins_set pluginId
                 {| id := pluginId; path := filePath; instance := plugin;
                    module := pluginModule; loadedAt := now env w |}
                 entries) ;;
  tell (PluginsSet pluginId) ;;
  tell (Log (LoadSucceeded pluginId filePath)) ;;
  tell (Emit (PluginLoaded pluginId)) ;;
  mret true.

(** The [catch] of [loadPlugin]. *)
Definition catchLoad (filePath : jsstring) (error : jsval) : M bool :=
  tell (Log (LoadFailed filePath error)) ;; mret false.

(** [loadPlugin(filePath)] *)
Definition loadPlugin (env : Env World RawModule) (filePath : jsstring) : M bool :=
  try_catch
    (let pluginId := getPluginId env filePath in
     entries ← get_plugins;
     (if plugins_has pluginId entries
      then unloadPlugin pluginId ;; mret tt
      else mret tt) ;;
     install env filePath pluginId)
    (catchLoad filePath).

(** [loadPlugins()], given the files [findPluginFiles] has found. *)
Fixpoint loadPlugins (env : Env World RawModule) (pluginFiles : list jsstring)
  : M unit :=
  match pluginFiles with
  | [] => mret tt
  | file :: files => loadPlugin env file ;; loadPlugins env files
  end.

(** [loadPlugins()] from the scan on, for a manager whose [this.loader]
    is [loader]. *)
Definition loadPluginsFromDisk (env : Env World RawModule) (loader : PluginLoader)
    (glob : World → (jsval + list jsstring) * World) : M unit :=
  pluginFiles ← findPluginFiles env loader glob;
  loadPlugins env pluginFiles.

(** The callbacks [setupWatcher] registers for the events 'add', 'change'
    and 'unlink' of the file watcher. *)
Definition onAdd (env : Env World RawModule) (filePath : jsstring) : M unit :=
  if watched filePath then loadPlugin env filePath ;; mret tt else mret tt.

Definition onChange (env : Env World RawModule) (filePath : jsstring) : M unit :=
  if watched filePath then loadPlugin env filePath ;; mret tt else mret tt.

Definition onUnlink (env : Env World RawModule) (filePath : jsstring) : M unit :=
  if watched filePath then
    let pluginId := getPluginId env filePath in
    unloadPlugin pluginId ;; mret tt
  else mret tt.

(** The watcher at work: one callback after the other. *)
Definition onWatcherEvent (env : Env World RawModule) (ev : WatcherEvent) : M unit :=
  match ev with
  | FileAdded filePath => onAdd env filePath
  | FileChanged filePath => onChange env filePath
  | FileUnlinked filePath => onUnlink env filePath
  end.

Fixpoint watch (env : Env World RawModule) (evs : list WatcherEvent) : M unit :=
  match evs with
  | [] => mret tt
  | ev :: evs' => onWatcherEvent env ev ;; watch env evs'
  end.

(** [getPluginsInfo()], on the registry [entries] *)
Record Info := { info_id : jsstring; info_path : jsstring; info_loadedAt : Z }.

Definition getPluginsInfo (entries : Plugins) : list Info :=
  (fun kv => {| info_id := id kv.2; info_path := path kv.2;
                info_loadedAt := loadedAt kv.2 |}) <$> entries.

(** *** MessageProcessor *)

(** [extractText(message)] *)
Definition extractText (message : Raw.Message) : jsstring :=
  match Raw.message message with
  | Raw.BodyString s => s
  | Raw.BodyArray items =>
      concat ((fun item =>
                 match item with
                 | Raw.SegText text => text
                 | Raw.SegImage => [91; 22270; 29255; 93]%N           (* [图片] *)
                 | Raw.SegFace i => [91; 34920; 24773; 58]%N ++ i ++ [93%N]  (* [表情:id] *)
                 | Raw.SegOther type => 91%N :: type ++ [93%N]
                 end) <$> items)
  end.

(** [createContext(message)] *)
Definition createContext (message : Raw.Message) : Context :=
  let isPrivate := bool_decide (Raw.message_type message = JStr (lit "private")) in
  let isGroup := bool_decide (Raw.message_type message = JStr (lit "group")) in
  {| messageId := Raw.message_id message;
     userId := Raw.user_id message;
     groupId := if isGroup then Raw.group_id message else JNull;
     messageType := Raw.message_type message;
     message := extractText message;
     rawMessage := Raw.raw_message message;
     messageArray := Raw.message message;
     sender := Raw.sender message;
     time := (Raw.time message * 1000)%Z;
     isPrivate := isPrivate;
     isGroup := isGroup;
     isCommand := false;
     command := None;
     args := [];
     source := message |}.

(** [bot.sendPrivateMsg], [bot.sendGroupMsg]: [adapter.send] of an action. *)
Definition sendPrivateMsg (env : Env World RawModule) (userId : jsval)
    (text : jsstring) : M jsval :=
  let a := {| action := lit "send_private_msg"; target := userId; content := text |} in
  tell (SendAction a) ;; await (adapter_send env a).

Definition sendGroupMsg (env : Env World RawModule) (groupId : jsval)
    (text : jsstring) : M jsval :=
  let a := {| action := lit "send_group_msg"; target := groupId; content := text |} in
  tell (SendAction a) ;; await (adapter_send env a).

(** [context.reply(content)] *)
Definition reply (env : Env World RawModule) (context : Context)
    (text : jsstring) : M jsval :=
  if isPrivate context
  then sendPrivateMsg env (Raw.user_id (source context)) text
  else sendGroupMsg env (Raw.group_id (source context)) text.

(** `未知命令: ${context.command}\n请输入 "#帮助" 查看可用命令` *)
Definition unknownCommandText (context : Context) : jsstring :=
  ([26410; 30693; 21629; 20196; 58; 32]
   ++ default (lit "null") (command context)
   ++ [10; 35831; 36755; 20837; 32; 34; 35; 24110; 21161; 34; 32;
       26597; 30475; 21487; 29992; 21629; 20196])%N.

(** [replyUnknownCommand(context)] *)
Definition replyUnknownCommand (env : Env World RawModule) (context : Context)
  : M unit :=
  try_catch
    (reply env context (unknownCommandText context) ;; mret tt)
    (fun error => tell (Log (ReplyFailed error))).

(** The assignments to [context.command], [context.args] and
    [context.isCommand] in [process]. *)
Definition markCommand (commandInfo : CommandInfo) (context : Context) : Context :=
  {| messageId := messageId context; userId := userId context;
     groupId := groupId context; messageType := messageType context;
     message := message context; rawMessage := rawMessage context;
     messageArray := messageArray context; sender := sender context;
     time := time context; isPrivate := isPrivate context;
     isGroup := isGroup context;
     isCommand := true;
     command := Some (Command.command commandInfo);
     args := Command.args commandInfo;
     source := source context |}.

(** [process(message)], with [commandPrefix] for [this.commandPrefix]. *)
Definition process (env : Env World RawModule) (commandPrefix : list jsstring)
    (message : Raw.Message) : M unit :=
  let context := createContext message in
  tell (Emit (BotMessage context)) ;;
  context ← match parseCommand commandPrefix (Host.message context) with
            | Some commandInfo =>
                let context := markCommand commandInfo context in
                tell (Emit (BotCommand context)) ;; mret context
            | None => mret context
            end;
  handled ← handleMessage context;
  if negb handled && isCommand context
  then replyUnknownCommand env context
  else mret tt.

(** *** Notions used to state the properties of the host *)

(** [t] happens first, then what [x] records. *)
Definition prefixed {A} (t : list Effect)
    (x : result A * State World RawModule * list Effect)
  : result A * State World RawModule * list Effect :=
  let '(r, st, t') := x in (r, st, t ++ t').

(** The outcome [x], with the registry [m] in the place of the one it
    ends with. *)
Definition withRegistry {A} (m : Plugins)
    (x : result A * State World RawModule * list Effect)
  : result A * State World RawModule * list Effect :=
  let '(r, st, t) := x in (r, {| plugins := m; world := world st |}, t).

(** The plugins whose [onMessage] is a function. *)
Definition withOnMessage (entries : Plugins) : list jsstring :=
  (filter (fun kv => is_Some (onMessage (instance kv.2))) entries).*1.

(** At most one record per identity. *)
Definition unique (m : Plugins) : Prop := NoDup m.*1.

(** The records registered under an identity. *)
Definition records (pluginId : jsstring) (m : Plugins)
  : list (PluginInfo World RawModule) :=
  (filter (fun kv => kv.1 = pluginId) m).*2.

(** The plugins whose [onEvent] is a function. *)
Definition withOnEvent (entries : Plugins) : list jsstring :=
  (filter (fun kv => is_Some (onEvent (instance kv.2))) entries).*1.

(** Every record is stored under its own [id], which is the identity of
    its [path], a file of [files]. *)
Definition filed (env : Env World RawModule) (files : list jsstring)
    (m : Plugins) : Prop :=
  Forall (fun kv => id kv.2 = kv.1 ∧ kv.1 = getPluginId env (path kv.2)
                    ∧ path kv.2 ∈ files) m.

End Model.

(** The plugins whose [onMessage] a trace shows to have been called, and
    the plugins it shows to have been called at all. *)
Definition calledOnMessage (t : list Effect) : list jsstring :=
  omap (fun ef => match ef with Invoke p OnMessage => Some p | _ => None end) t.

Definition called (t : list Effect) : list jsstring :=
  omap (fun ef => match ef with Invoke p _ => Some p | _ => None end) t.

(** The context [process] hands to the plugins. *)
Definition classify (commandPrefix : list jsstring) (message : Raw.Message)
  : Context :=
  let context := createContext message in
  match parseCommand commandPrefix (Host.message context) with
  | Some commandInfo => markCommand commandInfo context
  | None => context
  end.

(** What [process] emits before the plugins run. *)
Definition announced (commandPrefix : list jsstring) (message : Raw.Message)
  : list Effect :=
  Emit (BotMessage (createContext message))
  :: (if isCommand (classify commandPrefix message)
      then [Emit (BotCommand (classify commandPrefix message))] else []).

(** The 'unknown command' notice for the channel of [message]. *)
Definition unknownCommandNotice (commandPrefix : list jsstring)
    (message : Raw.Message) : Action :=
  let private := bool_decide (Raw.message_type message = JStr (lit "private")) in
  {| action := if private then lit "send_private_msg" else lit "send_group_msg";
     target := if private then Raw.user_id message else Raw.group_id message;
     content := unknownCommandText (classify commandPrefix message) |}.

(** The files a trace shows [loadPlugin] to have dealt with. *)
Definition attempted (t : list Effect) : list jsstring :=
  omap (fun ef => match ef with
                  | Log (LoadSucceeded _ filePath) | Log (LoadFailed filePath _) =>
                      Some filePath
                  | _ => None
                  end) t.

(** The paths the watcher hands to [loadPlugin]: those added or changed
    that pass its test. *)
Definition loadedPaths (evs : list WatcherEvent) : list jsstring :=
  omap (fun ev => match ev with
                  | FileAdded filePath | FileChanged filePath =>
                      if watched filePath then Some filePath else None
                  | FileUnlinked _ => None
                  end) evs.

(** The message [m] with the body [b]. *)
Definition withBody (b : Raw.Body) (m : Raw.Message) : Raw.Message :=
  {| Raw.message_id := Raw.message_id m; Raw.user_id := Raw.user_id m;
     Raw.group_id := Raw.group_id m; Raw.message_type := Raw.message_type m;
     Raw.message := b; Raw.raw_message := Raw.raw_message m;
     Raw.sender := Raw.sender m; Raw.time := Raw.time m |}.

(** Paths without a backslash. *)
Definition noBackslash (s : jsstring) : bool :=
  forallb (fun c => negb (c =? 92)%N) s.

(** What [handleMessage] may do with a context: call [onMessage], call
    [onCommand] if the context is a command, log the failure of a handler. *)
Definition dispatching (context : Context) (ef : Effect) : bool :=
  match ef with
  | Invoke _ OnMessage => true
  | Invoke _ OnCommand => isCommand context
  | Log (HandlerFailed _ _) => true
  | _ => false
  end.

End Host.

(** ** The plugin sandbox ([PluginSandbox])

    The sandbox turns what a plugin file exports into the object the
    manager registers.  Of that object the model keeps the four handlers the
    manager calls ([id], [name], [description] and [version] are read by
    nobody).  What the sandbox logs goes to the world, and [createSandbox]
    is taken not to throw. *)

(** What a plugin file exports, as far as the sandbox looks at it. *)
Module Exported.
Import Host.

(** A property the sandbox reads from a plugin object. *)
Inductive Property (F : Type) :=
| Missing             (* undefined, or another falsy value *)
| Value (v : jsval)   (* a truthy value that is not a function *)
| Method (f : F).
Arguments Missing {F}.
Arguments Value {F} v.
Arguments Method {F} f.

(** The object a Yunzai-style [main] function is called with; [replyTo]
    is the context whose [reply] its [reply] calls. *)
Record YunzaiContext := {
  user_id : jsval;
  group_id : jsval;
  message : jsstring;
  raw_message : jsval;
  message_type : jsval;
  sender : jsval;
  replyTo : Context
}.

Section Exported.

Variable World : Type.

(** The properties of a plugin object that become handlers. *)
Record PluginObject := {
  main : Property (YunzaiContext → World → completion * World);
  onMessage : Property (Context → World → completion * World);
  onCommand : Property (Context → World → completion * World);
  onEvent : Property (jsval → World → completion * World);
  onUnload : Property (World → completion * World)
}.

(** [pluginExports], by its [typeof]: a function, an object, or a value
    of another type (a number, a string, ...).  The function is called with
    the sandbox made for the file; it throws or returns a value, [None] for
    [undefined] and [null], and the properties of any other value. *)
Inductive Exports :=
| Function (pluginFunction : jsstring → World → (jsval + option PluginObject) * World)
| Object (plugin : PluginObject)
| Primitive.

(** [pluginModule]: [null] or [undefined], or a value with its property
    [default] (given when it is truthy). *)
Inductive Module_ :=
| Nullish
| Loaded (default : option Exports) (self : Exports).

End Exported.

Arguments main {World} _.
Arguments onMessage {World} _.
Arguments onCommand {World} _.
Arguments onEvent {World} _.
Arguments onUnload {World} _.
Arguments Function {World} _.
Arguments Object {World} _.
Arguments Primitive {World}.
Arguments Nullish {World}.
Arguments Loaded {World} _ _.

End Exported.

Module Sandbox.
Import Host Exported.

Section Sandbox.

Context {World : Type}.

(** What the sandbox takes from the runtime: the [TypeError] raised by a
    property read on [null] or [undefined], and the logger. *)
Record Runtime := {
  typeError : jsval;
  logger_error : jsval → World → World;
  logger_warn : jsstring → World → World
}.

Variable rt : Runtime.

(** The [yunzaiContext] made from [context] in [adaptYunzaiMain]. *)
Definition yunzaiContext (context : Context) : YunzaiContext :=
  {| user_id := userId context;
     group_id := groupId context;
     message := Host.message context;
     raw_message := rawMessage context;
     message_type := messageType context;
     sender := Host.sender context;
     replyTo := context |}.

(** [adaptYunzaiMain(mainFunc, context)] *)
Definition adaptYunzaiMain
    (mainFunc : YunzaiContext → World → completion * World) (context : Context)
  : World → completion * World :=
  fun w =>
    match mainFunc (yunzaiContext context) w with
    | (Normal result, w') => (Normal (JBool (strict_true result)), w')
    | (Throw error, w') => (Normal (JBool false), logger_error rt error w')
    end.

(** [p || d] for a handler. *)
Definition or_handler {F} (p : Property F) (d : F) : option F :=
  match p with
  | Missing => Some d
  | Value _ => None
  | Method f => Some f
  end.

(** [adaptPluginObject(plugin, filePath)] for a [plugin] that is neither
    [null] nor [undefined]. *)
Definition adaptPluginObject (plugin : PluginObject World) : Instance World :=
  {| Host.onMessage :=
       Some (fun context =>
               match main plugin with
               | Method mainFunc => adaptYunzaiMain mainFunc context
               | _ =>
                   match Exported.onMessage plugin with
                   | Method f => f context
                   | _ => fun w => (Normal (JBool false), w)
                   end
               end);
     Host.onCommand :=
       or_handler (Exported.onCommand plugin) (fun _ w => (Normal (JBool false), w));
     Host.onEvent :=
       or_handler (Exported.onEvent plugin) (fun _ w => (Normal JUndefined, w));
     Host.onUnload :=
       or_handler (Exported.onUnload plugin) (fun w => (Normal JUndefined, w)) |}.

(** [createPluginFromFunction(pluginFunction, filePath)]: reading
    [plugin.name] throws when the function has returned [undefined] or
    [null]. *)
Definition createPluginFromFunction
    (pluginFunction : jsstring → World → (jsval + option (PluginObject World)) * World)
    (filePath : jsstring) : World → (jsval + Instance World) * World :=
  fun w =>
    match pluginFunction filePath w with
    | (inl e, w') => (inl e, w')
    | (inr None, w') => (inl (typeError rt), w')
    | (inr (Some plugin), w') => (inr (adaptPluginObject plugin), w')
    end.

(** The plugin made for a file whose export is neither a function nor an
    object: [{ id, onMessage: () => false }]. *)
Definition unsupported : Instance World :=
  {| Host.onMessage := Some (fun _ w => (Normal (JBool false), w));
     Host.onCommand := None; Host.onEvent := None; Host.onUnload := None |}.

(** [initializePlugin(pluginModule, filePath)]: reading
    [pluginModule.default] throws when the module is [null] or
    [undefined]. *)
Definition initializePlugin (pluginModule : Module_ World) (filePath : jsstring)
  : World → (jsval + Instance World) * World :=
  fun w =>
    match pluginModule with
    | Nullish => (inl (typeError rt), w)
    | Loaded default self =>
        let pluginExports := from_option (fun d => d) self default in
        match pluginExports with
        | Function pluginFunction => createPluginFromFunction pluginFunction filePath w
        | Object plugin => (inr (adaptPluginObject plugin), w)
        | Primitive => (inr unsupported, logger_warn rt filePath w)
        end
    end.

End Sandbox.

Arguments Runtime World : clear implicits.

End Sandbox.

(** *** A concrete host used as example *)

Module Scenario.
Import Host.

(** The world is a journal of what the plugins and the adapter did. *)
Abbreviation World := (list jsstring).
Abbreviation RawModule := unit.

(** A handler that notes its name and ends with [c]. *)
Definition handler {A} (name : string) (c : completion) : A → World → completion * World :=
  fun _ w => (c, w ++ [lit name]).

Definition plugin (name : string) (i : Instance World)
  : jsstring * PluginInfo World RawModule :=
  (lit name,
   {| id := lit name; path := lit "/bot/plugins/" ++ lit name ++ lit ".js";
      instance := i; module := tt; loadedAt := 0 |}).

(** [quiet] looks at every message and claims none; [greedy] claims every
    message; [faulty] throws from [onMessage]; [clingy] throws from
    [onUnload]; [helper] only answers commands, and throws. *)
Definition quiet : Instance World :=
  {| onMessage := Some (handler "quiet.onMessage" (Normal JUndefined));
     onCommand := None; onEvent := None;
     onUnload := Some (fun w => (Normal JUndefined, w ++ [lit "quiet.onUnload"])) |}.

Definition greedy : Instance World :=
  {| onMessage := Some (handler "greedy.onMessage" (Normal (JBool true)));
     onCommand := None; onEvent := None; onUnload := None |}.

Definition faulty : Instance World :=
  {| onMessage := Some (handler "faulty.onMessage" (Throw (JStr (lit "boom"))));
     onCommand := None; onEvent := None; onUnload := None |}.

Definition clingy : Instance World :=
  {| onMessage := None; onCommand := None; onEvent := None;
     onUnload := Some (fun w => (Throw (JStr (lit "busy")), w ++ [lit "clingy.onUnload"])) |}.

Definition helper : Instance World :=
  {| onMessage := None;
     onCommand := Some (handler "helper.onCommand" (Throw (JStr (lit "oops"))));
     onEvent := None; onUnload := None |}.

Definition host (entries : list (jsstring * PluginInfo World RawModule))
  : State World RawModule :=
  {| plugins := entries; world := [] |}.


(** "#ping" said in group 1 by user 2. *)
Definition ping : Raw.Message :=
  {| Raw.message_id := JNum 10; Raw.user_id := JNum 2; Raw.group_id := JNum 1;
     Raw.message_type := JStr (lit "group");
     Raw.message := Raw.BodyString (lit "#ping");
     Raw.raw_message := JStr (lit "#ping"); Raw.sender := JNull;
     Raw.time := 1700000000 |}.

(** "hello" said in private by user 2. *)
Definition hello : Raw.Message :=
  {| Raw.message_id := JNum 11; Raw.user_id := JNum 2; Raw.group_id := JUndefined;
     Raw.message_type := JStr (lit "private");
     Raw.message := Raw.BodyArray [Raw.SegText (lit "hello")];
     Raw.raw_message := JStr (lit "hello"); Raw.sender := JNull;
     Raw.time := 1700000001 |}.

Definition pingContext : Context := classify defaultCommandPrefix ping.

Definition pingNotice : Action :=
  {| action := lit "send_group_msg"; target := JNum 1;
     content := unknownCommandText pingContext |}.

(** The environment: the bot runs in /bot on a POSIX system, plugins live
    in /bot/plugins, files load, the new version of every plugin is
    [greedy], and the adapter delivers. *)
Definition env : Env World RawModule :=
  {| pluginDir := lit "/bot/plugins";
     path_relative := posix_relative (lit "/bot");
     invalidArgType := JStr (lit "ERR_INVALID_ARG_TYPE");
     now := fun w => Z.of_nat (length w);
     loadPluginModule := fun filePath w => (inr tt, w ++ [lit "load"]);
     initializePlugin := fun pluginModule filePath w => (inr greedy, w);
     adapter_send := fun a w => (Normal JNull, w ++ [action a]) |}.

(** The same with an adapter that is not connected. *)
Definition envDown : Env World RawModule :=
  {| pluginDir := pluginDir env;
     path_relative := path_relative env;
     invalidArgType := invalidArgType env;
     now := now env;
     loadPluginModule := loadPluginModule env;
     initializePlugin := initializePlugin env;
     adapter_send := fun a w => (Throw (JStr (lit "not connected")), w) |}.

Definition reloading : State World RawModule :=
  host [plugin "quiet" quiet; plugin "clingy" clingy].

Definition quietFile : jsstring := lit "/bot/plugins/quiet.js".

(** [listener] notes every event; [deaf] throws from [onEvent]. *)
Definition listener : Instance World :=
  {| onMessage := None; onCommand := None;
     onEvent := Some (handler "listener.onEvent" (Normal JUndefined));
     onUnload := None |}.

Definition deaf : Instance World :=
  {| onMessage := None; onCommand := None;
     onEvent := Some (handler "deaf.onEvent" (Throw (JStr (lit "what"))));
     onUnload := None |}.

(** The same environment with a loader that fails on every file. *)
Definition envBroken : Env World RawModule :=
  {| pluginDir := pluginDir env;
     path_relative := path_relative env;
     invalidArgType := invalidArgType env;
     now := now env;
     loadPluginModule := fun filePath w => (inl (JStr (lit "SyntaxError")), w);
     initializePlugin := initializePlugin env;
     adapter_send := adapter_send env |}.

(** What the scan of /bot/plugins finds. *)
Definition onDisk : list jsstring :=
  [lit "/bot/plugins/quiet.js"; lit "/bot/plugins/node_modules/dep/index.js";
   lit "/bot/plugins/.cache/old.js"; lit "/bot/plugins/tools/dice.mjs"].

Definition scan : World → (jsval + list jsstring) * World :=
  fun w => (inr onDisk, w ++ [lit "glob"]).

Definition freshFile : jsstring := lit "/bot/plugins/fresh.js".

(** "hi" said by user 2 in a channel that is neither private nor a
    group. *)
Definition guildMessage : Raw.Message :=
  {| Raw.message_id := JNum 12; Raw.user_id := JNum 2; Raw.group_id := JNum 7;
     Raw.message_type := JStr (lit "guild");
     Raw.message := Raw.BodyString (lit "hi");
     Raw.raw_message := JStr (lit "hi"); Raw.sender := JNull;
     Raw.time := 1700000002 |}.

(** The runtime of the sandbox: the logger writes to the journal. *)
Definition runtime : Sandbox.Runtime World :=
  {| Sandbox.typeError := JStr (lit "TypeError");
     Sandbox.logger_error := fun e w => w ++ [lit "logger.error"];
     Sandbox.logger_warn := fun filePath w => w ++ [lit "logger.warn"] |}.

(** A Yunzai-style plugin whose [main] throws; it also has an
    [onMessage]. *)
Definition yunzaiPlugin : Exported.PluginObject World :=
  {| Exported.main :=
       Exported.Method (fun _ w => (Throw (JStr (lit "boom")), w ++ [lit "main"]));
     Exported.onMessage :=
       Exported.Method (handler "plugin.onMessage" (Normal (JBool true)));
     Exported.onCommand := Exported.Missing;
     Exported.onEvent := Exported.Missing;
     Exported.onUnload := Exported.Value (JStr (lit "later")) |}.

Definition adapted (name : string) (o : Exported.PluginObject World)
  : jsstring * PluginInfo World RawModule :=
  plugin name (Sandbox.adaptPluginObject runtime o).

End Scenario.

(* ===================================================================== *)
(** * Part II: lemmas and theorems *)
(* ===================================================================== *)

(** ** Lemmas about the adapter *)

Module AdapterFacts.
Import Adapter.

(** *** Effect of one input on the counter *)



Lemma run_cons cfg s i ins :
  run cfg s (i :: ins)
  = ((run cfg (step cfg s i).1 ins).1,
     (step cfg s i).2 ++ (run cfg (step cfg s i).1 ins).2).
Proof.
  simpl. destruct (step cfg s i) as [s1 o1]. simpl.
  by destruct (run cfg s1 ins).
Qed.

Lemma run_app cfg s ins1 ins2 :
  run cfg s (ins1 ++ ins2)
  = ((run cfg (run cfg s ins1).1 ins2).1,
     (run cfg s ins1).2 ++ (run cfg (run cfg s ins1).1 ins2).2).
Proof.
  revert s. induction ins1 as [|i ins1 IH]; intros s.
  - simpl. by destruct (run cfg s ins2).
  - rewrite <- app_comm_cons, !run_cons, IH. simpl. by rewrite app_assoc.
Qed.

Lemma postIncrement_lt n : (n < maxExact)%N → postIncrement n = (n + 1)%N.
Proof. unfold postIncrement. intros H. apply N.ltb_lt in H. by rewrite H. Qed.



(** *** Well-formed states *)

Lemma wf_constructor : wf constructor.
Proof. split; simpl; intros *; try rewrite lookup_empty; try done; by intros ?%elem_of_nil. Qed.

Lemma postIncrement_cases n :
  (n < postIncrement n)%N ∨ (maxExact ≤ n ∧ postIncrement n = n)%N.
Proof.
  unfold postIncrement. destruct (n <? maxExact)%N eqn:E.
  - left. lia.
  - right. apply N.ltb_ge in E. done.
Qed.

Lemma elem_of_settled (k : Socket) f i (l : list Socket) :
  k ∈ alter f i l → ∃ k', k' ∈ l ∧ (k = k' ∨ k = f k').
Proof.
  revert i. induction l as [|x l IH]; intros i; simpl.
  - by intros ?%elem_of_nil.
  - destruct i as [|i]; simpl; intros [Heq|H]%elem_of_cons.
    + exists x. split; [left|]; auto.
    + exists k. split; [by right|]; auto.
    + exists k. split; [subst; left|]; auto.
    + destruct (IH _ H) as (k' & ? & ?). exists k'. split; [by right|]; auto.
Qed.

Ltac inv_lookups :=
  repeat match goal with
  | H : <[_:=_]> _ !! _ = Some _ |- _ =>
      apply lookup_insert_Some in H as [[<- <-]|[? H]]
  | H : delete _ _ !! _ = Some _ |- _ =>
      apply lookup_delete_Some in H as [? H]
  | H : ∅ !! _ = Some _ |- _ => by rewrite lookup_empty in H
  | H : _ ∈ _ ++ _ |- _ => apply elem_of_app in H as [H|H]
  | H : _ ∈ [_] |- _ => apply list_elem_of_singleton in H as ->
  | H : _ ∈ _ :: _ |- _ => apply elem_of_cons in H as [->|H]
  | H : _ ∈ filter _ _ |- _ => apply list_elem_of_filter in H as [? H]
  | H : _ ∈ alter _ _ _ |- _ => apply elem_of_settled in H as (? & H & [->| ->])
  end.

Ltac unfold_step :=
  unfold step, connect, send, disconnect, onOpen, onClose, onError,
    handleWebSocketMessage, runTimer, onListening, onCallback, reconnect,
    connectWebSocket, setTimeout, settle, deletePending in *.

Lemma wf_step cfg s i : wf s → wf (step cfg s i).1.
Proof.
  intros [Hp Ht Hk Hv].
  pose proof (postIncrement_cases (echoCounter s)) as Hinc.
  destruct i as [|action thr| |sock|sock raw|sock|sock e|id|p|payload];
    unfold_step; simpl; repeat (case_match; simplify_eq/=); try (by split);
    split; simpl; intros; inv_lookups; simpl;
    repeat match goal with
    | H : pendingRequests _ !! _ = Some _ |- _ => apply Hp in H
    | H : timers _ !! _ = Some ?t |- _ =>
        apply Ht in H as [? ?]; destruct t; simpl in *
    | H : _ ∈ sockets _ |- _ => apply Hk in H
    | H : _ ∈ servers _ |- _ => apply Hv in H
    end; try done; try lia; try (intuition lia).
Qed.

Lemma wf_run cfg ins : ∀ s, wf s → wf (run cfg s ins).1.
Proof.
  induction ins as [|i ins IH]; intros s Hs; [done|].
  rewrite run_cons. simpl. by apply IH, wf_step.
Qed.

Lemma getPending_Some v (m : gmap N nat) q :
  getPending v m = Some q →
  ∃ e', v = JNum (Z.of_N e') ∧ m !! e' = Some q ∧ deletePending v m = delete e' m.
Proof.
  destruct v as [| | |z| |]; simpl; try done.
  destruct (0 <=? z)%Z eqn:E; [|done]. intros H.
  apply Z.leb_le in E. exists (Z.to_N z). rewrite Z2N.id by lia. done.
Qed.

Lemma getPending_num e (m : gmap N nat) : getPending (JNum (Z.of_N e)) m = m !! e.
Proof.
  simpl. rewrite N2Z.id. destruct (0 <=? Z.of_N e)%Z eqn:E; [done|].
  apply Z.leb_gt in E. lia.
Qed.




(** *** Following one call from [send] to its timeout *)

Lemma tracking_step cfg e p tid t s i :
  tracking e p tid t s → quiet e tid i →
  tracking e p tid t (step cfg s i).1
  ∧ Forall (fun o => ¬ settles p o) (step cfg s i).2.
Proof.
  intros [Hp Ht Hid He Hpr Ho Hts Hk Hv] Hq.
  pose proof (postIncrement_cases (echoCounter s)) as Hinc.
  destruct i as [|action thr| |sock|sock raw|sock|sock err|id|q|payload];
    simpl in Hq; try done.
  7: { simpl. destruct (timers s !! id) as [t'|] eqn:Et; [|by split].
       pose proof (Hts _ _ Et Hq) as Hot.
       destruct t' as [d e' a p'|d]; simpl in *.
       - destruct Hot as [? ?]. destruct (pendingRequests s !! e') eqn:Ep; simpl.
         + split; [split; simpl; intros; inv_lookups; eauto|].
           * by rewrite lookup_delete_ne.
           * by rewrite lookup_delete_ne.
           * repeat constructor. simpl. congruence.
         + split; [split; simpl; intros; inv_lookups; eauto|constructor].
           by rewrite lookup_delete_ne.
       - unfold connectWebSocket. destruct (connected s); simpl.
         + split; [split; simpl; intros; inv_lookups; eauto|constructor].
           by rewrite lookup_delete_ne.
         + split; [split; simpl; intros; inv_lookups; simpl; eauto; try lia|].
           * by rewrite lookup_delete_ne.
           * repeat constructor; simpl; auto. }
  4: { simpl. destruct (sockets s !! sock); [|by split].
       destruct raw as [err|payload]; simpl.
       { split; [done|]. repeat constructor; simpl; auto. }
       repeat case_decide; simpl; try (split; [done|repeat constructor; simpl; auto]).
       all: destruct (getPending _ _) as [q|] eqn:Eg; simpl; [|by split].
       all: apply getPending_Some in Eg as (e' & Hv' & Hl & ->).
       all: assert (e' ≠ e) by congruence.
       all: split; [split; simpl; intros; inv_lookups; eauto|].
       all: try by rewrite lookup_delete_ne.
       all: repeat constructor; simpl; eauto. }
  all: unfold_step; simpl; repeat (case_match; simplify_eq/=).
  all: try (split; [done|repeat constructor; simpl; auto]).
  all: (split; [split; simpl; intros; inv_lookups; simpl; eauto; try lia|]).
  all: rewrite ?lookup_delete_ne, ?lookup_insert_ne by lia; try done.
  all: repeat constructor; simpl; try tauto; intros ?; subst; try lia.
  all: try (eapply Hk; [eapply list_elem_of_lookup_2; eassumption|done]).
  all: try (eapply Hv; [eassumption|done]).
Qed.

Lemma tracking_run cfg e p tid t ins : ∀ s,
  tracking e p tid t s → Forall (quiet e tid) ins →
  tracking e p tid t (run cfg s ins).1
  ∧ Forall (fun o => ¬ settles p o) (run cfg s ins).2.
Proof.
  induction ins as [|i ins IH]; intros s Hs Hq.
  - simpl. by split.
  - apply Forall_cons in Hq as [Hi Hq]. rewrite run_cons. simpl.
    destruct (tracking_step cfg e p tid t s i Hs Hi) as [Hs1 Ho1].
    destruct (IH _ Hs1 Hq) as [Hs2 Ho2].
    split; [done|]. by apply Forall_app.
Qed.

Lemma send_tracking cfg s action sock :
  wf s → connected s = true → ws s = Some sock → (echoCounter s < maxExact)%N →
  (step cfg s (CallSend action None)).2
  = [DrawEcho (nextPromise s) (echoCounter s); WsSend sock action (echoCounter s);
     SetTimeout (nextTimer s) (sendTimer cfg action s)]
  ∧ tracking (echoCounter s) (nextPromise s) (nextTimer s) (sendTimer cfg action s)
      (step cfg s (CallSend action None)).1.
Proof.
  intros [Hp Ht Hk Hv] Hc Hw Hlt. simpl. unfold send. simpl.
  rewrite Hc, Hw. simpl. split; [done|].
  rewrite postIncrement_lt by done.
  split; simpl; intros; inv_lookups; simpl;
    rewrite ?lookup_insert_eq; try done; try lia;
    repeat match goal with
    | H : pendingRequests _ !! _ = Some _ |- _ => apply Hp in H
    | H : timers _ !! _ = Some ?t |- _ =>
        apply Ht in H as [? ?]; destruct t; simpl in *
    | H : _ ∈ sockets _ |- _ => apply Hk in H
    | H : _ ∈ servers _ |- _ => apply Hv in H
    end; try done; try lia.
Qed.

Lemma gone_step cfg e s i : gone e s → gone e (step cfg s i).1.
Proof.
  intros [Hn He].
  pose proof (postIncrement_cases (echoCounter s)) as Hinc.
  destruct i as [|action thr| |sock|sock raw|sock|sock err|id|q|payload];
    unfold_step; simpl; repeat (case_match; simplify_eq/=); try (by split).
  all: split; simpl; try lia.
  all: repeat match goal with
       | |- delete _ _ !! _ = None => apply lookup_delete_None; right
       | |- <[_:=_]> _ !! _ = None => apply lookup_insert_None; split; [|lia]
       end; try done.
  all: apply lookup_delete_None; by right.
Qed.

Lemma gone_run cfg e ins : ∀ s, gone e s → gone e (run cfg s ins).1.
Proof.
  induction ins as [|i ins IH]; intros s Hs; [done|].
  rewrite run_cons. simpl. by apply IH, gone_step.
Qed.

Lemma unmatched_dropped cfg s sock payload :
  echo payload ≠ JUndefined →
  getPending (echo payload) (pendingRequests s) = None →
  step cfg s (WsMessage sock (Parsed payload)) = (s, []).
Proof.
  intros Hu Hg. simpl. destruct (sockets s !! sock); [|done].
  rewrite decide_False by done. by rewrite Hg.
Qed.

Lemma timer_rejects cfg e p tid d action s :
  tracking e p tid (SendTimeout d e action p) s →
  step cfg s (TimerFires tid)
  = (set_pendingRequests (delete e (pendingRequests s))
       (set_timers (delete tid (timers s)) s),
     [Reject p (ApiTimeout action)]).
Proof. intros [Hp Ht _ _ _ _ _ _ _]. simpl. rewrite Ht. simpl. by rewrite Hp. Qed.

Lemma reachable_wf cfg s : reachable cfg s → wf s.
Proof. intros [ins ->]. apply wf_run, wf_constructor. Qed.

(** *** A call that is over *)

Lemma retired_step cfg e p s i :
  retired e p s →
  retired e p (step cfg s i).1 ∧ Forall (fun o => ¬ settles p o) (step cfg s i).2.
Proof.
  intros [Hg He Hpr Hp Ht Hk Hv].
  pose proof (postIncrement_cases (echoCounter s)) as Hinc.
  destruct i as [|action thr| |sock|sock raw|sock|sock err|id|q|payload].
  5: { simpl. destruct (sockets s !! sock); [|by split].
       destruct raw as [err|payload]; simpl.
       { split; [done|]. repeat constructor; simpl; auto. }
       repeat case_decide; simpl; try (split; [done|repeat constructor; simpl; auto]).
       all: destruct (getPending _ _) as [q|] eqn:Eg; simpl; [|by split].
       all: apply getPending_Some in Eg as (e' & Hv' & Hl & ->).
       all: split; [split; simpl; intros; inv_lookups; eauto|].
       all: try (apply lookup_delete_None; by right).
       all: repeat constructor; simpl; eauto. }
  7: { simpl. destruct (timers s !! id) as [t'|] eqn:Et; [|by split].
       destruct t' as [d e' a p'|d]; simpl.
       - destruct (pendingRequests s !! e') eqn:Ep; simpl.
         + split; [split; simpl; intros; inv_lookups; eauto|].
           * apply lookup_delete_None; by right.
           * repeat constructor. simpl. intros ->.
             specialize (Ht _ _ _ _ _ Et eq_refl). congruence.
         + split; [split; simpl; intros; inv_lookups; eauto|constructor].
       - unfold connectWebSocket. destruct (connected s); simpl.
         + split; [split; simpl; intros; inv_lookups; eauto|constructor].
         + split; [split; simpl; intros; inv_lookups; simpl; eauto; try lia|].
           repeat constructor; simpl; auto. }
  all: unfold_step; simpl; repeat (case_match; simplify_eq/=).
  all: try (split; [done|repeat constructor; simpl; auto]).
  all: (split; [split; simpl; intros; inv_lookups; simpl; eauto; try lia|]).
  all: rewrite ?lookup_delete_ne, ?lookup_insert_ne by lia; try done.
  all: try (apply lookup_delete_None; right).
  all: rewrite ?lookup_insert_ne by lia; try done.
  all: repeat constructor; simpl; try tauto; try (intros ?; subst; try lia).
  all: try (eapply Hk; [eapply list_elem_of_lookup_2; eassumption|done]).
  all: try (eapply Hv; [eassumption|done]).
  all: repeat match goal with
       | H : <[_:=_]> _ !! _ = Some _ |- _ =>
           apply lookup_insert_Some in H as [[_ H]|[_ H]]; [simplify_eq; lia|]
       | H : delete _ _ !! _ = Some _ |- _ =>
           apply lookup_delete_Some in H as [_ H]
       end; eauto.
Qed.

Lemma retired_run cfg e p ins : ∀ s,
  retired e p s →
  retired e p (run cfg s ins).1 ∧ Forall (fun o => ¬ settles p o) (run cfg s ins).2.
Proof.
  induction ins as [|i ins IH]; intros s Hs.
  - simpl. by split.
  - rewrite run_cons. simpl.
    destruct (retired_step cfg e p s i Hs) as [Hs1 Ho1].
    destruct (IH _ Hs1) as [Hs2 Ho2].
    split; [done|]. by apply Forall_app.
Qed.

Lemma tracking_retired_by_response e p tid d a s :
  tracking e p tid (SendTimeout d e a p) s →
  retired e p (set_pendingRequests (delete e (pendingRequests s)) s).
Proof.
  intros [Hp Ht Hid He Hpr Ho Hts Hk Hv].
  split; simpl; try done.
  - apply lookup_delete_eq.
  - intros e' p' [Hne Hl]%lookup_delete_Some. eauto.
  - intros id d' e' a' p' Hl ->. destruct (decide (id = tid)) as [->|Hne].
    + rewrite Ht in Hl. by simplify_eq.
    + destruct (Hts _ _ Hl Hne) as [_ ?]. done.
Qed.

Lemma tracking_retired_by_timeout e p tid d a s :
  tracking e p tid (SendTimeout d e a p) s →
  retired e p (set_pendingRequests (delete e (pendingRequests s))
                 (set_timers (delete tid (timers s)) s)).
Proof.
  intros [Hp Ht Hid He Hpr Ho Hts Hk Hv].
  split; simpl; try done.
  - apply lookup_delete_eq.
  - intros e' p' [Hne Hl]%lookup_delete_Some. eauto.
  - intros id d' e' a' p' [Hne Hl]%lookup_delete_Some ->.
    destruct (Hts _ _ Hl) as [_ ?]; done.
Qed.

Lemma tracking_retired_by_disconnect cfg e p tid d a s :
  tracking e p tid (SendTimeout d e a p) s →
  retired e p (step cfg s CallDisconnect).1
  ∧ Forall (fun o => ¬ settles p o) (step cfg s CallDisconnect).2.
Proof.
  intros [Hp Ht Hid He Hpr Ho Hts Hk Hv].
  assert (∀ id d' e' a' p', timers s !! id = Some (SendTimeout d' e' a' p') →
            p' = p → e' = e) as Htm.
  { intros id d' e' a' p' Hl ->. destruct (decide (id = tid)) as [->|Hne].
    - rewrite Ht in Hl. by simplify_eq.
    - destruct (Hts _ _ Hl Hne) as [_ ?]. done. }
  cbn [step]. unfold disconnect.
  destruct (ws s); simpl; (split; [split; simpl; try done|repeat constructor; simpl; auto]).
Qed.

Lemma deletePending_num e (m : gmap N nat) :
  deletePending (JNum (Z.of_N e)) m = delete e m.
Proof.
  simpl. rewrite N2Z.id. destruct (0 <=? Z.of_N e)%Z eqn:E; [done|].
  apply Z.leb_gt in E. lia.
Qed.

Lemma response_settles cfg e p tid t s sk payload :
  tracking e p tid t s → is_Some (sockets s !! sk) →
  echo payload = JNum (Z.of_N e) →
  step cfg s (WsMessage sk (Parsed payload))
  = (set_pendingRequests (delete e (pendingRequests s)) s,
     [if decide (status payload = JStr (lit "ok"))
      then Resolve p (data payload)
      else Reject p (ApiFailed (if truthy (msg payload) then msg payload
                                else JStr unknownError))]).
Proof.
  intros [Hp _ _ _ _ _ _ _ _] [k Hk] He. cbn [step]. rewrite Hk.
  unfold handleWebSocketMessage. rewrite He.
  rewrite decide_False by done.
  by rewrite getPending_num, Hp, deletePending_num.
Qed.

(** *** Runs, one step at a time *)

Lemma run_step cfg s i ins s' o :
  step cfg s i = (s', o) →
  run cfg s (i :: ins) = ((run cfg s' ins).1, o ++ (run cfg s' ins).2).
Proof. intros H. by rewrite run_cons, H. Qed.

Lemma forallb_app_true {A} (f : A → bool) l1 l2 :
  forallb f l1 = true → forallb f l2 = true → forallb f (l1 ++ l2) = true.
Proof. intros H1 H2. by rewrite forallb_app, H1, H2. Qed.

Lemma created_app os1 os2 : created (os1 ++ os2) = created os1 ++ created os2.
Proof. apply omap_app. Qed.

Lemma scheduled_app os1 os2 : scheduled (os1 ++ os2) = scheduled os1 ++ scheduled os2.
Proof. apply omap_app. Qed.

(** *** A disconnected adapter *)

Lemma disconnected_step cfg s i :
  connected s = false → connects i = false →
  connected (step cfg s i).1 = false
  ∧ echoCounter (step cfg s i).1 = echoCounter s
  ∧ pendingRequests (step cfg s i).1 ⊆ pendingRequests s
  ∧ forallb (fun o => negb (outgoing o)) (step cfg s i).2 = true.
Proof.
  intros Hc Hi.
  destruct i as [|action thr| |sock|sock raw|sock|sock err|id|q|payload];
    try done; unfold_step; simpl; rewrite ?Hc; simpl;
    repeat (case_match; simplify_eq/=); repeat split; try done;
    try apply delete_subseteq; try apply map_empty_subseteq.
  all: destruct (echo _); simpl; try done; case_match; try done; apply delete_subseteq.
Qed.

(** *** An adapter without sockets *)

Lemma socketless_step cfg s i :
  type cfg = TypeHttp → socketless s →
  socketless (step cfg s i).1
  ∧ forallb (fun o => negb (socketBound o)) (step cfg s i).2 = true.
Proof.
  intros Hh (Hw & Hk & Ht & Hp). unfold socketless.
  destruct i as [|action thr| |sock|sock raw|sock|sock err|id|q|payload];
    unfold_step; simpl; rewrite ?Hh, ?Hw, ?Hk, ?Ht, ?Hp; simpl;
    rewrite ?lookup_empty; simpl;
    repeat (case_match; simplify_eq/=); rewrite ?Hw, ?Hk, ?Ht, ?Hp;
    repeat split; try done.
  all: by rewrite delete_insert_eq, delete_empty.
Qed.

Lemma inert_step cfg s i :
  type cfg = TypeOther → inert s →
  inert (step cfg s i).1
  ∧ forallb (fun o => negb (starting o || outgoing o)) (step cfg s i).2 = true.
Proof.
  intros Hh (Hc & Hw & Hk & Hv & Ht & Hp). unfold inert.
  destruct i as [|action thr| |sock|sock raw|sock|sock err|id|q|payload];
    unfold_step; simpl; rewrite ?Hh, ?Hc, ?Hw, ?Hk, ?Hv, ?Ht, ?Hp; simpl;
    rewrite ?lookup_empty; simpl;
    repeat (case_match; simplify_eq/=); rewrite ?Hc, ?Hw, ?Hk, ?Hv, ?Ht, ?Hp;
    repeat split; try done.
  all: by apply elem_of_nil in H.
Qed.

(** *** Ids in the table *)

Lemma drawn_before_step cfg s i : drawn_before s → drawn_before (step cfg s i).1.
Proof.
  intros Hb.
  pose proof (postIncrement_cases (echoCounter s)) as Hinc.
  destruct i as [|action thr| |sock|sock raw|sock|sock err|id|q|payload];
    unfold_step; simpl; repeat (case_match; simplify_eq/=); try done;
    intros e' p'; simpl; intros Hl; inv_lookups;
    try (apply Hb in Hl); try lia.
  all: try by rewrite lookup_empty in Hl.
  all: try (destruct Hinc as [?|[? ->]]; lia).
Qed.

Lemma drawn_before_reachable cfg s : reachable cfg s → drawn_before s.
Proof.
  intros [ins ->]. assert (drawn_before constructor) as H0.
  { intros e p. simpl. by rewrite lookup_empty. }
  revert H0. generalize constructor.
  induction ins as [|i ins IH]; intros s Hs; [done|].
  rewrite run_cons. simpl. by apply IH, drawn_before_step.
Qed.

(** *** One reconnection attempt that fails *)

Lemma failed_attempt cfg s tid e :
  connected s = false → timers s !! tid = Some (reconnectTimer cfg) →
  nextTimer s = S tid →
  ∃ s',
    run cfg s [TimerFires tid; WsError (length (sockets s)) e]
    = (s', [LogInfo (lit "connecting"); NewWebSocket (length (sockets s));
            LogError (lit "socket error") (Thrown e);
            Reject (nextPromise s) (Thrown e);
            LogError (lit "reconnect failed") (Thrown e);
            LogInfo (lit "reconnect scheduled");
            SetTimeout (S tid) (reconnectTimer cfg)])
    ∧ connected s' = false
    ∧ timers s' !! S tid = Some (reconnectTimer cfg)
    ∧ nextTimer s' = S (S tid)
    ∧ length (sockets s') = S (length (sockets s))
    ∧ pendingRequests s' = pendingRequests s
    ∧ echoCounter s' = echoCounter s.
Proof.
  intros Hc Ht Hn.
  set (s1 := set_ws (Some (length (sockets s)))
               (set_sockets
                  (sockets s ++ [{| connectPromise := nextPromise s;
                                    settled := false; retry := true |}])
                  (set_nextPromise (S (nextPromise s))
                     (set_timers (delete tid (timers s)) s)))).
  assert (step cfg s (TimerFires tid)
          = (s1, [LogInfo (lit "connecting"); NewWebSocket (length (sockets s))]))
    as H1.
  { cbn [step]. rewrite Ht. simpl. by rewrite Hc. }
  set (s2 := set_nextTimer (S (S tid))
               (set_timers (<[S tid := reconnectTimer cfg]> (timers s1))
                  (settle (length (sockets s)) s1))).
  assert (step cfg s1 (WsError (length (sockets s)) e)
          = (s2, [LogError (lit "socket error") (Thrown e);
                  Reject (nextPromise s) (Thrown e);
                  LogError (lit "reconnect failed") (Thrown e);
                  LogInfo (lit "reconnect scheduled");
                  SetTimeout (S tid) (reconnectTimer cfg)])) as H2.
  { cbn [step]. unfold onError. subst s1. simpl.
    rewrite lookup_app_r by done. rewrite Nat.sub_diag. simpl.
    rewrite Hc. simpl. unfold reconnect, setTimeout. simpl. by rewrite Hn. }
  exists s2. rewrite (run_step _ _ _ _ _ _ H1), (run_step _ _ _ _ _ _ H2).
  split; [done|]. subst s2 s1. simpl. rewrite Hc.
  repeat split; try done.
  - apply lookup_insert_eq.
  - by rewrite length_alter, length_app, Nat.add_comm.
Qed.

(** *** Rounds of reconnection attempts that fail *)

Lemma timers_fire cfg : ∀ m s T,
  connected s = false →
  (∀ i, i < m → timers s !! (T + i) = Some (reconnectTimer cfg)) →
  ∃ new,
    let r := run cfg s (TimerFires <$> seq T m) in
    connected r.1 = false
    ∧ nextTimer r.1 = nextTimer s
    ∧ sockets r.1 = sockets s ++ new
    ∧ length new = m
    ∧ Forall (fun k => settled k = false ∧ retry k = true) new
    ∧ created r.2 = seq (length (sockets s)) m
    ∧ scheduled r.2 = []
    ∧ pendingRequests r.1 = pendingRequests s
    ∧ echoCounter r.1 = echoCounter s.
Proof.
  induction m as [|m IH]; intros s T Hc Ht.
  - exists []. simpl. by rewrite app_nil_r.
  - set (k0 := {| connectPromise := nextPromise s; settled := false; retry := true |}).
    set (s1 := set_ws (Some (length (sockets s)))
                 (set_sockets (sockets s ++ [k0])
                    (set_nextPromise (S (nextPromise s))
                       (set_timers (delete T (timers s)) s)))).
    assert (step cfg s (TimerFires T)
            = (s1, [LogInfo (lit "connecting"); NewWebSocket (length (sockets s))]))
      as H1.
    { cbn [step]. specialize (Ht 0 ltac:(lia)). rewrite Nat.add_0_r in Ht.
      rewrite Ht. simpl. by rewrite Hc. }
    destruct (IH s1 (S T)) as (new & H); [done| |].
    { intros i Hi. subst s1. simpl. rewrite lookup_delete_ne by lia.
      rewrite <- Nat.add_succ_r. apply Ht. lia. }
    cbv zeta in H. destruct H as (Hc' & Hn' & Hs' & Hl' & Hf' & Hcr' & Hsc' & Hp' & He').
    exists (k0 :: new). cbv zeta. cbn [seq fmap list_fmap].
    rewrite (run_step _ _ _ _ _ _ H1). cbn [fst snd].
    split; [done|]. split; [done|]. split.
    { rewrite Hs'. subst s1. simpl. by rewrite <- app_assoc. }
    split; [simpl; by rewrite Hl'|]. split; [by constructor|].
    rewrite created_app, scheduled_app, Hcr', Hsc'. subst s1. simpl.
    rewrite length_app. simpl. rewrite Nat.add_1_r. done.
Qed.

Lemma sockets_fail cfg err : ∀ m s K,
  connected s = false →
  (∀ i, i < m → ∃ k, sockets s !! (K + i) = Some k
                     ∧ settled k = false ∧ retry k = true) →
  let r := run cfg s (flat_map (fun k => [WsError k (err k); WsClose k]) (seq K m)) in
  connected r.1 = false
  ∧ nextTimer r.1 = nextTimer s + 2 * m
  ∧ (∀ i, i < 2 * m → timers r.1 !! (nextTimer s + i) = Some (reconnectTimer cfg))
  ∧ (∀ id, id < nextTimer s → timers r.1 !! id = timers s !! id)
  ∧ length (sockets r.1) = length (sockets s)
  ∧ created r.2 = []
  ∧ scheduled r.2
    = (fun id => (id, reconnectTimer cfg)) <$> seq (nextTimer s) (2 * m)
  ∧ pendingRequests r.1 = pendingRequests s
  ∧ echoCounter r.1 = echoCounter s.
Proof.
  induction m as [|m IH]; intros s K Hc Hk.
  - simpl. rewrite Nat.add_0_r. repeat split; try done. intros i Hi. lia.
  - destruct (Hk 0 ltac:(lia)) as (k & Hk0 & Hset & Hret).
    rewrite Nat.add_0_r in Hk0.
    set (s1 := set_nextTimer (S (nextTimer s))
                 (set_timers (<[nextTimer s := reconnectTimer cfg]> (timers s))
                    (settle K s))).
    assert (step cfg s (WsError K (err K))
            = (s1, [LogError (lit "socket error") (Thrown (err K));
                    Reject (connectPromise k) (Thrown (err K));
                    LogError (lit "reconnect failed") (Thrown (err K));
                    LogInfo (lit "reconnect scheduled");
                    SetTimeout (nextTimer s) (reconnectTimer cfg)])) as H1.
    { cbn [step]. unfold onError. rewrite Hk0, Hc, Hset, Hret. reflexivity. }
    set (s2 := set_nextTimer (S (S (nextTimer s)))
                 (set_timers (<[S (nextTimer s) := reconnectTimer cfg]> (timers s1))
                    (set_connected false s1))).
    assert (step cfg s1 (WsClose K)
            = (s2, [LogWarn (lit "closed"); LogInfo (lit "reconnect scheduled");
                    SetTimeout (S (nextTimer s)) (reconnectTimer cfg)])) as H2.
    { cbn [step]. unfold onClose. subst s1. simpl.
      rewrite list_lookup_alter, decide_True, Hk0 by done. reflexivity. }
    cbv zeta. cbn [seq flat_map app].
    rewrite (run_step _ _ _ _ _ _ H1), (run_step _ _ _ _ _ _ H2). cbn [fst snd].
    destruct (IH s2 (S K)) as (Hc' & Hn' & Ht' & Hold' & Hl' & Hcr' & Hsc' & Hp' & He');
      [done| |].
    { intros i Hi. destruct (Hk (S i) ltac:(lia)) as (k' & Hk' & ?).
      exists k'. split; [|done]. subst s2 s1. simpl.
      rewrite list_lookup_alter_ne by lia.
      by rewrite <- Nat.add_succ_r. }
    assert (nextTimer s2 = S (S (nextTimer s))) as Hn2 by done.
    rewrite Hn2 in *.
    split; [done|]. split; [lia|]. split; [|split; [|split; [|split; [|split]]]].
    + intros i Hi. destruct (decide (i < 2)) as [Hlt|Hge].
      * rewrite Hold' by lia. subst s2 s1. simpl.
        destruct i as [|[|i]]; [| |lia].
        -- rewrite Nat.add_0_r, lookup_insert_ne by lia. apply lookup_insert_eq.
        -- rewrite Nat.add_1_r. apply lookup_insert_eq.
      * replace (nextTimer s + i) with (S (S (nextTimer s)) + (i - 2)) by lia.
        apply Ht'. lia.
    + intros id Hid. rewrite Hold' by lia. subst s2 s1. simpl.
      by rewrite !lookup_insert_ne by lia.
    + rewrite Hl'. subst s2 s1. simpl. by rewrite length_alter.
    + rewrite !created_app, Hcr'. done.
    + rewrite !scheduled_app, Hsc'. simpl.
      replace (m + S (m + 0)) with (S (2 * m)) by lia. simpl. done.
    + split; [by rewrite Hp'|by rewrite He'].
Qed.

Lemma failed_round cfg err m s T :
  connected s = false →
  nextTimer s = T + m →
  (∀ i, i < m → timers s !! (T + i) = Some (reconnectTimer cfg)) →
  let r := run cfg s (failedRound err T (length (sockets s)) m) in
  connected r.1 = false
  ∧ nextTimer r.1 = (T + m) + 2 * m
  ∧ (∀ i, i < 2 * m → timers r.1 !! (T + m + i) = Some (reconnectTimer cfg))
  ∧ length (sockets r.1) = length (sockets s) + m
  ∧ created r.2 = seq (length (sockets s)) m
  ∧ scheduled r.2 = (fun id => (id, reconnectTimer cfg)) <$> seq (T + m) (2 * m)
  ∧ pendingRequests r.1 = pendingRequests s
  ∧ echoCounter r.1 = echoCounter s.
Proof.
  intros Hc Hn Ht. cbv zeta. unfold failedRound. rewrite run_app.
  destruct (timers_fire cfg m s T Hc Ht) as (new & H). cbv zeta in H.
  destruct H as (Hc1 & Hn1 & Hs1 & Hl1 & Hf1 & Hcr1 & Hsc1 & Hp1 & He1).
  set (r1 := run cfg s (TimerFires <$> seq T m)) in *.
  destruct r1 as [s1 o1]. cbn [fst snd] in *.
  pose proof (sockets_fail cfg err m s1 (length (sockets s)) Hc1) as H2.
  cbv zeta in H2.
  destruct H2 as (Hc2 & Hn2 & Ht2 & _ & Hl2 & Hcr2 & Hsc2 & Hp2 & He2).
  { intros i Hi. rewrite Hs1, lookup_app_r by lia.
    replace (length (sockets s) + i - length (sockets s)) with i by lia.
    destruct (lookup_lt_is_Some_2 new i) as [k Hk]; [lia|].
    exists k. split; [done|]. eapply Forall_lookup_1 in Hf1; eauto. }
  set (r2 := run cfg s1 _) in *. destruct r2 as [s2 o2]. cbn [fst snd] in *.
  rewrite Hn1, Hn in *.
  split; [done|]. split; [done|]. split; [done|].
  split; [by rewrite Hl2, Hs1, length_app, Hl1|].
  rewrite created_app, scheduled_app, Hcr1, Hcr2, Hsc1, Hsc2, app_nil_r.
  split; [done|]. split; [done|]. split; congruence.
Qed.

Lemma failed_rounds cfg err : ∀ n m s T,
  connected s = false →
  nextTimer s = T + m →
  (∀ i, i < m → timers s !! (T + i) = Some (reconnectTimer cfg)) →
  let r := run cfg s (failedRounds err n T (length (sockets s)) m) in
  connected r.1 = false
  ∧ nextTimer r.1 = T + m * (2 ^ n - 1) + m * 2 ^ n
  ∧ (∀ i, i < m * 2 ^ n →
       timers r.1 !! (T + m * (2 ^ n - 1) + i) = Some (reconnectTimer cfg))
  ∧ created r.2 = seq (length (sockets s)) (m * (2 ^ n - 1))
  ∧ scheduled r.2
    = (fun id => (id, reconnectTimer cfg)) <$> seq (T + m) (2 * (m * (2 ^ n - 1)))
  ∧ pendingRequests r.1 = pendingRequests s
  ∧ echoCounter r.1 = echoCounter s.
Proof.
  induction n as [|n IH]; intros m s T Hc Hn Ht.
  - simpl. rewrite Nat.mul_0_r, Nat.mul_1_r, !Nat.add_0_r. done.
  - cbv zeta. cbn [failedRounds]. rewrite run_app.
    pose proof (failed_round cfg err m s T Hc Hn Ht) as H1. cbv zeta in H1.
    destruct H1 as (Hc1 & Hn1 & Ht1 & Hl1 & Hcr1 & Hsc1 & Hp1 & He1).
    set (r1 := run cfg s (failedRound err T (length (sockets s)) m)) in *.
    destruct r1 as [s1 o1]. cbn [fst snd] in *.
    rewrite <- Hl1.
    pose proof (IH (2 * m) s1 (T + m) Hc1 Hn1 Ht1) as H2. cbv zeta in H2.
    destruct H2 as (Hc2 & Hn2 & Ht2 & Hcr2 & Hsc2 & Hp2 & He2).
    set (r2 := run cfg s1 _) in *. destruct r2 as [s2 o2]. cbn [fst snd] in *.
    assert (1 ≤ 2 ^ n) as Hpos by (apply Nat.neq_0_lt_0, Nat.pow_nonzero; lia).
    rewrite Nat.pow_succ_r'. set (p := 2 ^ n) in *.
    assert (m * (2 * p - 1) = m + 2 * m * (p - 1)) as Hsum.
    { destruct p as [|q]; [lia|]. replace (2 * S q - 1) with (2 * q + 1) by lia.
      replace (S q - 1) with q by lia. lia. }
    split; [done|]. split; [rewrite Hn2; lia|]. split.
    { intros i Hi. replace (T + m * (2 * p - 1) + i)
        with (T + m + 2 * m * (p - 1) + i) by lia.
      apply Ht2. lia. }
    rewrite created_app, scheduled_app, Hcr1, Hcr2, Hsc1, Hsc2, Hl1.
    rewrite <- seq_app, <- fmap_app.
    replace (T + m + 2 * m) with (T + m + 2 * m) by done.
    rewrite <- seq_app.
    split; [f_equal; lia|]. split; [do 2 f_equal; lia|]. split; congruence.
Qed.

End AdapterFacts.

(** ** Properties of the adapter *)

Module AdapterSpec.
Import Adapter AdapterFacts AdapterScenario.

(** *** Correlation ids (C6) *)


Example reconnectScenario_ids :
  drawn (run wsConfig constructor reconnectScenario).2 = [0%N; 1%N].
Proof. vm_compute. reflexivity. Qed.


(** *** Timeout and unmatched responses (C5) *)

(** C5.  Take any reachable state with an open connection and send a call
    whose frame goes out: it draws id [e] for promise [p] and schedules
    timer [tid].  If, until that timer runs, no response frame carrying [e]
    arrives (and [disconnect()] does not empty the table), then nothing
    settles [p] meanwhile, the timer rejects [p] with the timeout error and
    removes the entry of [e]; whatever happens later, a response frame
    carrying [e] is dropped: no output, state unchanged.  The same holds in
    every state for every response frame whose id has no pending entry. *)
Theorem timeout_rejects_and_unmatched_response_is_dropped
    (cfg : Config) (s0 : Adapter) (sock : nat) (action : jsstring)
    (evs later : list Input) :
  let e := echoCounter s0 in
  let p := nextPromise s0 in
  let tid := nextTimer s0 in
  let sent := step cfg s0 (CallSend action None) in
  let waited := run cfg sent.1 evs in
  let fired := step cfg waited.1 (TimerFires tid) in
  let after := (run cfg fired.1 later).1 in
  reachable cfg s0 →
  connected s0 = true → ws s0 = Some sock → (e < maxExact)%N →
  Forall (quiet e tid) evs →
  sent.2 = [DrawEcho p e; WsSend sock action e;
            SetTimeout tid (sendTimer cfg action s0)]
  ∧ pendingRequests sent.1 !! e = Some p
  ∧ Forall (fun o => ¬ settles p o) waited.2
  ∧ fired.2 = [Reject p (ApiTimeout action)]
  ∧ pendingRequests fired.1 = delete e (pendingRequests waited.1)
  ∧ (∀ sk payload, echo payload = JNum (Z.of_N e) →
       step cfg after (WsMessage sk (Parsed payload)) = (after, []))
  ∧ (∀ s sk payload,
       echo payload ≠ JUndefined →
       getPending (echo payload) (pendingRequests s) = None →
       step cfg s (WsMessage sk (Parsed payload)) = (s, [])).
Proof.
  intros e p tid sent waited fired after Hr Hc Hw Hlt Hq.
  destruct (send_tracking cfg s0 action sock (reachable_wf _ _ Hr) Hc Hw Hlt)
    as [Ho Htr].
  destruct (tracking_run cfg e p tid _ evs _ Htr Hq) as [Htr2 Hno].
  pose proof (timer_rejects cfg _ _ _ _ _ _ Htr2) as Hf.
  split; [done|]. split; [by destruct Htr|]. split; [done|].
  subst after fired waited sent.
  rewrite Hf. cbn [fst snd]. split; [done|]. split; [done|]. split.
  - intros sk payload He.
    match goal with |- step _ ?a _ = _ => assert (gone e a) as [Hg _] end.
    { apply gone_run. split; simpl; [by rewrite lookup_delete_eq|by destruct Htr2]. }
    apply unmatched_dropped; rewrite He; [done|]. by rewrite getPending_num.
  - intros s sk payload. apply unmatched_dropped.
Qed.

Lemma timeout_rejects_and_unmatched_response_is_dropped_witness :
  (step wsConfig
     (run wsConfig (step wsConfig opened (CallSend (lit "get_status") None)).1
        waiting).1
     (TimerFires 0)).2
  = [Reject 1 (ApiTimeout (lit "get_status"))].
Proof.
  assert (reachable wsConfig opened) as Hr by (by exists [CallConnect; WsOpen 0]).
  assert (Forall (quiet 0%N 0) waiting) as Hq
    by (repeat constructor; simpl; try lia; discriminate).
  pose proof (timeout_rejects_and_unmatched_response_is_dropped
                wsConfig opened 0 (lit "get_status") waiting
                [CallSend (lit "get_status") None]
                Hr eq_refl eq_refl eq_refl Hq) as H.
  exact (proj1 (proj2 (proj2 (proj2 H)))).
Defined.

(** When [disconnect()] empties the table before the timer runs, the
    timer finds no entry and does nothing: the call stays unsettled. *)
Example disconnect_abandons_pending_call :
  (step wsConfig
     (run wsConfig opened [CallSend (lit "get_status") None; CallDisconnect]).1
     (TimerFires 0)).2 = [].
Proof. vm_compute. reflexivity. Qed.

(** *** Unexpected closure (C3) *)

(** C3, as stated, fails: after the closure the adapter is disconnected
    and the call drawn with id 0 is still in the table, and it still is
    once the adapter has reconnected. *)
Lemma closure_keeps_pending_call :
  connected closedWithPending = false
  ∧ pendingRequests closedWithPending !! 0%N = Some 1
  ∧ connected reconnectedWithPending = true
  ∧ pendingRequests reconnectedWithPending !! 0%N = Some 1.
Proof. vm_compute. auto. Qed.

(** C3, amended.  When a socket of the adapter closes, the adapter becomes
    disconnected and schedules one retry after the fixed delay
    [reconnectDelay || 5000]; it rejects nothing and leaves the table of
    pending calls as it is.  The retry, run while still disconnected,
    creates a new socket, and when that socket opens the adapter is connected
    again, with the same table. *)
Theorem closure_schedules_retry_and_keeps_pending
    (cfg : Config) (s : Adapter) (sock : nat) (k : Socket) :
  let closed := step cfg s (WsClose sock) in
  let retried := step cfg closed.1 (TimerFires (nextTimer s)) in
  let reopened := step cfg retried.1 (WsOpen (length (sockets s))) in
  sockets s !! sock = Some k →
  connected closed.1 = false
  ∧ pendingRequests closed.1 = pendingRequests s
  ∧ echoCounter closed.1 = echoCounter s
  ∧ timers closed.1 = <[nextTimer s := reconnectTimer cfg]> (timers s)
  ∧ closed.2 = [LogWarn (lit "closed"); LogInfo (lit "reconnect scheduled");
                SetTimeout (nextTimer s) (reconnectTimer cfg)]
  ∧ ws retried.1 = Some (length (sockets s))
  ∧ retried.2 = [LogInfo (lit "connecting"); NewWebSocket (length (sockets s))]
  ∧ pendingRequests retried.1 = pendingRequests s
  ∧ connected reopened.1 = true
  ∧ pendingRequests reopened.1 = pendingRequests s
  ∧ reopened.2 = [LogInfo (lit "open"); Resolve (nextPromise s) JUndefined].
Proof.
  intros closed retried reopened Hk.
  assert (closed = (set_nextTimer (S (nextTimer s))
                      (set_timers (<[nextTimer s := reconnectTimer cfg]> (timers s))
                         (set_connected false s)),
                    [LogWarn (lit "closed"); LogInfo (lit "reconnect scheduled");
                     SetTimeout (nextTimer s) (reconnectTimer cfg)])) as Hc.
  { subst closed. simpl. unfold onClose. by rewrite Hk. }
  set (s1 := set_nextTimer (S (nextTimer s))
               (set_timers (<[nextTimer s := reconnectTimer cfg]> (timers s))
                  (set_connected false s))) in Hc.
  assert (retried = connectWebSocket true
                      (set_timers (delete (nextTimer s) (timers s1)) s1)) as Hr.
  { subst retried. rewrite Hc. cbn [fst step]. subst s1. cbn [timers set_nextTimer set_timers].
    by rewrite lookup_insert_eq. }
  assert (reopened
          = (settle (length (sockets s)) (set_connected true retried.1),
             [LogInfo (lit "open"); Resolve (nextPromise s) JUndefined])) as Ho.
  { subst reopened. cbn [step]. unfold onOpen. rewrite Hr. simpl.
    rewrite lookup_app_r by done. by rewrite Nat.sub_diag. }
  rewrite Ho, Hr, Hc. simpl. done.
Qed.

Lemma closure_schedules_retry_and_keeps_pending_witness :
  sockets pendingCall !! 0
  = Some {| connectPromise := 0; settled := true; retry := false |}
  ∧ connected (step wsConfig pendingCall (WsClose 0)).1 = false
  ∧ pendingRequests
      (step wsConfig
         (step wsConfig (step wsConfig pendingCall (WsClose 0)).1
            (TimerFires (nextTimer pendingCall))).1
         (WsOpen (length (sockets pendingCall)))).1
    = pendingRequests pendingCall.
Proof.
  split; [reflexivity|].
  pose proof (closure_schedules_retry_and_keeps_pending wsConfig pendingCall
                0 {| connectPromise := 0; settled := true; retry := false |}
                eq_refl)
    as (H1 & _ & _ & _ & _ & _ & _ & _ & _ & H10 & _).
  split; [exact H1|exact H10].
Defined.

(** *** A call is settled once *)

(** X1.  Take any reachable state with an open connection and send a call
    whose frame goes out, with id [e] and promise [p].  If, until then, no
    response frame carrying [e] has arrived, its timer has not run and
    [disconnect()] has not been called, then a response frame carrying [e]
    settles [p]: with [payload.data] when [payload.status] is 'ok', with the
    error made from [payload.msg] otherwise; and it removes the entry of [e].
    After that, whatever happens (the timer of the call, the same response
    again, more calls, reconnections), nothing settles [p] a second time.
    The same holds once the timer has rejected [p]. *)
Theorem call_is_settled_exactly_once
    (cfg : Config) (s0 : Adapter) (sock : nat) (action : jsstring)
    (evs later : list Input) (sk : nat) (payload : Payload) :
  let e := echoCounter s0 in
  let p := nextPromise s0 in
  let tid := nextTimer s0 in
  let sent := step cfg s0 (CallSend action None) in
  let waited := run cfg sent.1 evs in
  let answered := step cfg waited.1 (WsMessage sk (Parsed payload)) in
  let fired := step cfg waited.1 (TimerFires tid) in
  reachable cfg s0 →
  connected s0 = true → ws s0 = Some sock → (e < maxExact)%N →
  Forall (quiet e tid) evs →
  is_Some (sockets waited.1 !! sk) →
  echo payload = JNum (Z.of_N e) →
  answered.2
  = [if decide (status payload = JStr (lit "ok"))
     then Resolve p (data payload)
     else Reject p (ApiFailed (if truthy (msg payload) then msg payload
                               else JStr unknownError))]
  ∧ pendingRequests answered.1 = delete e (pendingRequests waited.1)
  ∧ Forall (fun o => ¬ settles p o) (run cfg answered.1 later).2
  ∧ Forall (fun o => ¬ settles p o) (run cfg fired.1 later).2.
Proof.
  intros e p tid sent waited answered fired Hr Hc Hw Hlt Hq Hsk He.
  destruct (send_tracking cfg s0 action sock (reachable_wf _ _ Hr) Hc Hw Hlt)
    as [Ho Htr].
  destruct (tracking_run cfg e p tid _ evs _ Htr Hq) as [Htr2 Hno].
  fold sent waited in Htr2.
  pose proof (response_settles cfg _ _ _ _ _ sk payload Htr2 Hsk He) as Ha.
  pose proof (timer_rejects cfg _ _ _ _ _ _ Htr2) as Hf.
  fold answered in Ha. fold fired in Hf.
  rewrite Ha, Hf. cbn [fst snd].
  split; [done|]. split; [done|]. split.
  - eapply retired_run, tracking_retired_by_response, Htr2.
  - eapply retired_run, tracking_retired_by_timeout, Htr2.
Qed.

Lemma call_is_settled_exactly_once_witness :
  (step wsConfig
     (run wsConfig (step wsConfig opened (CallSend (lit "get_status") None)).1
        waiting).1
     (WsMessage 1 (Parsed (response 0)))).2
  = [if decide (status (response 0) = JStr (lit "ok"))
     then Resolve (nextPromise opened) (data (response 0))
     else Reject (nextPromise opened)
            (ApiFailed (if truthy (msg (response 0)) then msg (response 0)
                        else JStr unknownError))]
  ∧ Forall (fun o => ¬ settles (nextPromise opened) o)
      (run wsConfig
         (step wsConfig
            (run wsConfig (step wsConfig opened (CallSend (lit "get_status") None)).1
               waiting).1
            (WsMessage 1 (Parsed (response 0)))).1
         [TimerFires 0; WsMessage 1 (Parsed (response 0))]).2.
Proof.
  assert (reachable wsConfig opened) as Hr by (by exists [CallConnect; WsOpen 0]).
  assert (Forall (quiet 0%N 0) waiting) as Hq
    by (repeat constructor; simpl; try lia; discriminate).
  assert (is_Some (sockets (run wsConfig
                              (step wsConfig opened
                                 (CallSend (lit "get_status") None)).1
                              waiting).1 !! 1)) as Hs
    by (vm_compute; eauto).
  pose proof (call_is_settled_exactly_once wsConfig opened 0 (lit "get_status")
                waiting [TimerFires 0; WsMessage 1 (Parsed (response 0))]
                1 (response 0) Hr eq_refl eq_refl eq_refl Hq Hs eq_refl)
    as (H1 & _ & H3 & _).
  split; [exact H1|exact H3].
Defined.

Example answered_call :
  (run wsConfig
     (run wsConfig (step wsConfig opened (CallSend (lit "get_status") None)).1
        waiting).1
     [WsMessage 1 (Parsed (response 0)); TimerFires 0;
      WsMessage 1 (Parsed (response 0))]).2
  = [Resolve 1 JNull].
Proof. vm_compute. reflexivity. Qed.

(** X2.  A call that is pending when [disconnect()] is called is never
    settled: [disconnect()] empties the table without rejecting anything, and
    afterwards neither the timer of the call nor a response carrying its id
    nor anything else settles its promise.  The caller of [send] is left
    waiting. *)
Theorem disconnect_leaves_calls_unsettled
    (cfg : Config) (s0 : Adapter) (sock : nat) (action : jsstring)
    (evs later : list Input) :
  let p := nextPromise s0 in
  let sent := step cfg s0 (CallSend action None) in
  let waited := run cfg sent.1 evs in
  let left := step cfg waited.1 CallDisconnect in
  reachable cfg s0 →
  connected s0 = true → ws s0 = Some sock → (echoCounter s0 < maxExact)%N →
  Forall (quiet (echoCounter s0) (nextTimer s0)) evs →
  pendingRequests left.1 = ∅
  ∧ Forall (fun o => ¬ settles p o) (sent.2 ++ waited.2 ++ left.2)
  ∧ Forall (fun o => ¬ settles p o) (run cfg left.1 later).2.
Proof.
  intros p sent waited left Hr Hc Hw Hlt Hq.
  destruct (send_tracking cfg s0 action sock (reachable_wf _ _ Hr) Hc Hw Hlt)
    as [Ho Htr].
  destruct (tracking_run cfg _ p _ _ evs _ Htr Hq) as [Htr2 Hno].
  fold sent waited in Htr2, Hno.
  destruct (tracking_retired_by_disconnect cfg _ _ _ _ _ _ Htr2) as [Hret Hnl].
  fold left in Hret, Hnl.
  split; [|split].
  - subst left. cbn [step]. unfold disconnect. by destruct (ws waited.1).
  - fold sent in Ho. rewrite Ho. rewrite !Forall_app. split; [|by split].
    repeat constructor; simpl; auto.
  - by eapply retired_run.
Qed.

Lemma disconnect_leaves_calls_unsettled_witness :
  Forall (fun o => ¬ settles (nextPromise opened) o)
    (run wsConfig
       (step wsConfig
          (run wsConfig (step wsConfig opened (CallSend (lit "get_status") None)).1
             waiting).1
          CallDisconnect).1
       [TimerFires 0; WsMessage 1 (Parsed (response 0))]).2.
Proof.
  assert (reachable wsConfig opened) as Hr by (by exists [CallConnect; WsOpen 0]).
  assert (Forall (quiet 0%N 0) waiting) as Hq
    by (repeat constructor; simpl; try lia; discriminate).
  pose proof (disconnect_leaves_calls_unsettled wsConfig opened 0 (lit "get_status")
                waiting [TimerFires 0; WsMessage 1 (Parsed (response 0))]
                Hr eq_refl eq_refl eq_refl Hq) as (_ & _ & H).
  exact H.
Defined.

(** *** While the adapter is disconnected *)

(** X3.  From a state in which the adapter is not connected, and as long
    as no socket opens and no HTTP server comes up, the adapter stays
    disconnected, draws no correlation id, writes no frame and schedules no
    call timeout; the table of pending calls only shrinks, and every [send]
    is answered with a promise rejected with the 'not connected' error, the
    state being otherwise unchanged. *)
Theorem nothing_goes_out_while_disconnected (cfg : Config) (s : Adapter)
    (ins : list Input) :
  let r := run cfg s ins in
  connected s = false →
  forallb (fun i => negb (connects i)) ins = true →
  connected r.1 = false
  ∧ echoCounter r.1 = echoCounter s
  ∧ pendingRequests r.1 ⊆ pendingRequests s
  ∧ forallb (fun o => negb (outgoing o)) r.2 = true
  ∧ (∀ action thr,
       step cfg r.1 (CallSend action thr)
       = (set_nextPromise (S (nextPromise r.1)) r.1,
          [Reject (nextPromise r.1) NotConnected])).
Proof.
  intros r Hc Hi.
  assert (connected r.1 = false
          ∧ echoCounter r.1 = echoCounter s
          ∧ pendingRequests r.1 ⊆ pendingRequests s
          ∧ forallb (fun o => negb (outgoing o)) r.2 = true) as (H1 & H2 & H3 & H4).
  { subst r. revert s Hc. induction ins as [|i ins IH]; intros s Hc; [done|].
    simpl in Hi. apply andb_prop in Hi as [Hi1 Hi2]. apply negb_true_iff in Hi1.
    rewrite run_cons. cbn [fst snd].
    destruct (disconnected_step cfg s i Hc Hi1) as (Hc1 & He1 & Hp1 & Ho1).
    destruct (IH Hi2 _ Hc1) as (Hc2 & He2 & Hp2 & Ho2).
    split; [done|]. split; [congruence|]. split; [by etrans|].
    by apply forallb_app_true. }
  repeat split; try done.
  intros action thr. cbn [step]. unfold send. simpl. by rewrite H1.
Qed.

Lemma nothing_goes_out_while_disconnected_witness :
  connected (run wsConfig constructor offline).1 = false
  ∧ forallb (fun o => negb (outgoing o)) (run wsConfig constructor offline).2 = true.
Proof.
  pose proof (nothing_goes_out_while_disconnected wsConfig constructor offline
                eq_refl eq_refl) as (H1 & _ & _ & H4 & _).
  split; [exact H1|exact H4].
Defined.

(** *** [disconnect()] and the close event *)

(** X4.  [disconnect()] on an adapter with a socket closes the socket,
    forgets it, marks the adapter disconnected and empties the table.  It
    does not take back the handlers of the socket: when the close event of
    that socket arrives, the close handler schedules a reconnection as for an
    unexpected closure, the timer creates a new socket, and when that socket
    opens the adapter is connected again. *)
Theorem disconnect_is_undone_by_the_close_event
    (cfg : Config) (s : Adapter) (sock : nat) (k : Socket) :
  let r := run cfg s [CallDisconnect; WsClose sock; TimerFires (nextTimer s);
                      WsOpen (length (sockets s))] in
  ws s = Some sock → sockets s !! sock = Some k →
  step cfg s CallDisconnect
  = (set_pendingRequests ∅ (set_connected false (set_ws None s)), [WsCloseCall sock])
  ∧ r.2 = [WsCloseCall sock;
           LogWarn (lit "closed"); LogInfo (lit "reconnect scheduled");
           SetTimeout (nextTimer s) (reconnectTimer cfg);
           LogInfo (lit "connecting"); NewWebSocket (length (sockets s));
           LogInfo (lit "open"); Resolve (nextPromise s) JUndefined]
  ∧ connected r.1 = true
  ∧ ws r.1 = Some (length (sockets s))
  ∧ pendingRequests r.1 = ∅.
Proof.
  intros r Hw Hk.
  set (s1 := set_pendingRequests ∅ (set_connected false (set_ws None s))).
  set (s2 := set_nextTimer (S (nextTimer s))
               (set_timers (<[nextTimer s := reconnectTimer cfg]> (timers s))
                  (set_connected false s1))).
  set (s3 := set_ws (Some (length (sockets s)))
               (set_sockets
                  (sockets s ++ [{| connectPromise := nextPromise s;
                                    settled := false; retry := true |}])
                  (set_nextPromise (S (nextPromise s))
                     (set_timers (delete (nextTimer s) (timers s2)) s2)))).
  assert (step cfg s CallDisconnect = (s1, [WsCloseCall sock])) as Hd.
  { cbn [step]. unfold disconnect. by rewrite Hw. }
  assert (step cfg s1 (WsClose sock)
          = (s2, [LogWarn (lit "closed"); LogInfo (lit "reconnect scheduled");
                  SetTimeout (nextTimer s) (reconnectTimer cfg)])) as Hc.
  { cbn [step]. unfold onClose. subst s1. simpl. by rewrite Hk. }
  assert (step cfg s2 (TimerFires (nextTimer s))
          = (s3, [LogInfo (lit "connecting"); NewWebSocket (length (sockets s))]))
    as Ht.
  { cbn [step]. subst s2. cbn [timers set_nextTimer set_timers].
    by rewrite lookup_insert_eq. }
  assert (step cfg s3 (WsOpen (length (sockets s)))
          = (settle (length (sockets s)) (set_connected true s3),
             [LogInfo (lit "open"); Resolve (nextPromise s) JUndefined])) as Ho.
  { cbn [step]. unfold onOpen. subst s3 s2 s1. simpl.
    rewrite lookup_app_r by done. by rewrite Nat.sub_diag. }
  split; [done|]. subst r.
  rewrite (run_step _ _ _ _ _ _ Hd), (run_step _ _ _ _ _ _ Hc),
    (run_step _ _ _ _ _ _ Ht), (run_step _ _ _ _ _ _ Ho).
  done.
Qed.

Lemma disconnect_is_undone_by_the_close_event_witness :
  connected
    (run wsConfig pendingCall
       [CallDisconnect; WsClose 0; TimerFires (nextTimer pendingCall);
        WsOpen (length (sockets pendingCall))]).1 = true.
Proof.
  pose proof (disconnect_is_undone_by_the_close_event wsConfig pendingCall 0
                {| connectPromise := 0; settled := true; retry := false |}
                eq_refl eq_refl) as (_ & _ & H & _).
  exact H.
Defined.

(** *** The adapter in HTTP mode *)

(** X5.  With the adapter type 'http', no socket is ever created:
    [this.ws] stays [null] in every run from the constructor, the table of
    pending calls is empty after every step, and no frame is written and no
    timer scheduled.  Every [send] fails: before the server is up with the
    'not connected' error, afterwards with the [TypeError] of
    [this.ws.send] on [null], after an id has been drawn. *)
Theorem http_mode_cannot_send (cfg : Config) (ins : list Input) :
  let r := run cfg constructor ins in
  type cfg = TypeHttp →
  ws r.1 = None ∧ sockets r.1 = [] ∧ pendingRequests r.1 = ∅
  ∧ forallb (fun o => negb (socketBound o)) r.2 = true
  ∧ (∀ action thr,
       (step cfg r.1 (CallSend action thr)).2
       = if connected r.1
         then [DrawEcho (nextPromise r.1) (echoCounter r.1);
               Reject (nextPromise r.1) NullSocket]
         else [Reject (nextPromise r.1) NotConnected]).
Proof.
  intros r Hh.
  assert (socketless r.1 ∧ forallb (fun o => negb (socketBound o)) r.2 = true)
    as [(Hw & Hk & Ht & Hp) Ho].
  { subst r. assert (socketless constructor) as H0 by done.
    revert H0. generalize constructor.
    induction ins as [|i ins IH]; intros s Hs; [done|].
    rewrite run_cons. cbn [fst snd].
    destruct (socketless_step cfg s i Hh Hs) as [Hs1 Ho1].
    destruct (IH _ Hs1) as [Hs2 Ho2].
    split; [done|]. by apply forallb_app_true. }
  repeat split; try done.
  intros action thr. cbn [step]. unfold send. simpl.
  destruct (connected r.1); simpl; [|done]. by rewrite Hw.
Qed.

Lemma http_mode_cannot_send_witness :
  ws (run httpConfig constructor httpSession).1 = None
  ∧ forallb (fun o => negb (socketBound o))
      (run httpConfig constructor httpSession).2 = true.
Proof.
  pose proof (http_mode_cannot_send httpConfig httpSession eq_refl)
    as (H1 & _ & _ & H4 & _).
  split; [exact H1|exact H4].
Defined.

Example httpSession_trace :
  (run httpConfig constructor httpSession).2
  = [StartHttpServer 0; LogInfo (lit "listening"); Resolve 0 JUndefined;
     EmitEvent eventPayload; DrawEcho 1 0%N; Reject 1 NullSocket].
Proof. vm_compute. reflexivity. Qed.

(** *** An adapter type that is not supported *)

(** X6.  With an adapter type other than 'ws' and 'http', every
    [connect()] is rejected with the 'unsupported type' error and starts
    nothing: in every run from the constructor the adapter stays
    disconnected, without socket or server, and every [send] is rejected with
    the 'not connected' error. *)
Theorem unsupported_type_never_connects (cfg : Config) (ins : list Input) :
  let r := run cfg constructor ins in
  type cfg = TypeOther →
  connected r.1 = false ∧ sockets r.1 = [] ∧ servers r.1 = []
  ∧ forallb (fun o => negb (starting o || outgoing o)) r.2 = true
  ∧ step cfg r.1 CallConnect
    = (set_nextPromise (S (nextPromise r.1)) r.1,
       [Reject (nextPromise r.1) UnsupportedType])
  ∧ (∀ action thr,
       step cfg r.1 (CallSend action thr)
       = (set_nextPromise (S (nextPromise r.1)) r.1,
          [Reject (nextPromise r.1) NotConnected])).
Proof.
  intros r Hh.
  assert (inert r.1 ∧ forallb (fun o => negb (starting o || outgoing o)) r.2 = true)
    as [(Hc & Hw & Hk & Hv & Ht & Hp) Ho].
  { subst r. assert (inert constructor) as H0 by done.
    revert H0. generalize constructor.
    induction ins as [|i ins IH]; intros s Hs; [done|].
    rewrite run_cons. cbn [fst snd].
    destruct (inert_step cfg s i Hh Hs) as [Hs1 Ho1].
    destruct (IH _ Hs1) as [Hs2 Ho2].
    split; [done|]. by apply forallb_app_true. }
  repeat split; try done.
  - cbn [step]. unfold connect. by rewrite Hh.
  - intros action thr. cbn [step]. unfold send. simpl. by rewrite Hc.
Qed.

Lemma unsupported_type_never_connects_witness :
  connected (run otherConfig constructor otherSession).1 = false.
Proof.
  pose proof (unsupported_type_never_connects otherConfig otherSession eq_refl)
    as (H & _).
  exact H.
Defined.

(** *** A [send] that fails *)

(** X7.  When the adapter is connected and [this.ws.send] throws (or
    [this.ws] is [null]), the call is rejected at once with that error and
    its entry is removed again: the table and the timers are as before the
    call.  The correlation id it drew is used up all the same, and the
    adapter still counts as connected. *)
Theorem failed_send_consumes_an_id (cfg : Config) (s : Adapter)
    (action : jsstring) (thr : option jsval) :
  let r := step cfg s (CallSend action thr) in
  reachable cfg s →
  connected s = true → (echoCounter s < maxExact)%N →
  ws s = None ∨ is_Some thr →
  r.2 = [DrawEcho (nextPromise s) (echoCounter s);
         Reject (nextPromise s)
           match ws s, thr with
           | Some _, Some e => Thrown e
           | _, _ => NullSocket
           end]
  ∧ echoCounter r.1 = (echoCounter s + 1)%N
  ∧ pendingRequests r.1 = pendingRequests s
  ∧ timers r.1 = timers s
  ∧ connected r.1 = true ∧ ws r.1 = ws s.
Proof.
  intros r Hr Hc Hlt Hfail. subst r.
  assert (pendingRequests s !! echoCounter s = None) as Hfresh.
  { destruct (pendingRequests s !! echoCounter s) as [p|] eqn:E; [|done].
    apply (drawn_before_reachable _ _ Hr) in E. lia. }
  cbn [step]. unfold send. simpl. rewrite Hc. simpl.
  rewrite postIncrement_lt by done.
  destruct (ws s) as [sock|] eqn:Hw, thr as [e|]; simpl.
  all: try (by destruct Hfail as [?|[? ?]]).
  all: rewrite delete_insert_id by done; repeat split; done.
Qed.

Lemma failed_send_consumes_an_id_witness :
  echoCounter (step wsConfig opened
                 (CallSend (lit "get_status") (Some (JStr (lit "EPIPE"))))).1
  = (echoCounter opened + 1)%N
  ∧ pendingRequests (step wsConfig opened
                       (CallSend (lit "get_status") (Some (JStr (lit "EPIPE"))))).1
    = pendingRequests opened.
Proof.
  assert (reachable wsConfig opened) as Hr by (by exists [CallConnect; WsOpen 0]).
  pose proof (failed_send_consumes_an_id wsConfig opened (lit "get_status")
                (Some (JStr (lit "EPIPE"))) Hr eq_refl eq_refl
                (or_intror (ex_intro _ _ eq_refl))) as (_ & H2 & H3 & _).
  split; [exact H2|exact H3].
Defined.

(** *** Reconnection attempts *)

(** X8.  While every connection fails, reconnection goes on without
    limit and without any growth of the delay, and the attempts multiply.  A
    connection that fails before it opens is reported by an error event
    followed by a close event, and each of the two schedules a reconnection
    timer with the delay [reconnectDelay || 5000].  So from a disconnected
    adapter with one reconnection timer, the last timer scheduled, the
    attempts come in rounds that double: after [n] rounds in which every
    attempt fails, [2^n - 1] sockets have been created, [2 * (2^n - 1)]
    timers have been scheduled, all with that delay, and [2^n] of them are
    still to run.  Pending calls and the counter are not touched. *)
Theorem failed_reconnections_double (cfg : Config) (s : Adapter) (tid n : nat)
    (err : nat → jsval) :
  let r := run cfg s (failedRounds err n tid (length (sockets s)) 1) in
  connected s = false →
  timers s !! tid = Some (reconnectTimer cfg) →
  nextTimer s = S tid →
  connected r.1 = false
  ∧ (∀ i, i < 2 ^ n →
       timers r.1 !! (tid + (2 ^ n - 1) + i) = Some (reconnectTimer cfg))
  ∧ nextTimer r.1 = tid + (2 ^ n - 1) + 2 ^ n
  ∧ created r.2 = seq (length (sockets s)) (2 ^ n - 1)
  ∧ scheduled r.2
    = (fun id => (id, reconnectTimer cfg)) <$> seq (S tid) (2 * (2 ^ n - 1))
  ∧ pendingRequests r.1 = pendingRequests s
  ∧ echoCounter r.1 = echoCounter s.
Proof.
  intros r Hc Ht Hn. subst r.
  pose proof (failed_rounds cfg err n 1 s tid Hc) as H. cbv zeta in H.
  destruct H as (H1 & H2 & H3 & H4 & H5 & H6 & H7).
  { rewrite Hn. lia. }
  { intros i Hi. replace (tid + i) with tid by lia. done. }
  rewrite !Nat.mul_1_l in *. rewrite Nat.add_1_r in H5.
  repeat split; done.
Qed.

Lemma failed_reconnections_double_witness :
  created
    (run wsConfig closedWithPending
       (failedRounds refusing 3 1 (length (sockets closedWithPending)) 1)).2
  = seq (length (sockets closedWithPending)) (2 ^ 3 - 1)
  ∧ scheduled
      (run wsConfig closedWithPending
         (failedRounds refusing 3 1 (length (sockets closedWithPending)) 1)).2
    = (fun id => (id, reconnectTimer wsConfig)) <$> seq 2 (2 * (2 ^ 3 - 1)).
Proof.
  assert (timers closedWithPending !! 1 = Some (reconnectTimer wsConfig)) as Ht
    by (vm_compute; reflexivity).
  pose proof (failed_reconnections_double wsConfig closedWithPending 1 3 refusing
                eq_refl Ht eq_refl) as (_ & _ & _ & H4 & H5 & _).
  split; [exact H4|exact H5].
Defined.

(** Two rounds from the closed adapter: one attempt, then two. *)
Example two_failed_rounds :
  failedRounds refusing 2 1 1 1
  = [TimerFires 1; WsError 1 (JStr (lit "refused")); WsClose 1;
     TimerFires 2; TimerFires 3;
     WsError 2 (JStr (lit "refused")); WsClose 2;
     WsError 3 (JStr (lit "refused")); WsClose 3]
  ∧ length (sockets closedWithPending) = 1.
Proof. split; reflexivity. Qed.

(** X9.  When a reconnection attempt fails and the socket reports the
    failure by an error event followed by a close event, both handlers call
    [reconnect()]: the rejection of the attempt does, and the close handler
    does again.  One failed attempt leaves two reconnection timers
    scheduled. *)
Theorem failure_with_close_schedules_two_retries (cfg : Config) (s : Adapter)
    (tid : nat) (e : jsval) :
  let sock := length (sockets s) in
  let r := run cfg s [TimerFires tid; WsError sock e; WsClose sock] in
  connected s = false →
  timers s !! tid = Some (reconnectTimer cfg) →
  nextTimer s = S tid →
  created r.2 = [sock]
  ∧ scheduled r.2 = [(S tid, reconnectTimer cfg); (S (S tid), reconnectTimer cfg)]
  ∧ timers r.1 !! S tid = Some (reconnectTimer cfg)
  ∧ timers r.1 !! S (S tid) = Some (reconnectTimer cfg)
  ∧ connected r.1 = false
  ∧ pendingRequests r.1 = pendingRequests s.
Proof.
  intros sock r Hc Ht Hn. subst r sock.
  set (sock := length (sockets s)).
  change [TimerFires tid; WsError sock e; WsClose sock]
    with ([TimerFires tid; WsError sock e] ++ [WsClose sock]).
  rewrite run_app.
  destruct (failed_attempt cfg s tid e Hc Ht Hn)
    as (s' & Hrun & Hc' & Ht' & Hn' & Hl' & Hp' & He').
  fold sock in Hrun. rewrite Hrun. cbn [fst snd].
  assert (is_Some (sockets s' !! sock)) as [k Hk].
  { apply lookup_lt_is_Some. subst sock. lia. }
  assert (step cfg s' (WsClose sock)
          = (set_nextTimer (S (S (S tid)))
               (set_timers (<[S (S tid) := reconnectTimer cfg]> (timers s'))
                  (set_connected false s')),
             [LogWarn (lit "closed"); LogInfo (lit "reconnect scheduled");
              SetTimeout (S (S tid)) (reconnectTimer cfg)])) as Hcl.
  { cbn [step]. unfold onClose. rewrite Hk. unfold reconnect, setTimeout. simpl.
    by rewrite Hn'. }
  rewrite (run_step _ _ _ _ _ _ Hcl). simpl.
  repeat split; try done.
  - rewrite lookup_insert_ne by lia. done.
  - apply lookup_insert_eq.
Qed.

Lemma failure_with_close_schedules_two_retries_witness :
  scheduled
    (run wsConfig closedWithPending
       [TimerFires 1;
        WsError (length (sockets closedWithPending)) (JStr (lit "refused"));
        WsClose (length (sockets closedWithPending))]).2
  = [(2, reconnectTimer wsConfig); (3, reconnectTimer wsConfig)].
Proof.
  assert (timers closedWithPending !! 1 = Some (reconnectTimer wsConfig)) as Ht
    by (vm_compute; reflexivity).
  pose proof (failure_with_close_schedules_two_retries wsConfig closedWithPending 1
                (JStr (lit "refused")) eq_refl Ht eq_refl) as (_ & H2 & _).
  exact H2.
Defined.

(** *** Frames *)

(** X10.  A frame changes nothing of the adapter but the table of pending
    calls, which can only lose an entry.  A frame with an [echo] property is
    a response and nothing else: it settles at most one promise and is never
    handed to the bot as a message or an event, whatever its [post_type]; a
    frame without [echo] leaves the state as it is and settles nothing; a
    frame that cannot be read is logged and dropped. *)
Theorem frames_are_responses_or_events (cfg : Config) (s : Adapter) (sock : nat)
    (raw : Frame) :
  let r := step cfg s (WsMessage sock raw) in
  set_pendingRequests (pendingRequests s) r.1 = s
  ∧ pendingRequests r.1 ⊆ pendingRequests s
  ∧ (∀ payload, raw = Parsed payload → echo payload ≠ JUndefined →
       forallb settling r.2 = true ∧ length r.2 ≤ 1)
  ∧ (∀ payload, raw = Parsed payload → echo payload = JUndefined →
       r.1 = s ∧ forallb (fun o => negb (settling o)) r.2 = true)
  ∧ (∀ e, raw = Malformed e →
       r.1 = s ∧ forallb (fun o => negb (settling o || emitting o)) r.2 = true).
Proof.
  intros r. subst r. cbn [step].
  assert (set_pendingRequests (pendingRequests s) s = s) as Hs by (by destruct s).
  destruct (sockets s !! sock);
    [|repeat split; intros; repeat split; try done; simpl; lia].
  destruct raw as [e|payload];
    [repeat split; intros; simplify_eq/=; repeat split; try done; simpl; lia|].
  unfold handleWebSocketMessage.
  destruct (decide (echo payload = JUndefined)) as [Hu|Hu].
  - repeat case_decide; repeat split; intros; simplify_eq/=; repeat split; done.
  - destruct (getPending _ _) as [p|] eqn:Eg.
    + apply getPending_Some in Eg as (e' & _ & _ & ->).
      repeat split; intros; simplify_eq/=; repeat split; try done;
        try apply delete_subseteq; try lia.
      by case_decide.
    + repeat split; intros; simplify_eq/=; repeat split; try done. lia.
Qed.

Lemma frames_are_responses_or_events_witness :
  forallb settling
    (step wsConfig pendingCall (WsMessage 0 (Parsed (response 0)))).2 = true
  ∧ (step wsConfig pendingCall (WsMessage 0 (Parsed eventPayload))).1 = pendingCall.
Proof.
  pose proof (frames_are_responses_or_events wsConfig pendingCall 0
                (Parsed (response 0))) as (_ & _ & H3 & _).
  pose proof (frames_are_responses_or_events wsConfig pendingCall 0
                (Parsed eventPayload)) as (_ & _ & _ & H4 & _).
  split.
  - exact (proj1 (H3 _ eq_refl ltac:(discriminate))).
  - exact (proj1 (H4 _ eq_refl eq_refl)).
Defined.

End AdapterSpec.

(** ** Lemmas about the host *)

Module HostFacts.
Import Host.

Ltac munfold :=
  cbv beta iota delta [mbind M_bind mret M_ret bind ret try_catch tell invoke
    await await_sum get_plugins put_plugins get_world] in *.

Ltac turn_cases ctx pid info st :=
  unfold tryHandlers, tryOnMessage, tryOnCommand, catchHandlers; munfold; simpl;
  destruct (onMessage (instance info)) as [f|]; simpl;
    [destruct (f ctx (world st)) as [[v|e] w]; simpl;
     [destruct (strict_true v); simpl|]|];
  try (destruct (isCommand ctx); simpl;
       [destruct (onCommand (instance info)) as [g|]; simpl;
        [destruct (g ctx _) as [[v'|e'] w']; simpl|]|]).

Section Facts.

Context {World RawModule : Type}.

Implicit Types (st : State World RawModule) (pluginInfo : PluginInfo World RawModule).
Implicit Types (entries rest before after m : list (jsstring * PluginInfo World RawModule)).
Implicit Types (env : Env World RawModule) (context : Context).

(** *** Computations *)

(** One turn of the loop never throws; it calls [onMessage] if it is a
    function, and calls nothing but handlers of this plugin. *)
Lemma turn_total context pluginId pluginInfo st :
  ∃ stop st' t,
    try_catch (tryHandlers context pluginId pluginInfo) (catchHandlers pluginId) st
    = (Ok stop, st', t)
    ∧ plugins st' = plugins st
    ∧ calledOnMessage t
      = (if onMessage (instance pluginInfo) is Some _ then [pluginId] else [])
    ∧ Forall (fun q => q = pluginId) (called t).
Proof.
  turn_cases constr:(context) pluginId pluginInfo st.
  all: do 3 eexists; (split; [reflexivity|]); simpl; repeat split;
    repeat constructor.
Qed.

Lemma dispatch_cons context pluginId pluginInfo rest st :
  dispatch context ((pluginId, pluginInfo) :: rest) st
  = match try_catch (tryHandlers context pluginId pluginInfo)
            (catchHandlers pluginId) st with
    | (Ok true, st1, t1) => (Ok true, st1, t1 ++ [])
    | (Ok false, st1, t1) => prefixed t1 (dispatch context rest st1)
    | (Raise e, st1, t1) => (Raise e, st1, t1)
    end.
Proof.
  cbn [dispatch]. unfold mbind at 1, M_bind at 1, bind at 1.
  destruct (try_catch _ _ st) as [[[[|]|e] st1] t1]; done.
Qed.

Lemma dispatch_total context entries : ∀ st,
  ∃ handled st' t,
    dispatch context entries st = (Ok handled, st', t)
    ∧ plugins st' = plugins st
    ∧ Forall (fun q => q ∈ entries.*1) (called t)
    ∧ (handled = false → calledOnMessage t = withOnMessage entries).
Proof.
  induction entries as [|[pluginId pluginInfo] rest IH]; intros st.
  - exists false, st, []. repeat split; constructor.
  - destruct (turn_total context pluginId pluginInfo st)
      as (stop & st1 & t1 & Ht & Hp1 & Hc1 & Ha1).
    rewrite dispatch_cons, Ht.
    destruct stop.
    + exists true, st1, (t1 ++ []). repeat split; [done| |done].
      rewrite app_nil_r. eapply Forall_impl; [exact Ha1|].
      intros q ->. simpl. by left.
    + destruct (IH st1) as (handled & st2 & t2 & Hd & Hp2 & Ha2 & Hc2).
      rewrite Hd. exists handled, st2, (t1 ++ t2).
      repeat split; [congruence| |].
      * unfold called in *. rewrite omap_app. apply Forall_app. split.
        -- eapply Forall_impl; [exact Ha1|]. intros q ->. simpl. by left.
        -- eapply Forall_impl; [exact Ha2|]. intros q Hq. simpl. by right.
      * intros Hh. unfold calledOnMessage in *. rewrite omap_app, Hc1, (Hc2 Hh).
        unfold withOnMessage.
        destruct (onMessage (instance pluginInfo)) eqn:E.
        -- rewrite filter_cons_True; [done|]. simpl. rewrite E. eauto.
        -- rewrite filter_cons_False; [done|]. simpl. rewrite E. by intros [? ?].
Qed.

Lemma prefixed_prefixed {A} t1 t2
    (x : result A * State World RawModule * list Effect) :
  prefixed t1 (prefixed t2 x) = prefixed (t1 ++ t2) x.
Proof. destruct x as [[r st] t]. simpl. by rewrite app_assoc. Qed.

Lemma dispatch_app context before after : ∀ st,
  dispatch context (before ++ after) st
  = match dispatch context before st with
    | (Ok false, st1, t1) => prefixed t1 (dispatch context after st1)
    | x => x
    end.
Proof.
  induction before as [|[pluginId pluginInfo] before IH]; intros st.
  - simpl. by destruct (dispatch context after st) as [[r st1] t1].
  - rewrite <- app_comm_cons, !dispatch_cons.
    destruct (turn_total context pluginId pluginInfo st)
      as (stop & st1 & t1 & Ht & _). rewrite Ht.
    destruct stop; [done|]. rewrite IH.
    destruct (dispatch context before st1) as [[[[|]|e] st2] t2]; simpl; try done.
    by rewrite prefixed_prefixed.
Qed.

(** *** The registry *)

Lemma plugins_get_None pluginId m :
  plugins_get pluginId m = None ↔ pluginId ∉ m.*1.
Proof.
  induction m as [|[k v] m IH]; csimpl.
  - split; [intros _ ?%elem_of_nil|]; done.
  - case_decide as Hk; subst.
    + split; [done|]. intros H. destruct H. by left.
    + rewrite IH, not_elem_of_cons. split; [by split|by intros [_ ?]].
Qed.

Lemma plugins_set_keys pluginId v m :
  (plugins_set pluginId v m).*1
  = if plugins_get pluginId m is Some _ then m.*1 else m.*1 ++ [pluginId].
Proof.
  induction m as [|[k v'] m IH]; csimpl; [done|].
  case_decide; subst; csimpl; [done|]. rewrite IH.
  by destruct (plugins_get pluginId m).
Qed.

Lemma plugins_get_set pluginId v m :
  plugins_get pluginId (plugins_set pluginId v m) = Some v.
Proof.
  induction m as [|[k v'] m IH]; csimpl.
  - by rewrite decide_True.
  - case_decide as Hk; csimpl; [by rewrite decide_True|by rewrite decide_False].
Qed.

Lemma plugins_get_set_ne pluginId other v m :
  other ≠ pluginId →
  plugins_get other (plugins_set pluginId v m) = plugins_get other m.
Proof.
  intros Hne. induction m as [|[k v'] m IH]; csimpl.
  - by rewrite decide_False.
  - case_decide as Hk; csimpl; subst.
    + rewrite !decide_False; done.
    + case_decide; done.
Qed.

Lemma plugins_get_delete pluginId m :
  plugins_get pluginId (plugins_delete pluginId m) = None.
Proof.
  apply plugins_get_None. unfold plugins_delete.
  intros ([k v] & -> & [Hne _]%list_elem_of_filter)%list_elem_of_fmap. done.
Qed.

Lemma plugins_get_delete_ne pluginId other m :
  other ≠ pluginId →
  plugins_get other (plugins_delete pluginId m) = plugins_get other m.
Proof.
  intros Hne. unfold plugins_delete. induction m as [|[k v] m IH]; [done|].
  destruct (decide (k = pluginId)) as [->|Hk].
  - rewrite filter_cons_False by (intros H; by apply H). csimpl.
    by rewrite decide_False.
  - rewrite filter_cons_True by done. csimpl. by rewrite IH.
Qed.

Lemma unique_set pluginId v m :
  unique m → unique (plugins_set pluginId v m).
Proof.
  unfold unique. rewrite plugins_set_keys.
  destruct (plugins_get pluginId m) eqn:E; [done|].
  intros Hm. apply NoDup_app. split; [done|]. split; [|apply NoDup_singleton].
  intros x Hx ->%list_elem_of_singleton. by apply plugins_get_None in E.
Qed.

Lemma unique_delete pluginId m :
  unique m → unique (plugins_delete pluginId m).
Proof.
  unfold unique, plugins_delete. induction m as [|[k v] m IH]; [done|].
  csimpl. intros [Hk Hm]%NoDup_cons.
  destruct (decide (k = pluginId)) as [->|Hne].
  - rewrite filter_cons_False by (intros H; by apply H). auto.
  - rewrite filter_cons_True by done. csimpl. apply NoDup_cons. split; [|auto].
    intros ([k' v'] & Heq & [_ Hin]%list_elem_of_filter)%list_elem_of_fmap.
    csimpl in Heq. subst. apply Hk. apply list_elem_of_fmap. by exists (k', v').
Qed.

Lemma unique_records pluginId m :
  unique m →
  records pluginId m
  = if plugins_get pluginId m is Some v then [v] else [].
Proof.
  unfold unique, records. induction m as [|[k v] m IH]; [done|].
  csimpl. intros [Hk Hm]%NoDup_cons. case_decide as Hd; subst.
  - rewrite filter_cons_True by done. csimpl. f_equal.
    apply plugins_get_None in Hk. specialize (IH Hm). by rewrite Hk in IH.
  - rewrite filter_cons_False by done. auto.
Qed.

(** *** [unloadPlugin], [loadPlugin] and [process], computed *)

Lemma unloadPlugin_eq pluginId st :
  unloadPlugin pluginId st
  = match plugins_get pluginId (plugins st) with
    | None => (Ok false, st, [])
    | Some pluginInfo =>
        let removed w :=
          {| plugins := plugins_delete pluginId (plugins st); world := w |} in
        let done_ := [PluginsDelete pluginId; Log (UnloadSucceeded pluginId);
                      Emit (PluginUnloaded pluginId)] in
        match onUnload (instance pluginInfo) with
        | None => (Ok true, removed (world st), done_)
        | Some f =>
            match f (world st) with
            | (Normal _, w) => (Ok true, removed w, Invoke pluginId OnUnload :: done_)
            | (Throw e, w) =>
                (Ok false, {| plugins := plugins st; world := w |},
                 [Invoke pluginId OnUnload; Log (UnloadFailed pluginId e)])
            end
        end
    end.
Proof.
  unfold unloadPlugin. munfold. simpl.
  destruct (plugins_get pluginId (plugins st)) as [pluginInfo|]; [|done].
  destruct (onUnload (instance pluginInfo)) as [f|]; simpl; [|done].
  by destruct (f (world st)) as [[v|e] w].
Qed.

Lemma plugins_has_true pluginId m :
  plugins_has pluginId m = true ↔ is_Some (plugins_get pluginId m).
Proof. unfold plugins_has. apply bool_decide_eq_true. Qed.

Lemma unloadPlugin_total pluginId st :
  ∃ r st1 t1, unloadPlugin pluginId st = (Ok r, st1, t1).
Proof.
  rewrite unloadPlugin_eq.
  destruct (plugins_get pluginId (plugins st)) as [pluginInfo|]; [|eauto].
  simpl. destruct (onUnload (instance pluginInfo)) as [f|]; [|eauto].
  destruct (f (world st)) as [[v|e] w]; eauto.
Qed.

Lemma loadPlugin_eq env filePath st :
  loadPlugin env filePath st
  = if plugins_has (getPluginId env filePath) (plugins st)
    then let '(_, st1, t1) := unloadPlugin (getPluginId env filePath) st in
         prefixed t1 (try_catch (install env filePath (getPluginId env filePath))
                        (catchLoad filePath) st1)
    else try_catch (install env filePath (getPluginId env filePath)) (catchLoad filePath) st.
Proof.
  unfold loadPlugin.
  cbv beta iota delta [mbind M_bind mret M_ret bind ret try_catch get_plugins].
  destruct (plugins_has _ _).
  - destruct (unloadPlugin_total (getPluginId env filePath) st) as (r & st1 & t1 & Hu).
    rewrite Hu. simpl.
    destruct (install _ _ _ _) as [[[b|e'] st2] t2]; simpl.
    + by rewrite app_nil_r.
    + by rewrite app_nil_r, app_assoc.
  - simpl. by destruct (install _ _ _ _) as [[[b|e'] st2] t2].
Qed.

Lemma install_eq env filePath pluginId st :
  try_catch (install env filePath pluginId) (catchLoad filePath) st
  = match loadPluginModule env filePath (world st) with
    | (inl e, w) =>
        (Ok false, {| plugins := plugins st; world := w |},
         [Log (LoadFailed filePath e)])
    | (inr pluginModule, w) =>
        match initializePlugin env pluginModule filePath w with
        | (inl e, w') =>
            (Ok false, {| plugins := plugins st; world := w' |},
             [Log (LoadFailed filePath e)])
        | (inr plugin, w') =>
            (Ok true,
             {| plugins :=
                  plugins_set pluginId
                    {| id := pluginId; path := filePath; instance := plugin;
                       module := pluginModule; loadedAt := now env w' |}
                    (plugins st);
                world := w' |},
             [PluginsSet pluginId; Log (LoadSucceeded pluginId filePath);
              Emit (PluginLoaded pluginId)])
        end
    end.
Proof.
  unfold install, catchLoad. munfold. simpl.
  destruct (loadPluginModule env filePath (world st)) as [[e|pluginModule] w];
    simpl; [done|].
  by destruct (initializePlugin env pluginModule filePath w) as [[e|plugin] w'].
Qed.

Lemma classify_isCommand commandPrefix message :
  isCommand (classify commandPrefix message)
  = bool_decide (is_Some (parseCommand commandPrefix (extractText message))).
Proof.
  unfold classify. simpl.
  destruct (parseCommand commandPrefix (extractText message)); reflexivity.
Qed.

Lemma process_eq env commandPrefix message st :
  process env commandPrefix message st
  = let context := classify commandPrefix message in
    match handleMessage context st with
    | (Ok handled, st1, t1) =>
        prefixed (announced commandPrefix message ++ t1)
          (if negb handled && isCommand context
           then replyUnknownCommand env context st1
           else (Ok tt, st1, []))
    | (Raise e, st1, t1) => (Raise e, st1, announced commandPrefix message ++ t1)
    end.
Proof.
  unfold process, announced, classify.
  cbv beta iota delta [mbind M_bind mret M_ret bind ret tell]. simpl.
  destruct (parseCommand commandPrefix (extractText message)) as [commandInfo|];
    simpl.
  - destruct (handleMessage _ st) as [[[handled|e] st1] t1]; simpl; [|done].
    destruct handled; simpl; [done|].
    by destruct (replyUnknownCommand _ _ st1) as [[r st2] t2].
  - destruct (handleMessage _ st) as [[[handled|e] st1] t1]; simpl; [|done].
    by rewrite andb_false_r.
Qed.

Lemma replyUnknownCommand_eq env commandPrefix message st :
  replyUnknownCommand env (classify commandPrefix message) st
  = let notice := unknownCommandNotice commandPrefix message in
    match adapter_send env notice (world st) with
    | (Normal _, w) =>
        (Ok tt, {| plugins := plugins st; world := w |}, [SendAction notice])
    | (Throw e, w) =>
        (Ok tt, {| plugins := plugins st; world := w |},
         [SendAction notice; Log (ReplyFailed e)])
    end.
Proof.
  unfold replyUnknownCommand, reply, sendPrivateMsg, sendGroupMsg,
    unknownCommandNotice. munfold.
  assert (isPrivate (classify commandPrefix message)
          = bool_decide (Raw.message_type message = JStr (lit "private"))
          ∧ source (classify commandPrefix message) = message) as [-> ->].
  { unfold classify. by destruct (parseCommand _ _). }
  destruct (bool_decide _); simpl;
    by destruct (adapter_send env _ (world st)) as [[v|e] w].
Qed.

(** *** What a dispatch pass does *)

Lemma turn_effects context pluginId pluginInfo st :
  ∃ stop w t,
    try_catch (tryHandlers context pluginId pluginInfo) (catchHandlers pluginId) st
    = (Ok stop, {| plugins := plugins st; world := w |}, t)
    ∧ forallb (dispatching context) t = true.
Proof.
  unfold tryHandlers, tryOnMessage, tryOnCommand, catchHandlers. munfold.
  destruct st as [ps w0]; simpl.
  destruct (isCommand context) eqn:Hc;
    destruct (onMessage (instance pluginInfo)) as [f|]; simpl;
    try (destruct (f context w0) as [[v|e] w]; simpl;
         [destruct (strict_true v); simpl|]);
    try (destruct (onCommand (instance pluginInfo)) as [g|]; simpl;
         [destruct (g context _) as [[v'|e'] w']; simpl|]).
  all: do 3 eexists; (split; [reflexivity|]); simpl; rewrite ?Hc; done.
Qed.

Lemma dispatch_effects context entries : ∀ st,
  ∃ handled w t,
    dispatch context entries st
    = (Ok handled, {| plugins := plugins st; world := w |}, t)
    ∧ forallb (dispatching context) t = true.
Proof.
  induction entries as [|[pluginId pluginInfo] rest IH]; intros st.
  - exists false, (world st), []. by destruct st.
  - destruct (turn_effects context pluginId pluginInfo st) as (stop & w & t & Ht & He).
    rewrite dispatch_cons, Ht. destruct stop.
    + exists true, w, (t ++ []). by rewrite app_nil_r.
    + destruct (IH {| plugins := plugins st; world := w |}) as (h & w' & t' & -> & He').
      exists h, w', (t ++ t'). split; [done|]. by rewrite forallb_app, He, He'.
Qed.

(** A pass reads the registry once, at its start: what it does with the
    plugins it visits depends on the world alone. *)
Lemma tryOnMessage_registry context pluginId pluginInfo st m :
  tryOnMessage context pluginId pluginInfo {| plugins := m; world := world st |}
  = withRegistry m (tryOnMessage context pluginId pluginInfo st).
Proof.
  unfold tryOnMessage. munfold.
  destruct (onMessage (instance pluginInfo)) as [f|]; simpl; [|done].
  by destruct (f context (world st)) as [[v|e] w].
Qed.

Lemma turn_registry context pluginId pluginInfo st m :
  try_catch (tryHandlers context pluginId pluginInfo) (catchHandlers pluginId)
    {| plugins := m; world := world st |}
  = withRegistry m
      (try_catch (tryHandlers context pluginId pluginInfo) (catchHandlers pluginId) st).
Proof.
  turn_cases constr:(context) pluginId pluginInfo st; reflexivity.
Qed.

Lemma dispatch_registry context entries : ∀ st m,
  dispatch context entries {| plugins := m; world := world st |}
  = withRegistry m (dispatch context entries st).
Proof.
  induction entries as [|[pluginId pluginInfo] rest IH]; intros st m; [done|].
  rewrite !dispatch_cons, turn_registry.
  destruct (turn_total context pluginId pluginInfo st) as (stop & st1 & t1 & -> & _).
  destruct stop; simpl; [done|].
  rewrite (IH st1 m). by destruct (dispatch context rest st1) as [[r st2] t2].
Qed.

Lemma handleMessage_eq context st :
  handleMessage context st = dispatch context (plugins st) st.
Proof.
  unfold handleMessage. munfold.
  by destruct (dispatch context (plugins st) st) as [[r st'] t].
Qed.

(** The pass over a registry, given the pass over the plugins [before]
    that end it unclaimed. *)
Lemma handleMessage_split context before after st st1 t1 :
  plugins st = before ++ after →
  handleMessage context {| plugins := before; world := world st |} = (Ok false, st1, t1) →
  dispatch context before st
  = (Ok false, {| plugins := plugins st; world := world st1 |}, t1)
  ∧ handleMessage context st
    = prefixed t1 (dispatch context after {| plugins := plugins st; world := world st1 |}).
Proof.
  intros Hreg Hb. rewrite handleMessage_eq in Hb. simpl in Hb.
  rewrite dispatch_registry in Hb.
  destruct (dispatch_effects context before st) as (h & w & t & Hd & _).
  rewrite Hd in Hb. simpl in Hb. simplify_eq. simpl.
  split; [done|]. rewrite handleMessage_eq.
  transitivity (dispatch context (before ++ after) st); [by rewrite <- Hreg|].
  by rewrite dispatch_app, Hd.
Qed.

Lemma handleMessage_rest context rest m w :
  dispatch context rest {| plugins := m; world := w |}
  = withRegistry m (handleMessage context {| plugins := rest; world := w |}).
Proof.
  rewrite handleMessage_eq. simpl.
  by rewrite <- (dispatch_registry context rest {| plugins := rest; world := w |} m).
Qed.

(** *** [handleEvent], [loadPlugin] and [loadPlugins], computed *)

Lemma dispatchEvent_cons event pluginId pluginInfo rest st :
  dispatchEvent event ((pluginId, pluginInfo) :: rest) st
  = match onEvent (instance pluginInfo) with
    | None => dispatchEvent event rest st
    | Some f =>
        match f event (world st) with
        | (Normal _, w) =>
            prefixed [Invoke pluginId OnEvent]
              (dispatchEvent event rest {| plugins := plugins st; world := w |})
        | (Throw e, w) =>
            prefixed [Invoke pluginId OnEvent; Log (EventHandlerFailed pluginId e)]
              (dispatchEvent event rest {| plugins := plugins st; world := w |})
        end
    end.
Proof.
  cbn [dispatchEvent]. munfold.
  destruct (onEvent (instance pluginInfo)) as [f|]; simpl.
  - destruct (f event (world st)) as [[v|e] w]; simpl;
      by destruct (dispatchEvent event rest _) as [[r st'] t].
  - destruct st. simpl. by destruct (dispatchEvent event rest _) as [[r st'] t].
Qed.

Lemma dispatchEvent_total event entries : ∀ st,
  ∃ w t, dispatchEvent event entries st
         = (Ok tt, {| plugins := plugins st; world := w |}, t)
         ∧ called t = withOnEvent entries.
Proof.
  induction entries as [|[pluginId pluginInfo] rest IH]; intros st.
  - exists (world st), []. by destruct st.
  - rewrite dispatchEvent_cons. unfold withOnEvent.
    destruct (onEvent (instance pluginInfo)) as [f|] eqn:Ef.
    + rewrite filter_cons_True by (simpl; rewrite Ef; eauto).
      destruct (f event (world st)) as [[v|e] w];
        destruct (IH {| plugins := plugins st; world := w |}) as (w' & t & -> & Hc);
        simpl; eexists _, _; (split; [reflexivity|]); csimpl; by rewrite Hc.
    + rewrite filter_cons_False by (simpl; rewrite Ef; by intros [? ?]).
      apply IH.
Qed.

Lemma plugins_set_absent pluginId (v : PluginInfo World RawModule) m :
  plugins_get pluginId m = None → plugins_set pluginId v m = m ++ [(pluginId, v)].
Proof.
  induction m as [|[k v'] m IH]; csimpl; [done|].
  case_decide; [done|]. intros Hg. by rewrite IH.
Qed.

Lemma plugins_delete_absent pluginId m :
  plugins_get pluginId m = None → plugins_delete pluginId m = m.
Proof.
  unfold plugins_delete. induction m as [|[k v'] m IH]; csimpl; [done|].
  case_decide; [done|]. intros Hg. rewrite filter_cons_True by done. by rewrite IH.
Qed.

Lemma plugins_delete_set pluginId (v : PluginInfo World RawModule) m :
  plugins_delete pluginId (plugins_set pluginId v m) = plugins_delete pluginId m.
Proof.
  unfold plugins_delete. induction m as [|[k v'] m IH]; csimpl.
  - by rewrite filter_cons_False by (simpl; intros H; by apply H).
  - case_decide; subst.
    + by rewrite !filter_cons_False by (simpl; intros H; by apply H).
    + rewrite !filter_cons_True by done. by rewrite IH.
Qed.

Lemma plugins_delete_delete pluginId m :
  plugins_delete pluginId (plugins_delete pluginId m) = plugins_delete pluginId m.
Proof. apply plugins_delete_absent, plugins_get_delete. Qed.

Lemma called_app t1 t2 : called (t1 ++ t2) = called t1 ++ called t2.
Proof. unfold called. apply omap_app. Qed.

Lemma attempted_app t1 t2 : attempted (t1 ++ t2) = attempted t1 ++ attempted t2.
Proof. unfold attempted. apply omap_app. Qed.

Lemma install_total env filePath pluginId st :
  ∃ r st2 t2,
    try_catch (install env filePath pluginId) (catchLoad filePath) st = (Ok r, st2, t2)
    ∧ called t2 = []
    ∧ attempted t2 = [filePath]
    ∧ (r = false → plugins st2 = plugins st)
    ∧ (r = true →
       ∃ new, plugins st2 = plugins_set pluginId new (plugins st)
              ∧ id new = pluginId ∧ path new = filePath).
Proof.
  rewrite install_eq.
  destruct (loadPluginModule env filePath (world st)) as [[e|pluginModule] w].
  { eexists _, _, _. split; [reflexivity|]. repeat split; try done. }
  destruct (initializePlugin env pluginModule filePath w) as [[e|plugin] w'].
  { eexists _, _, _. split; [reflexivity|]. repeat split; try done. }
  eexists _, _, _. split; [reflexivity|]. repeat split; try done.
  intros _. eexists. split; [reflexivity|]. done.
Qed.

Lemma unloadPlugin_cases pluginId st :
  ∃ r st1 t1,
    unloadPlugin pluginId st = (Ok r, st1, t1)
    ∧ Forall (fun q => q = pluginId) (called t1)
    ∧ attempted t1 = []
    ∧ (r = true → plugins st1 = plugins_delete pluginId (plugins st))
    ∧ (r = false → plugins st1 = plugins st)
    ∧ (r = false → is_Some (plugins_get pluginId (plugins st)) →
       ∃ e, Log (UnloadFailed pluginId e) ∈ t1)
    ∧ (r = true → ∀ e, Log (UnloadFailed pluginId e) ∉ t1).
Proof.
  rewrite unloadPlugin_eq.
  destruct (plugins_get pluginId (plugins st)) as [pluginInfo|];
    [cbv zeta; destruct (onUnload (instance pluginInfo)) as [f|];
     [destruct (f (world st)) as [[v|e] w]|]|];
    eexists _, _, _; (split; [reflexivity|]);
    (split; [by repeat constructor|]); (split; [done|]);
    (split; [done|]); (split; [done|]); split; try done.
  all: try (intros _ e'; rewrite !not_elem_of_cons; repeat split; try done;
            by intros ?%elem_of_nil).
  intros _ _. exists e. right. by left.
Qed.

Lemma loadPlugin_cases env filePath st :
  ∃ r1 st1 t1 r2 st2 t2,
    (if plugins_has (getPluginId env filePath) (plugins st)
     then unloadPlugin (getPluginId env filePath) st = (Ok r1, st1, t1)
     else st1 = st ∧ t1 = [])
    ∧ try_catch (install env filePath (getPluginId env filePath))
        (catchLoad filePath) st1 = (Ok r2, st2, t2)
    ∧ loadPlugin env filePath st = (Ok r2, st2, t1 ++ t2).
Proof.
  rewrite loadPlugin_eq.
  destruct (plugins_has _ _).
  - destruct (unloadPlugin_cases (getPluginId env filePath) st)
      as (r1 & st1 & t1 & Hu & _).
    destruct (install_total env filePath (getPluginId env filePath) st1)
      as (r2 & st2 & t2 & Hi & _).
    exists r1, st1, t1, r2, st2, t2. rewrite Hu, Hi. done.
  - destruct (install_total env filePath (getPluginId env filePath) st)
      as (r2 & st2 & t2 & Hi & _).
    exists false, st, [], r2, st2, t2. rewrite Hi. done.
Qed.

Lemma filed_delete env files pluginId m :
  filed env files m → filed env files (plugins_delete pluginId m).
Proof.
  unfold filed, plugins_delete. rewrite !Forall_forall.
  intros H kv [_ Hin]%list_elem_of_filter. by apply H.
Qed.

Lemma filed_set env files filePath new m :
  filePath ∈ files → id new = getPluginId env filePath → path new = filePath →
  filed env files m → filed env files (plugins_set (getPluginId env filePath) new m).
Proof.
  intros Hin Hid Hpath. unfold filed.
  induction m as [|[k v] m IH]; csimpl.
  - intros _. constructor; [|done]. simpl. by rewrite Hid, Hpath.
  - intros [Hkv Hm]%Forall_cons. case_decide as Hk.
    + constructor; [|done]. simpl. by rewrite Hid, Hpath.
    + constructor; [done|]. by apply IH.
Qed.

Lemma loadPlugin_keeps env files filePath st :
  filePath ∈ files → unique (plugins st) → filed env files (plugins st) →
  ∃ r st' t, loadPlugin env filePath st = (Ok r, st', t)
             ∧ attempted t = [filePath]
             ∧ unique (plugins st') ∧ filed env files (plugins st').
Proof.
  intros Hin Hu Hf.
  destruct (loadPlugin_cases env filePath st)
    as (r1 & st1 & t1 & r2 & st2 & t2 & H1 & H2 & ->).
  destruct (install_total env filePath (getPluginId env filePath) st1)
    as (r2' & st2' & t2' & Hi & _ & Ha & Hif & Hit).
  rewrite H2 in Hi. simplify_eq.
  assert (attempted t1 = [] ∧ unique (plugins st1) ∧ filed env files (plugins st1))
    as (Ha1 & Hu1 & Hf1).
  { destruct (plugins_has _ _); [|by destruct H1 as [-> ->]].
    destruct (unloadPlugin_cases (getPluginId env filePath) st)
      as (r & st1' & t1' & Hun & _ & Ha1 & Ht & Hfl & _).
    rewrite H1 in Hun. simplify_eq. split; [done|].
    destruct r; [rewrite (Ht eq_refl)|by rewrite (Hfl eq_refl)].
    split; [by apply unique_delete|by apply filed_delete]. }
  eexists _, _, _. split; [done|]. rewrite attempted_app, Ha1, Ha.
  split; [done|].
  destruct r2'; [|by rewrite (Hif eq_refl)].
  destruct (Hit eq_refl) as (new & -> & Hid & Hpath).
  split; [by apply unique_set|by apply filed_set].
Qed.

Lemma unloadPlugin_keeps env files pluginId st :
  unique (plugins st) → filed env files (plugins st) →
  ∃ r st' t, unloadPlugin pluginId st = (Ok r, st', t)
             ∧ attempted t = []
             ∧ unique (plugins st') ∧ filed env files (plugins st').
Proof.
  intros Hu Hf.
  destruct (unloadPlugin_cases pluginId st)
    as (r & st1 & t1 & Hun & _ & Ha & Ht & Hfl & _).
  exists r, st1, t1. split; [done|]. split; [done|].
  destruct r; [rewrite (Ht eq_refl)|by rewrite (Hfl eq_refl)].
  split; [by apply unique_delete|by apply filed_delete].
Qed.

Lemma onWatcherEvent_keeps env files ev st :
  loadedPaths [ev] ⊆ files → unique (plugins st) → filed env files (plugins st) →
  ∃ st' t, onWatcherEvent env ev st = (Ok tt, st', t)
           ∧ attempted t = loadedPaths [ev]
           ∧ unique (plugins st') ∧ filed env files (plugins st').
Proof.
  intros Hsub Hu Hf. unfold loadedPaths in *.
  destruct ev as [filePath|filePath|filePath]; cbn [onWatcherEvent omap list_omap] in *;
    unfold onAdd, onChange, onUnlink; destruct (watched filePath); munfold;
    try (exists st, []; done).
  - destruct (loadPlugin_keeps env files filePath st) as (r & st' & t & -> & Ha & ? & ?);
      [apply Hsub; by left|done|done|].
    exists st', (t ++ []). rewrite app_nil_r. done.
  - destruct (loadPlugin_keeps env files filePath st) as (r & st' & t & -> & Ha & ? & ?);
      [apply Hsub; by left|done|done|].
    exists st', (t ++ []). rewrite app_nil_r. done.
  - destruct (unloadPlugin_keeps env files (getPluginId env filePath) st Hu Hf)
      as (r & st' & t & -> & Ha & ? & ?).
    exists st', (t ++ []). rewrite app_nil_r. done.
Qed.

Lemma watch_keeps env files : ∀ evs st,
  loadedPaths evs ⊆ files → unique (plugins st) → filed env files (plugins st) →
  ∃ st' t, watch env evs st = (Ok tt, st', t)
           ∧ attempted t = loadedPaths evs
           ∧ unique (plugins st') ∧ filed env files (plugins st').
Proof.
  induction evs as [|ev evs IH]; intros st Hsub Hu Hf.
  - exists st, []. done.
  - assert (loadedPaths (ev :: evs) = loadedPaths [ev] ++ loadedPaths evs) as Hl.
    { unfold loadedPaths. by rewrite <- omap_app. }
    rewrite Hl in *.
    destruct (onWatcherEvent_keeps env files ev st) as (st1 & t1 & H1 & Ha1 & Hu1 & Hf1);
      [intros x Hx; apply Hsub, elem_of_app; by left|done|done|].
    destruct (IH st1) as (st2 & t2 & H2 & Ha2 & Hu2 & Hf2);
      [intros x Hx; apply Hsub, elem_of_app; by right|done|done|].
    exists st2, (t1 ++ t2). cbn [watch]. munfold. rewrite H1, H2.
    rewrite attempted_app, Ha1, Ha2. done.
Qed.

Lemma filed_info env files m :
  unique m → filed env files m →
  NoDup (info_id <$> getPluginsInfo m)
  ∧ Forall (fun i => info_id i = getPluginId env (info_path i)
                     ∧ info_path i ∈ files)
      (getPluginsInfo m).
Proof.
  intros Hu Hf.
  assert ((info_id <$> getPluginsInfo m) = m.*1) as Hk.
  { unfold getPluginsInfo. rewrite <- list_fmap_compose.
    apply Forall_fmap_ext_1. unfold filed in Hf. eapply Forall_impl; [exact Hf|].
    intros [k v] (Hid & _). simpl in *. done. }
  split; [by rewrite Hk|].
  unfold getPluginsInfo. apply Forall_fmap. eapply Forall_impl; [exact Hf|].
  intros [k v] (Hid & Hk' & Hp). simpl in *. split; [congruence|done].
Qed.

Lemma loadPluginsFromDisk_eq env loader glob st :
  loadPluginsFromDisk env loader glob st
  = match loader_pluginDir loader with
    | None => (Raise (invalidArgType env), st, [])
    | Some _ =>
        match glob (world st) with
        | (inl e, w) => (Raise e, {| plugins := plugins st; world := w |}, [])
        | (inr found, w) =>
            loadPlugins env
              (filter (fun file => keepPluginFile env loader file = inr true) found)
              {| plugins := plugins st; world := w |}
        end
    end.
Proof.
  unfold loadPluginsFromDisk, findPluginFiles, throw. munfold.
  destruct (loader_pluginDir loader); [|done].
  destruct (glob (world st)) as [[e|found] w]; simpl; [done|].
  by destruct (loadPlugins env _ _) as [[r st'] t].
Qed.

End Facts.

End HostFacts.

(** ** Lemmas about strings *)

Module TextFacts.

(** *** [trim] *)

Lemma trimStart_blank (b s : jsstring) : isBlank b = true → trimStart (b ++ s) = trimStart s.
Proof.
  induction b as [|c b IH]; [done|]. simpl. intros [Hc Hb]%andb_prop.
  rewrite Hc. auto.
Qed.

Lemma trimStart_cons (c : N) (s : jsstring) :
  isWhiteSpace c = false → trimStart (c :: s) = c :: s.
Proof. simpl. by intros ->. Qed.

Lemma trimStart_split (s : jsstring) :
  ∃ b, s = b ++ trimStart s ∧ isBlank b = true.
Proof.
  induction s as [|c s (b & Hs & Hb)]; [by exists []|].
  simpl. destruct (isWhiteSpace c) eqn:E.
  - exists (c :: b). simpl. rewrite E, Hb. by rewrite <- Hs.
  - by exists [].
Qed.

Lemma trimStart_head (s : jsstring) c s' :
  trimStart s = c :: s' → isWhiteSpace c = false.
Proof.
  induction s as [|d s IH]; [done|]. simpl.
  destruct (isWhiteSpace d) eqn:E; [done|]. by intros [= <- _].
Qed.

Lemma trim_tight (lead body trail : jsstring) :
  isBlank lead = true → isBlank trail = true → tight body →
  trim (lead ++ body ++ trail) = body.
Proof.
  intros Hl Ht [(c & Hc & Hcw) (d & Hd & Hdw)]. unfold trim.
  rewrite trimStart_blank by done.
  destruct body as [|c' body]; [done|]. simpl in Hc. simplify_eq.
  rewrite <- app_comm_cons, trimStart_cons by done.
  rewrite app_comm_cons, rev_app_distr.
  rewrite trimStart_blank.
  2:{ unfold isBlank in *. rewrite forallb_forall in *. intros x Hx. apply Ht.
      by apply in_rev. }
  destruct (rev (c :: body)) as [|x r] eqn:Er.
  { apply (f_equal (@length N)) in Er. rewrite length_rev in Er. done. }
  assert (x = d) as ->.
  { rewrite <- (rev_involutive (c :: body)) in Hd. rewrite Er in Hd.
    simpl in Hd. rewrite last_snoc in Hd. by simplify_eq. }
  rewrite trimStart_cons by done. rewrite <- Er. apply rev_involutive.
Qed.

Lemma trim_is_tight (s : jsstring) : trim s ≠ [] → tight (trim s).
Proof.
  unfold trim. intros Hne.
  destruct (trimStart (rev (trimStart s))) as [|d r] eqn:E; [done|].
  pose proof (trimStart_head _ _ _ E) as Hd.
  split.
  - destruct (trimStart_split (rev (trimStart s))) as (b & Hs & Hb).
    rewrite E in Hs.
    destruct (trimStart s) as [|c t] eqn:Et.
    { simpl in Hs. by destruct b. }
    pose proof (trimStart_head _ _ _ Et) as Hc.
    exists c. split; [|done].
    apply (f_equal (@rev N)) in Hs. rewrite rev_involutive, rev_app_distr in Hs.
    destruct (rev (d :: r)) as [|x y] eqn:Ex.
    { apply (f_equal (@length N)) in Ex. rewrite length_rev in Ex. done. }
    simpl in Hs. by simplify_eq.
  - exists d. split; [|done]. simpl. by rewrite last_snoc.
Qed.

Lemma stripWhite_blank (b s : jsstring) :
  isBlank b = true → stripWhite (b ++ s) = stripWhite s.
Proof.
  induction b as [|c b IH]; [done|]. simpl. intros [Hc Hb]%andb_prop.
  unfold stripWhite in *. rewrite filter_cons_False by congruence. auto.
Qed.

Lemma stripWhite_rev (s : jsstring) : stripWhite (rev s) = rev (stripWhite s).
Proof.
  unfold stripWhite. induction s as [|c s IH]; [done|]. simpl.
  rewrite filter_app, IH. destruct (isWhiteSpace c) eqn:E.
  - rewrite filter_cons_False, filter_nil, app_nil_r by congruence.
    by rewrite filter_cons_False by congruence.
  - rewrite !filter_cons_True by done. by rewrite filter_nil.
Qed.

Lemma stripWhite_trimStart (s : jsstring) : stripWhite (trimStart s) = stripWhite s.
Proof.
  destruct (trimStart_split s) as (b & Hs & Hb).
  rewrite Hs at 2. by rewrite stripWhite_blank.
Qed.

Lemma stripWhite_trim (s : jsstring) : stripWhite (trim s) = stripWhite s.
Proof.
  unfold trim. rewrite stripWhite_rev, stripWhite_trimStart, stripWhite_rev, rev_involutive.
  apply stripWhite_trimStart.
Qed.

(** *** [split(/\s+/)] *)

Lemma split_go_not_nil (s cur : jsstring) inSep : split_go s cur inSep ≠ [].
Proof.
  revert cur inSep. induction s as [|c s IH]; intros cur inSep; simpl; [done|].
  destruct (isWhiteSpace c); [destruct inSep|]; auto.
Qed.

Lemma split_go_concat (s cur : jsstring) inSep :
  concat (split_go s cur inSep) = rev cur ++ stripWhite s.
Proof.
  revert cur inSep. induction s as [|c s IH]; intros cur inSep; simpl.
  - reflexivity.
  - unfold stripWhite in *. destruct (isWhiteSpace c) eqn:E.
    + rewrite filter_cons_False by congruence.
      destruct inSep; simpl; rewrite IH; [done|]. done.
    + rewrite filter_cons_True by done. rewrite IH. simpl.
      by rewrite <- app_assoc.
Qed.

Lemma split_go_words (s cur : jsstring) inSep :
  forallb (fun c => negb (isWhiteSpace c)) cur = true →
  Forall (fun w => forallb (fun c => negb (isWhiteSpace c)) w = true)
    (split_go s cur inSep).
Proof.
  revert cur inSep. induction s as [|c s IH]; intros cur inSep Hc; simpl.
  - constructor; [|done]. rewrite forallb_forall in *. intros x Hx.
    apply Hc. by apply in_rev.
  - assert (forallb (fun c => negb (isWhiteSpace c)) (rev cur) = true) as Hr.
    { rewrite forallb_forall in *. intros x Hx. apply Hc. by apply in_rev. }
    destruct (isWhiteSpace c) eqn:E.
    + destruct inSep; [by apply IH|]. constructor; [done|]. by apply IH.
    + apply IH. simpl. by rewrite E.
Qed.

Lemma split_go_nonempty (s cur : jsstring) inSep :
  (∀ c, last s = Some c → isWhiteSpace c = false) →
  (s = [] → cur ≠ []) →
  (inSep = false → cur = [] → ∃ c s', s = c :: s' ∧ isWhiteSpace c = false) →
  Forall (fun w => w ≠ []) (split_go s cur inSep).
Proof.
  revert cur inSep. induction s as [|c s IH]; intros cur inSep Hl He Hs; simpl.
  - constructor; [|done]. intros Hr. apply (f_equal (@rev N)) in Hr.
    rewrite rev_involutive in Hr. by apply He.
  - assert (isWhiteSpace c = true → s ≠ []) as Hne.
    { intros Hc ->. specialize (Hl c eq_refl). congruence. }
    assert (∀ d, last s = Some d → isWhiteSpace d = false) as Hl'.
    { intros d Hd. apply Hl. destruct s; [done|]. done. }
    destruct (isWhiteSpace c) eqn:E.
    + destruct inSep.
      * apply IH; [done| |done]. intros ?. by destruct Hne.
      * constructor.
        -- intros Hr. apply (f_equal (@rev N)) in Hr. rewrite rev_involutive in Hr.
           destruct (Hs eq_refl Hr) as (c' & s' & [= <- <-] & ?). congruence.
        -- apply IH; [done| |done]. intros ?. by destruct Hne.
    + apply IH; [done|done|done].
Qed.

Lemma split_ws_tight (s : jsstring) : tight s → Forall (fun w => w ≠ []) (split_ws s).
Proof.
  intros [(c & Hc & Hcw) (d & Hd & Hdw)]. apply split_go_nonempty.
  - intros x Hx. congruence.
  - intros ->. done.
  - intros _ _. destruct s as [|x s]; [done|]. simpl in Hc. simplify_eq. eauto.
Qed.

Lemma isWord_intro (w : jsstring) :
  w ≠ [] → forallb (fun c => negb (isWhiteSpace c)) w = true → isWord w = true.
Proof. unfold isWord. destruct w; [done|]. simpl. by intros _ ->. Qed.

Lemma split_go_chars (w rest cur : jsstring) :
  forallb (fun c => negb (isWhiteSpace c)) w = true →
  split_go (w ++ rest) cur false = split_go rest (rev w ++ cur) false.
Proof.
  revert cur. induction w as [|c w IH]; intros cur; [done|].
  simpl. intros [Hc Hw]%andb_prop. apply negb_true_iff in Hc. rewrite Hc.
  rewrite IH by done. by rewrite <- app_assoc.
Qed.

Lemma split_go_word (w rest cur : jsstring) inSep :
  isWord w = true →
  split_go (w ++ rest) cur inSep = split_go rest (rev w ++ cur) false.
Proof.
  unfold isWord. destruct w as [|c w]; [done|]. simpl.
  intros [Hc Hw]%andb_prop. apply negb_true_iff in Hc. rewrite Hc.
  rewrite split_go_chars by done. by rewrite <- app_assoc.
Qed.

Lemma split_go_blank (b rest cur : jsstring) :
  isBlank b = true → split_go (b ++ rest) cur true = split_go rest cur true.
Proof.
  induction b as [|c b IH]; [done|]. simpl. intros [Hc Hb]%andb_prop.
  rewrite Hc. auto.
Qed.

Lemma split_go_sep (sep rest cur : jsstring) :
  isBlank sep = true → sep ≠ [] →
  split_go (sep ++ rest) cur false = rev cur :: split_go rest [] true.
Proof.
  destruct sep as [|c sep]; [done|]. simpl. intros [Hc Hb]%andb_prop _.
  rewrite Hc. by rewrite split_go_blank.
Qed.

Lemma split_go_unwords (sep w : jsstring) (ws : list jsstring) inSep :
  isBlank sep = true → sep ≠ [] → isWord w = true → forallb isWord ws = true →
  split_go (unwords sep (w :: ws)) [] inSep = w :: ws.
Proof.
  intros Hb Hne. revert w inSep. induction ws as [|w2 ws IH]; intros w inSep Hw Hws.
  - simpl. rewrite <- (app_nil_r w) at 1. rewrite split_go_word by done.
    simpl. by rewrite app_nil_r, rev_involutive.
  - change (unwords sep (w :: w2 :: ws)) with (w ++ sep ++ unwords sep (w2 :: ws)).
    simpl in Hws. apply andb_prop in Hws as [Hw2 Hws].
    rewrite split_go_word, split_go_sep by done.
    rewrite app_nil_r, rev_involutive. f_equal. by apply IH.
Qed.

Lemma isWord_head (w rest : jsstring) :
  isWord w = true → ∃ c, head (w ++ rest) = Some c ∧ isWhiteSpace c = false.
Proof.
  unfold isWord. destruct w as [|c w]; [done|]. simpl.
  intros [Hc _]%andb_prop. apply negb_true_iff in Hc. eauto.
Qed.

Lemma isWord_last (w front : jsstring) :
  isWord w = true → ∃ c, last (front ++ w) = Some c ∧ isWhiteSpace c = false.
Proof.
  unfold isWord. intros [Hne Hw]%andb_prop.
  destruct (rev w) as [|c r] eqn:Er.
  { apply (f_equal (@rev N)) in Er. rewrite rev_involutive in Er. by subst. }
  apply (f_equal (@rev N)) in Er. rewrite rev_involutive in Er. simpl in Er.
  subst w. exists c. rewrite app_assoc, last_snoc. split; [done|].
  rewrite forallb_forall in Hw. apply negb_true_iff, Hw.
  apply in_app_iff. right. by left.
Qed.

Lemma unwords_tight (sep w : jsstring) (ws : list jsstring) :
  isWord w = true → forallb isWord ws = true → tight (unwords sep (w :: ws)).
Proof.
  revert w. induction ws as [|w2 ws IH]; intros w Hw Hws.
  - split.
    + destruct (isWord_head w [] Hw) as (c & Hc & ?). rewrite app_nil_r in Hc. eauto.
    + by apply (isWord_last w []).
  - change (unwords sep (w :: w2 :: ws)) with (w ++ sep ++ unwords sep (w2 :: ws)).
    simpl in Hws. apply andb_prop in Hws as [Hw2 Hws].
    destruct (IH w2 Hw2 Hws) as [_ (d & Hd & Hdw)].
    split; [by apply isWord_head|].
    exists d. split; [|done]. rewrite !last_app. by rewrite Hd.
Qed.

(** *** Prefixes and suffixes *)

Lemma startsWith_nil (s : jsstring) : startsWith s [] = true.
Proof. by destruct s. Qed.

Lemma startsWith_split (s p : jsstring) :
  startsWith s p = true → s = p ++ drop (length p) s.
Proof.
  revert s. induction p as [|a p IH]; intros s; [by destruct s|].
  destruct s as [|b s]; [done|]. simpl.
  intros [Hab Hs]%andb_prop. apply N.eqb_eq in Hab. subst. f_equal. by apply IH.
Qed.

Lemma endsWith_split (s p : jsstring) :
  endsWith s p = true → s = take (length s - length p) s ++ p.
Proof.
  unfold endsWith. intros H%startsWith_split.
  apply (f_equal (@rev N)) in H. rewrite rev_involutive, rev_app_distr in H.
  rewrite rev_involutive in H. revert H.
  generalize (rev (drop (length (rev p)) (rev s))). intros x ->.
  rewrite length_app, Nat.add_sub. by rewrite take_app_length.
Qed.

Lemma endsWith_app (x p : jsstring) : endsWith (x ++ p) p = true.
Proof.
  unfold endsWith. rewrite rev_app_distr.
  generalize (rev p) (rev x). clear. intros p x.
  induction p as [|a p IH]; [by destruct x|]. simpl. by rewrite N.eqb_refl.
Qed.

Lemma findPrefix_Some ps text p :
  findPrefix ps text = Some p → p ∈ ps ∧ startsWith text p = true.
Proof.
  induction ps as [|q ps IH]; [done|]. simpl.
  destruct (startsWith text q) eqn:E.
  - intros [= <-]. split; [by left|done].
  - intros [? ?]%IH. split; [by right|done].
Qed.

Lemma findPrefix_app (before after : list jsstring) (text : jsstring) :
  findPrefix (before ++ after) text
  = match findPrefix before text with
    | Some p => Some p
    | None => findPrefix after text
    end.
Proof.
  induction before as [|q before IH]; [done|]. simpl.
  by destruct (startsWith text q).
Qed.

(** *** [getPluginId] *)

Lemma replace_backslashes_none (s : jsstring) :
  Host.noBackslash s = true → replace_backslashes s = s.
Proof.
  unfold replace_backslashes, Host.noBackslash.
  induction s as [|c s IH]; [done|]. cbn [forallb]. intros [Hc Hs]%andb_prop.
  apply negb_true_iff in Hc. rewrite fmap_cons, Hc. by rewrite IH.
Qed.

Lemma strip_js_suffix_app (x : jsstring) : strip_js_suffix (x ++ lit ".js") = x.
Proof.
  unfold strip_js_suffix. rewrite endsWith_app.
  rewrite take_app_length'; [done|]. rewrite length_app. simpl. lia.
Qed.

Lemma strip_js_suffix_inj (r1 r2 : jsstring) :
  endsWith r1 (lit ".js") = true → endsWith r2 (lit ".js") = true →
  strip_js_suffix r1 = strip_js_suffix r2 → r1 = r2.
Proof.
  intros H1%endsWith_split H2%endsWith_split.
  rewrite H1, H2, !strip_js_suffix_app. by intros ->.
Qed.

Lemma endsWith_mjs_not_js (x : jsstring) :
  endsWith (x ++ lit ".mjs") (lit ".js") = false.
Proof. unfold endsWith. rewrite rev_app_distr. reflexivity. Qed.

End TextFacts.

(** ** Properties of the host *)

Module HostSpec.
Import Host HostFacts.

Section Spec.

Context {World RawModule : Type}.

Implicit Types (st : State World RawModule) (pluginInfo : PluginInfo World RawModule).
Implicit Types (entries rest before after m : list (jsstring * PluginInfo World RawModule)).
Implicit Types (env : Env World RawModule) (context : Context).

(** *** Failure containment in [handleMessage] (C1) *)

(** C1.  [handleMessage] always returns normally and leaves the registry
    as it is.  Let the registry hold the plugins [before], then a plugin,
    then the plugins [rest], and let no plugin of [before] claim the
    message.  When the [onMessage] of that plugin throws, or its [onCommand]
    does after [onMessage] has not claimed the message, the exception is
    logged with the id of the plugin and the pass goes on with the plugins
    [rest] exactly as a pass over them alone would.  And a pass over the
    registry that no plugin ends by claiming the message has called the
    [onMessage] of every registered plugin that has one, in the order of the
    registry. *)
Theorem handler_exception_is_contained
    (context : Context) (before rest : list (jsstring * PluginInfo World RawModule))
    (pluginId : jsstring) (pluginInfo : PluginInfo World RawModule)
    (st st1 : State World RawModule) (t1 : list Effect) :
  (∃ handled w t,
     handleMessage context st
     = (Ok handled, {| plugins := plugins st; world := w |}, t))
  ∧ (plugins st = before ++ (pluginId, pluginInfo) :: rest →
     handleMessage context {| plugins := before; world := world st |}
     = (Ok false, st1, t1) →
     (∀ f e w,
        onMessage (instance pluginInfo) = Some f →
        f context (world st1) = (Throw e, w) →
        handleMessage context st
        = prefixed (t1 ++ [Invoke pluginId OnMessage; Log (HandlerFailed pluginId e)])
            (withRegistry (plugins st)
               (handleMessage context {| plugins := rest; world := w |})))
     ∧ (∀ st2 t2 g e w,
          tryOnMessage context pluginId pluginInfo st1 = (Ok false, st2, t2) →
          isCommand context = true →
          onCommand (instance pluginInfo) = Some g →
          g context (world st2) = (Throw e, w) →
          handleMessage context st
          = prefixed (t1 ++ t2
                      ++ [Invoke pluginId OnCommand; Log (HandlerFailed pluginId e)])
              (withRegistry (plugins st)
                 (handleMessage context {| plugins := rest; world := w |}))))
  ∧ (∀ st' t,
       handleMessage context st = (Ok false, st', t) →
       calledOnMessage t = withOnMessage (plugins st)).
Proof.
  split; [|split].
  - rewrite handleMessage_eq.
    destruct (dispatch_effects context (plugins st) st) as (h & w & t & Hd & _).
    eauto.
  - intros Hreg Hb.
    destruct (handleMessage_split context before _ st st1 t1 Hreg Hb) as [_ ->].
    rewrite dispatch_cons. split.
    + intros f e w Hf Hthrow.
      unfold tryHandlers, tryOnMessage, catchHandlers. munfold.
      rewrite Hf. simpl. rewrite Hthrow. simpl.
      rewrite handleMessage_rest, prefixed_prefixed. done.
    + intros st2 t2 g e w Hm Hc Hg Hthrow.
      pose proof (tryOnMessage_registry context pluginId pluginInfo st1 (plugins st))
        as Hm'.
      rewrite Hm in Hm'. simpl in Hm'.
      unfold tryHandlers, tryOnCommand, catchHandlers. munfold.
      rewrite Hm', Hc, Hg. simpl. rewrite Hthrow. simpl.
      rewrite handleMessage_rest, prefixed_prefixed.
      by rewrite <- !app_assoc.
  - intros st' t Hd. rewrite handleMessage_eq in Hd.
    destruct (dispatch_total context (plugins st) st) as (h & st2 & t2 & Hd2 & _ & _ & Hc).
    rewrite Hd in Hd2. simplify_eq. by apply Hc.
Qed.

(** *** Order and short-circuit in [handleMessage] (C7) *)


(** *** [unloadPlugin] (C4) *)

(** C4, amended.  Unloading an identity that is not registered reports
    [false], calls nothing and changes nothing.  For a registered identity,
    [onUnload] is called if it is a function; if it returns (or is no
    function) the record is removed, the success is logged and notified, and
    [true] is reported; if it throws, the exception is caught and logged as a
    failed unload, the record stays in the registry and [false] is
    reported. *)
Theorem unloadPlugin_outcomes (pluginId : jsstring) (st : State World RawModule) :
  (plugins_get pluginId (plugins st) = None →
     unloadPlugin pluginId st = (Ok false, st, []))
  ∧ (∀ pluginInfo,
       plugins_get pluginId (plugins st) = Some pluginInfo →
       onUnload (instance pluginInfo) = None →
       unloadPlugin pluginId st
       = (Ok true,
          {| plugins := plugins_delete pluginId (plugins st); world := world st |},
          [PluginsDelete pluginId; Log (UnloadSucceeded pluginId);
           Emit (PluginUnloaded pluginId)]))
  ∧ (∀ pluginInfo f v w,
       plugins_get pluginId (plugins st) = Some pluginInfo →
       onUnload (instance pluginInfo) = Some f →
       f (world st) = (Normal v, w) →
       unloadPlugin pluginId st
       = (Ok true,
          {| plugins := plugins_delete pluginId (plugins st); world := w |},
          [Invoke pluginId OnUnload; PluginsDelete pluginId;
           Log (UnloadSucceeded pluginId); Emit (PluginUnloaded pluginId)]))
  ∧ (∀ pluginInfo f e w,
       plugins_get pluginId (plugins st) = Some pluginInfo →
       onUnload (instance pluginInfo) = Some f →
       f (world st) = (Throw e, w) →
       unloadPlugin pluginId st
       = (Ok false, {| plugins := plugins st; world := w |},
          [Invoke pluginId OnUnload; Log (UnloadFailed pluginId e)]))
  ∧ plugins_get pluginId (plugins_delete pluginId (plugins st)) = None.
Proof.
  rewrite unloadPlugin_eq. repeat split.
  - by intros ->.
  - intros pluginInfo -> Hu. simpl. by rewrite Hu.
  - intros pluginInfo f v w -> Hu Hf. simpl. by rewrite Hu, Hf.
  - intros pluginInfo f e w -> Hu Hf. simpl. by rewrite Hu, Hf.
  - apply plugins_get_delete.
Qed.

(** *** Hot reload (C8) *)

(** C8, amended.  The registry holds at most one record per identity
    before, during and after every [loadPlugin] and [unloadPlugin].  Loading
    a file whose identity is registered first runs [unloadPlugin] to its
    end, which calls the [onUnload] of the old record once when that is a
    function, and only then loads and registers; nothing is registered
    during the unload and no handler is called after it.  If [onUnload] is
    no function or returns, the old record is removed before the load
    starts: between the two steps the identity is not registered.  If
    [onUnload] throws, the failure is logged and the old record stays
    registered while the new version is loaded; a successful load then puts
    the new record in its place, a failed load leaves the old record.  After
    a successful load the identity has exactly the new record, made of what
    the loader and the sandbox returned for the file. *)
Theorem reload_attempts_unload_before_registering
    (env : Env World RawModule) (filePath : jsstring) (st : State World RawModule)
    (old : PluginInfo World RawModule) :
  let pluginId := getPluginId env filePath in
  unique (plugins st) →
  plugins_get pluginId (plugins st) = Some old →
  ∃ r1 st1 t1 r2 st2 t2,
    unloadPlugin pluginId st = (Ok r1, st1, t1)
    ∧ try_catch (install env filePath pluginId) (catchLoad filePath) st1
      = (Ok r2, st2, t2)
    ∧ loadPlugin env filePath st = (Ok r2, st2, t1 ++ t2)
    ∧ called t1 = (if onUnload (instance old) is Some _ then [pluginId] else [])
    ∧ called t2 = []
    ∧ (PluginsSet pluginId ∉ t1)
    ∧ (r1 = false
       ↔ ∃ f e w, onUnload (instance old) = Some f ∧ f (world st) = (Throw e, w))
    ∧ (r1 = true →
         plugins st1 = plugins_delete pluginId (plugins st)
         ∧ plugins_get pluginId (plugins st1) = None
         ∧ records pluginId (plugins st1) = []
         ∧ PluginsDelete pluginId ∈ t1)
    ∧ (r1 = false →
         plugins st1 = plugins st
         ∧ plugins_get pluginId (plugins st1) = Some old
         ∧ records pluginId (plugins st1) = [old]
         ∧ (PluginsDelete pluginId ∉ t1)
         ∧ ∃ e, Log (UnloadFailed pluginId e) ∈ t1)
    ∧ unique (plugins st1) ∧ unique (plugins st2)
    ∧ (records pluginId (plugins st) = [old])
    ∧ (r2 = true →
         ∃ pluginModule w plugin w',
           loadPluginModule env filePath (world st1) = (inr pluginModule, w)
           ∧ initializePlugin env pluginModule filePath w = (inr plugin, w')
           ∧ let new := {| id := pluginId; path := filePath; instance := plugin;
                           module := pluginModule; loadedAt := now env w' |} in
             plugins st2 = plugins_set pluginId new (plugins st1)
             ∧ plugins_get pluginId (plugins st2) = Some new
             ∧ records pluginId (plugins st2) = [new])
    ∧ (r2 = false → plugins st2 = plugins st1)
    ∧ (∀ other st', unique (plugins st') →
         unique (plugins ((loadPlugin env other st').1).2)
         ∧ unique (plugins ((unloadPlugin other st').1).2)).
Proof.
  intros pluginId Hu Hold.
  assert (∀ other st', unique (plugins st') →
            unique (plugins ((unloadPlugin other st').1).2)) as Hunl.
  { intros other st' H'. rewrite unloadPlugin_eq.
    destruct (plugins_get other (plugins st')) as [info|]; [|done]. simpl.
    destruct (onUnload (instance info)) as [f|]; simpl.
    - destruct (f (world st')) as [[v|e] w]; simpl; [by apply unique_delete|done].
    - by apply unique_delete. }
  assert (∀ fp id0 st', unique (plugins st') →
            unique (plugins ((try_catch (install env fp id0) (catchLoad fp) st').1).2))
    as Hins.
  { intros fp id0 st' H'. rewrite install_eq.
    destruct (loadPluginModule env fp (world st')) as [[e|m] w]; [done|].
    destruct (initializePlugin env m fp w) as [[e|plugin] w']; [done|].
    simpl. by apply unique_set. }
  destruct (unloadPlugin_total pluginId st) as (r1 & st1 & t1 & Hun).
  pose proof (Hunl pluginId st Hu) as Hu1. rewrite Hun in Hu1. simpl in Hu1.
  pose proof (Hins filePath pluginId st1 Hu1) as Hu2.
  assert (∃ r2 st2 t2,
            try_catch (install env filePath pluginId) (catchLoad filePath) st1
            = (Ok r2, st2, t2)) as (r2 & st2 & t2 & Hin).
  { rewrite install_eq.
    destruct (loadPluginModule env filePath (world st1)) as [[e|m] w]; [eauto|].
    destruct (initializePlugin env m filePath w) as [[e|plugin] w']; eauto. }
  rewrite Hin in Hu2. simpl in Hu2.
  exists r1, st1, t1, r2, st2, t2.
  split; [done|]. split; [done|]. split.
  { rewrite loadPlugin_eq. fold pluginId.
    assert (plugins_has pluginId (plugins st) = true) as ->
      by (apply plugins_has_true; rewrite Hold; eauto).
    rewrite Hun, Hin. done. }
  rewrite unloadPlugin_eq, Hold in Hun. simpl in Hun.
  rewrite install_eq in Hin.
  assert (records pluginId (plugins st) = [old]) as Hrec
    by (rewrite unique_records, Hold; done).
  assert (records pluginId (plugins_delete pluginId (plugins st)) = []) as Hgone.
  { rewrite unique_records by (by apply unique_delete).
    by rewrite plugins_get_delete. }
  split; [|split; [|split; [|split; [|split; [|split]]]]].
  - destruct (onUnload (instance old)) as [f|];
      [destruct (f (world st)) as [[v|e] w]|]; by simplify_eq.
  - destruct (loadPluginModule env filePath (world st1)) as [[e|m] w];
      [|destruct (initializePlugin env m filePath w) as [[e|plugin] w']];
      by simplify_eq.
  - destruct (onUnload (instance old)) as [f|];
      [destruct (f (world st)) as [[v|e] w]|]; simplify_eq;
      rewrite ?not_elem_of_cons; repeat split; try done; by intros ?%elem_of_nil.
  - destruct (onUnload (instance old)) as [f|];
      [destruct (f (world st)) as [[v|e] w] eqn:Ef|]; simplify_eq.
    + split; [done|]. intros (f' & e & w' & [= <-] & Hf'). by rewrite Ef in Hf'.
    + split; [|done]. intros _. eauto.
    + split; [done|]. by intros (f' & e & w' & ? & _).
  - intros ->.
    destruct (onUnload (instance old)) as [f|];
      [destruct (f (world st)) as [[v|e] w]|]; simplify_eq; simpl;
      (split; [done|]); (split; [apply plugins_get_delete|]); (split; [done|]).
    + right. by left.
    + by left.
  - intros ->.
    destruct (onUnload (instance old)) as [f|];
      [destruct (f (world st)) as [[v|e] w]|]; simplify_eq; simpl.
    split; [done|]. split; [done|]. split; [done|]. split.
    + rewrite !not_elem_of_cons. repeat split; try done. by intros ?%elem_of_nil.
    + exists e. right. by left.
  - split; [done|]. split; [done|]. split; [done|]. split; [|split].
    + intros ->.
      destruct (loadPluginModule env filePath (world st1)) as [[e|m] w] eqn:Hm;
        [done|].
      destruct (initializePlugin env m filePath w) as [[e|plugin] w'] eqn:Hp;
        [done|].
      simplify_eq. exists m, w, plugin, w'. split; [done|]. split; [done|].
      simpl. split; [done|]. split; [apply plugins_get_set|].
      rewrite unique_records by (by apply unique_set).
      by rewrite plugins_get_set.
    + intros ->.
      destruct (loadPluginModule env filePath (world st1)) as [[e|m] w];
        [|destruct (initializePlugin env m filePath w) as [[e|plugin] w']];
        by simplify_eq.
    + intros other st' H'. split; [|by apply Hunl].
      rewrite loadPlugin_eq. destruct (plugins_has _ _); [|by apply Hins].
      destruct (unloadPlugin_total (getPluginId env other) st') as (r & st3 & t3 & H3).
      pose proof (Hunl (getPluginId env other) st' H') as H4. rewrite H3 in *.
      simpl in H4.
      pose proof (Hins other (getPluginId env other) st3 H4) as H5.
      by destruct (try_catch _ _ st3) as [[r5 st5] t5].
Qed.

(** *** The reply to an unknown command (C10) *)

(** C10.  After the plugins have been given the message: if it was
    classified as a command and no plugin claimed it, [process] sends one
    action, the 'unknown command' notice, as a private message to the sender
    of a private message and as a group message to the group otherwise, and
    nothing else; should that send fail, the failure is logged and [process]
    still returns normally.  If the message was not classified as a command,
    or a plugin claimed it, [process] ends with the dispatch: nothing is
    sent. *)
Theorem unknown_command_is_answered_once
    (env : Env World RawModule) (commandPrefix : list jsstring)
    (message : Raw.Message) (st st1 : State World RawModule) (handled : bool)
    (t1 : list Effect) :
  let context := classify commandPrefix message in
  let notice := unknownCommandNotice commandPrefix message in
  handleMessage context st = (Ok handled, st1, t1) →
  ∃ st2 tail,
    process env commandPrefix message st
    = (Ok tt, st2, announced commandPrefix message ++ t1 ++ tail)
    ∧ plugins st2 = plugins st1
    ∧ (isCommand context = true → handled = false →
         (∃ v, adapter_send env notice (world st1) = (Normal v, world st2)
               ∧ tail = [SendAction notice])
         ∨ (∃ e, adapter_send env notice (world st1) = (Throw e, world st2)
                 ∧ tail = [SendAction notice; Log (ReplyFailed e)]))
    ∧ (isCommand context = false ∨ handled = true → tail = [] ∧ st2 = st1).
Proof.
  intros context notice Hd. rewrite process_eq. cbv zeta. fold context.
  rewrite Hd.
  destruct handled; simpl.
  - exists st1, []. rewrite !app_nil_r.
    split; [done|]. split; [done|]. split; [done|]. done.
  - destruct (isCommand context) eqn:Hc; simpl.
    + subst context. rewrite replyUnknownCommand_eq. cbv zeta. fold notice.
      destruct (adapter_send env notice (world st1)) as [[v|e] w] eqn:Hs; simpl.
      * eexists _, [SendAction notice]. rewrite <- ?app_assoc.
        split; [done|]. split; [done|].
        split; [intros _ _; left; eauto|by intros [?|?]].
      * eexists _, [SendAction notice; Log (ReplyFailed e)].
        rewrite <- ?app_assoc.
        split; [done|]. split; [done|].
        split; [intros _ _; right; eauto|by intros [?|?]].
    + exists st1, []. rewrite !app_nil_r.
      split; [done|]. split; [done|]. split; [done|]. done.
Qed.

End Spec.

(** *** Further properties of the plugin manager and of the message context *)

Section More.

Context {World RawModule : Type}.

Implicit Types (st : State World RawModule) (pluginInfo : PluginInfo World RawModule).
Implicit Types (entries rest before after m : list (jsstring * PluginInfo World RawModule)).
Implicit Types (env : Env World RawModule) (context : Context).

(** X11.  [handleMessage] returns normally and leaves the registry as it
    is.  All it does is call [onMessage] handlers, call [onCommand]
    handlers, and log the failure of a handler: it emits nothing, sends
    nothing, and calls no [onEvent] or [onUnload].  An [onCommand] is called
    only when the context is a command: for any other message the handlers
    called are [onMessage] handlers only. *)
Theorem handleMessage_only_calls_message_handlers (context : Context)
    (st : State World RawModule) :
  ∃ handled w t,
    handleMessage context st
    = (Ok handled, {| plugins := plugins st; world := w |}, t)
    ∧ forallb (dispatching context) t = true
    ∧ (isCommand context = false → called t = calledOnMessage t).
Proof.
  unfold handleMessage. munfold.
  destruct (dispatch_effects context (plugins st) st) as (h & w & t & Hd & He).
  rewrite Hd. exists h, w, t. split; [done|]. split; [done|].
  intros Hc. clear Hd. induction t as [|ef t IH]; [done|].
  simpl in He. apply andb_prop in He as [H1 H2]. specialize (IH H2).
  unfold called, calledOnMessage in *.
  destruct ef as [p hk|l| | | |]; simpl in *; try congruence; try exact IH.
  destruct hk; simpl in *; try congruence. f_equal. exact IH.
Qed.

(** X12.  [handleEvent] always returns normally and leaves the registry as
    it is.  It calls the [onEvent] of every plugin that has one, once, in the
    order of the registry, and no other handler: an [onEvent] that throws is
    logged with the id of its plugin and the loop goes on with the plugins
    after it, and a value returned by [onEvent] never ends the loop. *)
Theorem handleEvent_reaches_every_plugin (event : jsval) (st : State World RawModule) :
  (∃ w t, handleEvent event st = (Ok tt, {| plugins := plugins st; world := w |}, t)
          ∧ called t = withOnEvent (plugins st))
  ∧ (∀ pluginId pluginInfo rest f e w st0,
       onEvent (instance pluginInfo) = Some f →
       f event (world st0) = (Throw e, w) →
       dispatchEvent event ((pluginId, pluginInfo) :: rest) st0
       = prefixed [Invoke pluginId OnEvent; Log (EventHandlerFailed pluginId e)]
           (dispatchEvent event rest {| plugins := plugins st0; world := w |})).
Proof.
  split.
  - unfold handleEvent. munfold.
    destruct (dispatchEvent_total event (plugins st) st) as (w & t & Hd & Hc).
    rewrite Hd. eauto.
  - intros pluginId pluginInfo rest f e w st0 Hf He.
    by rewrite dispatchEvent_cons, Hf, He.
Qed.

(** X13.  Loading a file whose identity is registered has four outcomes,
    by whether the unload and the load succeed.  The unload fails exactly
    when the failure of [onUnload] is logged.  Unload and load succeed: the
    old record is gone and the new one stands at the end of the registry,
    after all other plugins.  Unload succeeds, load fails: the plugin is no
    longer registered.  Unload fails, load succeeds: the new record takes the
    place of the old one, at its position.  Both fail: the registry is
    unchanged. *)
Theorem reload_outcomes (env : Env World RawModule) (filePath : jsstring)
    (st : State World RawModule) (old : PluginInfo World RawModule) :
  let pluginId := getPluginId env filePath in
  plugins_get pluginId (plugins st) = Some old →
  ∃ r1 st1 t1 r2 st2 t2,
    unloadPlugin pluginId st = (Ok r1, st1, t1)
    ∧ try_catch (install env filePath pluginId) (catchLoad filePath) st1
      = (Ok r2, st2, t2)
    ∧ loadPlugin env filePath st = (Ok r2, st2, t1 ++ t2)
    ∧ (r1 = false ↔ ∃ e, Log (UnloadFailed pluginId e) ∈ t1)
    ∧ (r1 = true → r2 = true →
       ∃ new, plugins st2 = plugins_delete pluginId (plugins st) ++ [(pluginId, new)])
    ∧ (r1 = true → r2 = false →
       plugins st2 = plugins_delete pluginId (plugins st))
    ∧ (r1 = false → r2 = true →
       ∃ new, plugins st2 = plugins_set pluginId new (plugins st))
    ∧ (r1 = false → r2 = false → plugins st2 = plugins st).
Proof.
  intros pluginId Hold.
  destruct (unloadPlugin_cases pluginId st)
    as (r1 & st1 & t1 & Hu & _ & _ & Ht & Hf & Hlog & Hnolog).
  destruct (install_total env filePath pluginId st1)
    as (r2 & st2 & t2 & Hi & _ & _ & Hif & Hit).
  exists r1, st1, t1, r2, st2, t2.
  split; [done|]. split; [done|]. split.
  { rewrite loadPlugin_eq. fold pluginId.
    assert (plugins_has pluginId (plugins st) = true) as ->
      by (apply plugins_has_true; rewrite Hold; eauto).
    by rewrite Hu, Hi. }
  split.
  { split.
    - intros ->. apply Hlog; [done|]. rewrite Hold. eauto.
    - intros [e He]. destruct r1; [|done]. by destruct (Hnolog eq_refl e). }
  repeat split.
  - intros -> ->. destruct (Hit eq_refl) as (new & -> & _). exists new.
    rewrite (Ht eq_refl). apply plugins_set_absent, plugins_get_delete.
  - intros -> ->. by rewrite (Hif eq_refl), (Ht eq_refl).
  - intros -> ->. destruct (Hit eq_refl) as (new & -> & _). exists new.
    by rewrite (Hf eq_refl).
  - intros -> ->. by rewrite (Hif eq_refl), (Hf eq_refl).
Qed.

(** X14.  [loadPlugin] and [unloadPlugin] always return normally, and
    they touch one identity only: apart from the record of that identity the
    registry is the same afterwards, records and order, so the record of any
    other identity is found as before; and the only handler they may call is
    one of the plugin with that identity. *)
Theorem other_plugins_are_untouched (env : Env World RawModule)
    (filePath pluginId : jsstring) (st : State World RawModule) :
  let loaded := loadPlugin env filePath st in
  let unloaded := unloadPlugin pluginId st in
  (∃ r, loaded.1.1 = Ok r) ∧ (∃ r, unloaded.1.1 = Ok r)
  ∧ plugins_delete (getPluginId env filePath) (plugins loaded.1.2)
    = plugins_delete (getPluginId env filePath) (plugins st)
  ∧ plugins_delete pluginId (plugins unloaded.1.2)
    = plugins_delete pluginId (plugins st)
  ∧ (∀ other, other ≠ getPluginId env filePath →
       plugins_get other (plugins loaded.1.2) = plugins_get other (plugins st))
  ∧ (∀ other, other ≠ pluginId →
       plugins_get other (plugins unloaded.1.2) = plugins_get other (plugins st))
  ∧ Forall (fun q => q = getPluginId env filePath) (called loaded.2)
  ∧ Forall (fun q => q = pluginId) (called unloaded.2).
Proof.
  intros loaded unloaded.
  assert (∀ id0 st0, plugins_delete id0 (plugins ((unloadPlugin id0 st0).1).2)
                     = plugins_delete id0 (plugins st0)) as Hun.
  { intros id0 st0.
    destruct (unloadPlugin_cases id0 st0) as (r & st1 & t1 & -> & _ & _ & Ht & Hf & _).
    simpl. destruct r; [rewrite (Ht eq_refl)|by rewrite (Hf eq_refl)].
    apply plugins_delete_delete. }
  assert (plugins_delete (getPluginId env filePath) (plugins loaded.1.2)
          = plugins_delete (getPluginId env filePath) (plugins st)) as Hload.
  { subst loaded.
    destruct (loadPlugin_cases env filePath st)
      as (r1 & st1 & t1 & r2 & st2 & t2 & H1 & H2 & ->). simpl.
    destruct (install_total env filePath (getPluginId env filePath) st1)
      as (r2' & st2' & t2' & Hi & _ & _ & Hif & Hit).
    rewrite H2 in Hi. simplify_eq.
    assert (plugins_delete (getPluginId env filePath) (plugins st1)
            = plugins_delete (getPluginId env filePath) (plugins st)) as <-.
    { destruct (plugins_has _ _); [|by destruct H1 as [-> _]].
      specialize (Hun (getPluginId env filePath) st). by rewrite H1 in Hun. }
    destruct r2'; [|by rewrite (Hif eq_refl)].
    destruct (Hit eq_refl) as (new & -> & _). apply plugins_delete_set. }
  assert (∀ id0 other m m', other ≠ id0 →
            plugins_delete id0 m' = plugins_delete id0 m →
            plugins_get other m' = plugins_get other m) as Hget.
  { intros id0 other m m' Hne Heq.
    rewrite <- (plugins_get_delete_ne id0 other m') by done.
    rewrite <- (plugins_get_delete_ne id0 other m) by done. by rewrite Heq. }
  split.
  { subst loaded. destruct (loadPlugin_cases env filePath st)
      as (r1 & st1 & t1 & r2 & st2 & t2 & _ & _ & ->). eauto. }
  split.
  { subst unloaded. destruct (unloadPlugin_cases pluginId st) as (r & st1 & t1 & -> & _).
    eauto. }
  split; [done|]. split; [apply Hun|].
  split; [intros other Hne; by eapply Hget|].
  split; [intros other Hne; eapply Hget; [done|apply Hun]|].
  split.
  - subst loaded.
    destruct (loadPlugin_cases env filePath st)
      as (r1 & st1 & t1 & r2 & st2 & t2 & H1 & H2 & ->). simpl.
    rewrite called_app. apply Forall_app. split.
    + destruct (plugins_has _ _); [|by destruct H1 as [_ ->]].
      destruct (unloadPlugin_cases (getPluginId env filePath) st)
        as (r & st1' & t1' & Hu & Hc & _). rewrite H1 in Hu. by simplify_eq.
    + destruct (install_total env filePath (getPluginId env filePath) st1)
        as (r2' & st2' & t2' & Hi & Hc & _). rewrite H2 in Hi. simplify_eq.
      by rewrite Hc.
  - subst unloaded.
    by destruct (unloadPlugin_cases pluginId st) as (r & st1 & t1 & -> & Hc & _).
Qed.

(** X15.  The watcher: when a file whose identity is not registered is
    added and then removed, the registry is afterwards what it was before,
    records and order, whether the load succeeded or not, provided the
    [onUnload] of the plugin just loaded does not throw.  (A path that
    ends neither in [.js] nor in [.mjs] is ignored by both callbacks.) *)
Theorem add_then_unlink_restores_registry (env : Env World RawModule)
    (filePath : jsstring) (st st1 : State World RawModule) (t1 : list Effect) :
  let pluginId := getPluginId env filePath in
  plugins_get pluginId (plugins st) = None →
  onAdd env filePath st = (Ok tt, st1, t1) →
  (∀ new f, plugins_get pluginId (plugins st1) = Some new →
            onUnload (instance new) = Some f →
            ∃ v w, f (world st1) = (Normal v, w)) →
  ∃ st2 t2, onUnlink env filePath st1 = (Ok tt, st2, t2)
            ∧ plugins st2 = plugins st.
Proof.
  intros pluginId Hnone Hadd Hok. unfold onAdd, onUnlink in *.
  destruct (watched filePath).
  2:{ munfold. simplify_eq. eauto. }
  fold pluginId. munfold.
  destruct (loadPlugin_cases env filePath st)
    as (r1 & st0 & t0 & r2 & st1' & t1' & H1 & H2 & Hl).
  rewrite Hl in Hadd. simpl in Hadd. simplify_eq.
  fold pluginId in H1, H2.
  assert (plugins_has pluginId (plugins st) = false) as Hhas.
  { apply not_true_is_false. rewrite plugins_has_true, Hnone. by intros [? ?]. }
  rewrite Hhas in H1. destruct H1 as [-> ->].
  destruct (install_total env filePath pluginId st)
    as (r2' & st2' & t2' & Hi & _ & _ & Hif & Hit).
  rewrite H2 in Hi. simplify_eq.
  rewrite unloadPlugin_eq.
  destruct r2'.
  - destruct (Hit eq_refl) as (new & Hp & _).
    assert (plugins_get pluginId (plugins st2') = Some new) as Hg
      by (rewrite Hp; apply plugins_get_set).
    assert (plugins_delete pluginId (plugins st2') = plugins st) as Hd.
    { rewrite Hp, plugins_delete_set. by apply plugins_delete_absent. }
    rewrite Hg. cbv zeta.
    destruct (onUnload (instance new)) as [f|] eqn:Ef.
    + destruct (Hok new f Hg Ef) as (v & w & ->). simpl. eauto.
    + simpl. eauto.
  - rewrite (Hif eq_refl), Hnone. simpl. eexists _, _. split; [done|].
    by apply Hif.
Qed.

(** X16.  The constructor of [PluginManager] creates its loader before
    it assigns [this.pluginDir], so the loader of the manager holds
    [undefined] as its plugin directory while the manager holds the
    directory.  [loadPlugins()] therefore always fails: [findPluginFiles] is
    rejected with the [TypeError] of [path.join] before the directory is
    scanned, [loadPlugins] passes that error on, and no file is loaded: the
    registry and the world are as before, no plugin was called and nothing
    was registered, logged or notified. *)
Theorem loadPlugins_fails_before_the_scan (env : Env World RawModule)
    (glob : World → (jsval + list jsstring) * World) (st : State World RawModule) :
  manager_pluginDir (newPluginManager env) = Some (pluginDir env)
  ∧ ∃ loader,
      manager_loader (newPluginManager env) = Some loader
      ∧ loader_pluginDir loader = None
      ∧ findPluginFiles env loader glob st = (Raise (invalidArgType env), st, [])
      ∧ loadPluginsFromDisk env loader glob st
        = (Raise (invalidArgType env), st, []).
Proof.
  split; [done|]. eexists. split; [reflexivity|]. split; [done|].
  split; [done|]. by rewrite loadPluginsFromDisk_eq.
Qed.

(** X17.  Among the files whose path relative to the plugin directory
    ends in [.js] and holds no backslash, different files get different
    identities.  Not so across the two extensions: a file [x.mjs] keeps its
    extension in its identity, which is also the identity of the file
    [x.mjs.js]. *)
Theorem js_files_get_distinct_identities (env : Env World RawModule) :
  (∀ file1 file2,
     let r1 := path_relative env (pluginDir env) file1 in
     let r2 := path_relative env (pluginDir env) file2 in
     endsWith r1 (lit ".js") = true → endsWith r2 (lit ".js") = true →
     noBackslash r1 = true → noBackslash r2 = true →
     getPluginId env file1 = getPluginId env file2 → r1 = r2)
  ∧ (∀ file file' x,
       path_relative env (pluginDir env) file = x ++ lit ".mjs" →
       path_relative env (pluginDir env) file' = x ++ lit ".mjs" ++ lit ".js" →
       noBackslash x = true →
       getPluginId env file = x ++ lit ".mjs"
       ∧ getPluginId env file' = getPluginId env file).
Proof.
  split.
  - intros file1 file2 r1 r2 H1 H2 Hb1 Hb2. unfold getPluginId. fold r1 r2.
    rewrite !TextFacts.replace_backslashes_none by done.
    by apply TextFacts.strip_js_suffix_inj.
  - intros file file' x Hr Hr' Hb. unfold getPluginId. rewrite Hr, Hr'.
    assert (noBackslash (x ++ lit ".mjs") = true) as Hb1.
    { unfold noBackslash in *. by rewrite forallb_app, Hb. }
    assert (noBackslash (x ++ lit ".mjs" ++ lit ".js") = true) as Hb2.
    { unfold noBackslash in *. by rewrite forallb_app, Hb. }
    rewrite !TextFacts.replace_backslashes_none by done.
    rewrite app_assoc, TextFacts.strip_js_suffix_app.
    unfold strip_js_suffix. by rewrite TextFacts.endsWith_mjs_not_js.
Qed.

(** X18.  A message whose body is an array of text
    segments is read as the string body with the same text: [extractText]
    gives the concatenation of the segments, and the message is classified as
    the same command with the same arguments, or as no command, in both
    forms.  For any array body, the text is the concatenation of the texts of
    its parts. *)
Theorem array_body_reads_like_string (commandPrefix : list jsstring)
    (m : Raw.Message) (texts : list jsstring) :
  let segments := withBody (Raw.BodyArray (Raw.SegText <$> texts)) m in
  let plain := withBody (Raw.BodyString (concat texts)) m in
  extractText segments = concat texts
  ∧ extractText plain = concat texts
  ∧ isCommand (classify commandPrefix segments) = isCommand (classify commandPrefix plain)
  ∧ command (classify commandPrefix segments) = command (classify commandPrefix plain)
  ∧ args (classify commandPrefix segments) = args (classify commandPrefix plain)
  ∧ (∀ items1 items2,
       extractText (withBody (Raw.BodyArray (items1 ++ items2)) m)
       = extractText (withBody (Raw.BodyArray items1) m)
         ++ extractText (withBody (Raw.BodyArray items2) m)).
Proof.
  intros segments plain.
  assert (extractText segments = concat texts) as Hs.
  { unfold extractText. simpl. f_equal. rewrite <- list_fmap_compose.
    by apply list_fmap_id. }
  split; [done|]. split; [done|].
  unfold classify. cbn [Host.message createContext]. rewrite Hs.
  change (extractText plain) with (concat texts).
  destruct (parseCommand commandPrefix (concat texts)); simpl.
  all: repeat split; try done.
  all: intros items1 items2; unfold extractText; simpl;
    by rewrite fmap_app, concat_app.
Qed.

(** X19.  [context.reply] sends exactly one action and hands
    back what [adapter.send] gives, an exception included.  A private
    message is answered to its sender through 'send_private_msg'; every
    other message is answered through 'send_group_msg' to the [group_id] of
    the message, also when the message is no group message, in which case
    [context.isGroup] is false and [context.groupId] is [null].  No context
    is both private and group. *)
Theorem reply_goes_where_the_message_came_from (env : Env World RawModule)
    (m : Raw.Message) (text : jsstring) (st : State World RawModule) :
  let context := createContext m in
  let private := bool_decide (Raw.message_type m = JStr (lit "private")) in
  let a := {| action := if private then lit "send_private_msg" else lit "send_group_msg";
              target := if private then Raw.user_id m else Raw.group_id m;
              content := text |} in
  reply env context text st
  = match adapter_send env a (world st) with
    | (Normal v, w) => (Ok v, {| plugins := plugins st; world := w |}, [SendAction a])
    | (Throw e, w) => (Raise e, {| plugins := plugins st; world := w |}, [SendAction a])
    end
  ∧ isPrivate context && isGroup context = false
  ∧ (isGroup context = false → groupId context = JNull)
  ∧ (Raw.message_type m ≠ JStr (lit "private") →
     Raw.message_type m ≠ JStr (lit "group") →
     isGroup context = false ∧ groupId context = JNull
     ∧ action a = lit "send_group_msg" ∧ target a = Raw.group_id m).
Proof.
  intros context private a. subst context a private.
  unfold reply, sendPrivateMsg, sendGroupMsg. munfold. simpl.
  repeat split.
  - case_bool_decide; simpl;
      by destruct (adapter_send env _ (world st)) as [[v|e] w].
  - case_bool_decide as H1; [|done]. case_bool_decide as H2; [|done].
    rewrite H1 in H2. done.
  - by intros ->.
  - by rewrite bool_decide_eq_false_2.
  - by rewrite (bool_decide_eq_false_2 (Raw.message_type m = JStr (lit "group"))).
  - by rewrite bool_decide_eq_false_2.
  - by rewrite bool_decide_eq_false_2.
Qed.

(** X26.  The watcher, from an empty registry: whatever files are added,
    changed and removed, in whatever order, and whatever the plugins do,
    every callback returns normally; [loadPlugin] is run once for every path
    added or changed that ends in [.js] or [.mjs], in the order of the
    events, and for no other path.  Afterwards [getPluginsInfo()] lists no
    identity twice, and every entry has the identity of its path, a path
    that was added or changed.  (The callbacks run one after the other.) *)
Theorem watcher_keeps_one_record_per_identity (env : Env World RawModule)
    (evs : list WatcherEvent) (st : State World RawModule) :
  plugins st = [] →
  ∃ st' t,
    watch env evs st = (Ok tt, st', t)
    ∧ attempted t = loadedPaths evs
    ∧ NoDup (info_id <$> getPluginsInfo (plugins st'))
    ∧ Forall (fun i => info_id i = getPluginId env (info_path i)
                       ∧ info_path i ∈ loadedPaths evs)
        (getPluginsInfo (plugins st')).
Proof.
  intros Hnil.
  destruct (watch_keeps env (loadedPaths evs) evs st) as (st' & t & Hw & Ha & Hu & Hf);
    [done|rewrite Hnil; apply NoDup_nil_2|by rewrite Hnil; constructor|].
  exists st', t. split; [done|]. split; [done|]. by apply filed_info.
Qed.

End More.


(** *** The properties on the concrete host *)

Import Scenario.

Example ping_is_a_command :
  isCommand pingContext = true ∧ command pingContext = Some (lit "ping").
Proof. split; reflexivity. Qed.

Example hello_is_no_command :
  isCommand (classify defaultCommandPrefix hello) = false.
Proof. reflexivity. Qed.

Lemma handler_exception_is_contained_witness :
  handleMessage pingContext
    (host [plugin "quiet" quiet; plugin "faulty" faulty; plugin "greedy" greedy])
  = (Ok true,
     {| plugins := [plugin "quiet" quiet; plugin "faulty" faulty;
                    plugin "greedy" greedy];
        world := [lit "quiet.onMessage"; lit "faulty.onMessage";
                  lit "greedy.onMessage"] |},
     [Invoke (lit "quiet") OnMessage;
      Invoke (lit "faulty") OnMessage;
      Log (HandlerFailed (lit "faulty") (JStr (lit "boom")));
      Invoke (lit "greedy") OnMessage])
  ∧ handleMessage pingContext (host [plugin "helper" helper; plugin "quiet" quiet])
    = (Ok false,
       {| plugins := [plugin "helper" helper; plugin "quiet" quiet];
          world := [lit "helper.onCommand"; lit "quiet.onMessage"] |},
       [Invoke (lit "helper") OnCommand;
        Log (HandlerFailed (lit "helper") (JStr (lit "oops")));
        Invoke (lit "quiet") OnMessage]).
Proof.
  split.
  - pose proof (handler_exception_is_contained pingContext
                  [plugin "quiet" quiet] [plugin "greedy" greedy]
                  (lit "faulty") (plugin "faulty" faulty).2
                  (host [plugin "quiet" quiet; plugin "faulty" faulty;
                         plugin "greedy" greedy])
                  {| plugins := [plugin "quiet" quiet];
                     world := [lit "quiet.onMessage"] |}
                  [Invoke (lit "quiet") OnMessage]) as (_ & H & _).
    destruct (H eq_refl eq_refl) as [H1 _].
    exact (H1 _ _ _ eq_refl eq_refl).
  - pose proof (handler_exception_is_contained pingContext
                  [] [plugin "quiet" quiet]
                  (lit "helper") (plugin "helper" helper).2
                  (host [plugin "helper" helper; plugin "quiet" quiet])
                  (host []) []) as (_ & H & _).
    destruct (H eq_refl eq_refl) as [_ H2].
    exact (H2 _ _ _ _ _ eq_refl eq_refl eq_refl eq_refl).
Defined.


(** C4, as stated, fails: [clingy] throws from [onUnload]; [unloadPlugin]
    reports [false] and [clingy] is still registered. *)
Lemma unload_failure_keeps_record :
  unloadPlugin (lit "clingy") reloading
  = (Ok false,
     {| plugins := [plugin "quiet" quiet; plugin "clingy" clingy];
        world := [lit "clingy.onUnload"] |},
     [Invoke (lit "clingy") OnUnload;
      Log (UnloadFailed (lit "clingy") (JStr (lit "busy")))])
  ∧ plugins_get (lit "clingy")
      (plugins ((unloadPlugin (lit "clingy") reloading).1).2)
    = Some (plugin "clingy" clingy).2.
Proof. split; reflexivity. Qed.

Lemma unloadPlugin_outcomes_witness :
  unloadPlugin (lit "quiet") reloading
  = (Ok true,
     {| plugins := [plugin "clingy" clingy]; world := [lit "quiet.onUnload"] |},
     [Invoke (lit "quiet") OnUnload; PluginsDelete (lit "quiet");
      Log (UnloadSucceeded (lit "quiet")); Emit (PluginUnloaded (lit "quiet"))])
  ∧ unloadPlugin (lit "absent") reloading = (Ok false, reloading, [])
  ∧ unloadPlugin (lit "clingy") reloading
    = (Ok false,
       {| plugins := plugins reloading; world := [lit "clingy.onUnload"] |},
       [Invoke (lit "clingy") OnUnload;
        Log (UnloadFailed (lit "clingy") (JStr (lit "busy")))]).
Proof.
  split; [|split].
  - pose proof (unloadPlugin_outcomes (lit "quiet") reloading) as (_ & _ & H & _).
    exact (H _ _ _ _ eq_refl eq_refl eq_refl).
  - pose proof (unloadPlugin_outcomes (lit "absent") reloading) as (H & _).
    exact (H eq_refl).
  - pose proof (unloadPlugin_outcomes (lit "clingy") reloading)
      as (_ & _ & _ & H & _).
    exact (H _ _ _ _ eq_refl eq_refl eq_refl).
Defined.

Lemma reloading_unique : unique (plugins reloading).
Proof.
  unfold unique. apply (bool_decide_unpack _). vm_compute. exact I.
Qed.

Lemma reload_attempts_unload_before_registering_witness :
  unique (plugins reloading)
  ∧ plugins_get (getPluginId env quietFile) (plugins reloading)
    = Some (plugin "quiet" quiet).2
  ∧ ∃ st1 t1 st2 t2 new,
      unloadPlugin (getPluginId env quietFile) reloading = (Ok true, st1, t1)
      ∧ plugins_get (getPluginId env quietFile) (plugins st1) = None
      ∧ loadPlugin env quietFile reloading = (Ok true, st2, t1 ++ t2)
      ∧ records (getPluginId env quietFile) (plugins st2) = [new].
Proof.
  split; [exact reloading_unique|]. split; [reflexivity|].
  destruct (reload_attempts_unload_before_registering env quietFile
              reloading (plugin "quiet" quiet).2 reloading_unique eq_refl)
    as (r1 & st1 & t1 & r2 & st2 & t2 & Hun & Hin & Hload & _ & _ & _ & _ & Hok
        & _ & _ & _ & _ & Hnew & _).
  assert (r1 = true) as H1.
  { pose proof Hun as H. vm_compute in H. by injection H. }
  assert (r2 = true) as H2.
  { pose proof Hload as H. vm_compute in H. by injection H. }
  destruct (Hok H1) as (_ & Hnone & _).
  destruct (Hnew H2) as (m & w & plugin & w' & _ & _ & _ & _ & Hrec).
  rewrite H1 in Hun. rewrite H2 in Hload.
  exists st1, t1, st2, t2. eexists.
  split; [exact Hun|]. split; [exact Hnone|]. split; [exact Hload|exact Hrec].
Defined.

Example reload_trace :
  loadPlugin env quietFile reloading
  = (Ok true,
     {| plugins :=
          [plugin "clingy" clingy;
           (lit "quiet",
            {| id := lit "quiet"; path := quietFile; instance := greedy;
               module := tt; loadedAt := 2 |})];
        world := [lit "quiet.onUnload"; lit "load"] |},
     [Invoke (lit "quiet") OnUnload; PluginsDelete (lit "quiet");
      Log (UnloadSucceeded (lit "quiet")); Emit (PluginUnloaded (lit "quiet"));
      PluginsSet (lit "quiet"); Log (LoadSucceeded (lit "quiet") quietFile);
      Emit (PluginLoaded (lit "quiet"))]).
Proof. reflexivity. Qed.

(** C8, as stated, fails: the [onUnload] of [clingy] throws, so the unload
    that [loadPlugin] runs first does not remove the old record; it is still
    registered when the new version is loaded, and the new record is written
    over it, in its place. *)
Lemma reload_over_failed_unload :
  unloadPlugin (getPluginId env (lit "/bot/plugins/clingy.js")) reloading
  = (Ok false,
     {| plugins := [plugin "quiet" quiet; plugin "clingy" clingy];
        world := [lit "clingy.onUnload"] |},
     [Invoke (lit "clingy") OnUnload;
      Log (UnloadFailed (lit "clingy") (JStr (lit "busy")))])
  ∧ loadPlugin env (lit "/bot/plugins/clingy.js") reloading
    = (Ok true,
       {| plugins :=
            [plugin "quiet" quiet;
             (lit "clingy",
              {| id := lit "clingy"; path := lit "/bot/plugins/clingy.js";
                 instance := greedy; module := tt; loadedAt := 2 |})];
          world := [lit "clingy.onUnload"; lit "load"] |},
       [Invoke (lit "clingy") OnUnload;
        Log (UnloadFailed (lit "clingy") (JStr (lit "busy")));
        PluginsSet (lit "clingy");
        Log (LoadSucceeded (lit "clingy") (lit "/bot/plugins/clingy.js"));
        Emit (PluginLoaded (lit "clingy"))]).
Proof. split; reflexivity. Qed.

Lemma unknown_command_is_answered_once_witness :
  handleMessage pingContext (host [plugin "quiet" quiet])
  = (Ok false,
     {| plugins := [plugin "quiet" quiet]; world := [lit "quiet.onMessage"] |},
     [Invoke (lit "quiet") OnMessage])
  ∧ ∃ st2,
      process env defaultCommandPrefix ping (host [plugin "quiet" quiet])
      = (Ok tt, st2,
         [Emit (BotMessage (createContext ping)); Emit (BotCommand pingContext);
          Invoke (lit "quiet") OnMessage; SendAction pingNotice]).
Proof.
  split; [reflexivity|].
  destruct (unknown_command_is_answered_once env
              defaultCommandPrefix ping (host [plugin "quiet" quiet]) _ _ _
              eq_refl) as (st2 & tail & Hp & _ & Hc & _).
  destruct (Hc eq_refl eq_refl) as [(v & _ & Ht)|(e & He & _)].
  - exists st2. rewrite Ht in Hp. exact Hp.
  - discriminate He.
Defined.

Example failed_reply_is_swallowed :
  process envDown defaultCommandPrefix ping (host [plugin "quiet" quiet])
  = (Ok tt,
     {| plugins := [plugin "quiet" quiet]; world := [lit "quiet.onMessage"] |},
     [Emit (BotMessage (createContext ping)); Emit (BotCommand pingContext);
      Invoke (lit "quiet") OnMessage; SendAction pingNotice;
      Log (ReplyFailed (JStr (lit "not connected")))]).
Proof. reflexivity. Qed.

Example no_reply_without_command :
  process env defaultCommandPrefix hello (host [plugin "quiet" quiet])
  = (Ok tt,
     {| plugins := [plugin "quiet" quiet]; world := [lit "quiet.onMessage"] |},
     [Emit (BotMessage (createContext hello)); Invoke (lit "quiet") OnMessage]).
Proof. reflexivity. Qed.

(** *** The further properties on the concrete host *)

Lemma handleMessage_only_calls_message_handlers_witness :
  ∃ handled w t,
    handleMessage (classify defaultCommandPrefix hello)
      (host [plugin "helper" helper; plugin "quiet" quiet])
    = (Ok handled,
       {| plugins := [plugin "helper" helper; plugin "quiet" quiet]; world := w |}, t)
    ∧ called t = calledOnMessage t.
Proof.
  destruct (handleMessage_only_calls_message_handlers
              (classify defaultCommandPrefix hello)
              (host [plugin "helper" helper; plugin "quiet" quiet]))
    as (handled & w & t & H & _ & Hc).
  exists handled, w, t. split; [exact H|exact (Hc eq_refl)].
Defined.

Lemma handleEvent_reaches_every_plugin_witness :
  dispatchEvent JNull [plugin "deaf" deaf; plugin "listener" listener]
    (host [plugin "deaf" deaf; plugin "listener" listener])
  = prefixed [Invoke (lit "deaf") OnEvent;
              Log (EventHandlerFailed (lit "deaf") (JStr (lit "what")))]
      (dispatchEvent JNull [plugin "listener" listener]
         {| plugins := [plugin "deaf" deaf; plugin "listener" listener];
            world := [lit "deaf.onEvent"] |}).
Proof.
  pose proof (handleEvent_reaches_every_plugin (World := World) (RawModule := RawModule)
                JNull (host [])) as (_ & H).
  exact (H (lit "deaf") (plugin "deaf" deaf).2 [plugin "listener" listener]
           _ _ _ (host [plugin "deaf" deaf; plugin "listener" listener])
           eq_refl eq_refl).
Defined.

Example events_reach_the_listener :
  handleEvent JNull (host [plugin "deaf" deaf; plugin "listener" listener])
  = (Ok tt,
     {| plugins := [plugin "deaf" deaf; plugin "listener" listener];
        world := [lit "deaf.onEvent"; lit "listener.onEvent"] |},
     [Invoke (lit "deaf") OnEvent;
      Log (EventHandlerFailed (lit "deaf") (JStr (lit "what")));
      Invoke (lit "listener") OnEvent]).
Proof. reflexivity. Qed.

Lemma reload_outcomes_witness :
  plugins_get (getPluginId env quietFile) (plugins reloading)
  = Some (plugin "quiet" quiet).2
  ∧ ∃ new, plugins ((loadPlugin env quietFile reloading).1).2
           = plugins_delete (getPluginId env quietFile) (plugins reloading)
             ++ [(getPluginId env quietFile, new)].
Proof.
  split; [reflexivity|].
  destruct (reload_outcomes env quietFile reloading (plugin "quiet" quiet).2 eq_refl)
    as (r1 & st1 & t1 & r2 & st2 & t2 & Hu & _ & Hl & _ & Hboth & _).
  assert (r1 = true) as H1 by (vm_compute in Hu; by injection Hu).
  assert (r2 = true) as H2.
  { pose proof Hl as H. vm_compute in H. by injection H. }
  destruct (Hboth H1 H2) as (new & Hnew). exists new. by rewrite Hl.
Defined.

(** A reload that fails after the unload: the plugin is gone. *)
Example failed_reload_unloads :
  loadPlugin envBroken quietFile reloading
  = (Ok false,
     {| plugins := [plugin "clingy" clingy]; world := [lit "quiet.onUnload"] |},
     [Invoke (lit "quiet") OnUnload; PluginsDelete (lit "quiet");
      Log (UnloadSucceeded (lit "quiet")); Emit (PluginUnloaded (lit "quiet"));
      Log (LoadFailed quietFile (JStr (lit "SyntaxError")))]).
Proof. reflexivity. Qed.

Lemma other_plugins_are_untouched_witness :
  plugins_get (lit "clingy") (plugins ((loadPlugin env quietFile reloading).1).2)
  = plugins_get (lit "clingy") (plugins reloading).
Proof.
  pose proof (other_plugins_are_untouched env quietFile (lit "quiet") reloading)
    as (_ & _ & _ & _ & H & _).
  exact (H (lit "clingy") ltac:(discriminate)).
Defined.

Lemma add_then_unlink_restores_registry_witness :
  plugins_get (getPluginId env freshFile) (plugins reloading) = None
  ∧ ∃ st2 t2,
      onUnlink env freshFile ((onAdd env freshFile reloading).1).2 = (Ok tt, st2, t2)
      ∧ plugins st2 = plugins reloading.
Proof.
  split; [reflexivity|].
  refine (add_then_unlink_restores_registry env freshFile reloading
            ((onAdd env freshFile reloading).1).2
            ((onAdd env freshFile reloading).2) eq_refl eq_refl _).
  intros new f Hnew Hf. vm_compute in Hnew. injection Hnew as <-. discriminate Hf.
Defined.

(** [loadPlugins()] on the concrete host: the scan does not take place. *)
Example loadPlugins_on_the_host :
  ∀ loader, manager_loader (newPluginManager env) = Some loader →
    loadPluginsFromDisk env loader scan (host [])
    = (Raise (JStr (lit "ERR_INVALID_ARG_TYPE")), host [], []).
Proof. intros loader [= <-]. reflexivity. Qed.

Lemma watcher_keeps_one_record_per_identity_witness :
  ∃ st' t,
    watch env [FileAdded freshFile; FileChanged quietFile;
               FileAdded (lit "/bot/plugins/notes.txt"); FileUnlinked freshFile]
      (host [])
    = (Ok tt, st', t)
    ∧ attempted t = [freshFile; quietFile]
    ∧ NoDup (info_id <$> getPluginsInfo (plugins st')).
Proof.
  destruct (watcher_keeps_one_record_per_identity env
              [FileAdded freshFile; FileChanged quietFile;
               FileAdded (lit "/bot/plugins/notes.txt"); FileUnlinked freshFile]
              (host []) eq_refl) as (st' & t & Hw & Ha & Hn & _).
  exists st', t. split; [exact Hw|]. split; [exact Ha|exact Hn].
Defined.

(** What is left after these events: the file that was changed. *)
Example watched_files :
  getPluginsInfo
    (plugins
       ((watch env [FileAdded freshFile; FileChanged quietFile;
                    FileAdded (lit "/bot/plugins/notes.txt"); FileUnlinked freshFile]
           (host [])).1).2)
  = [{| info_id := lit "quiet"; info_path := quietFile; info_loadedAt := 2 |}].
Proof. vm_compute. reflexivity. Qed.

Lemma js_files_get_distinct_identities_witness :
  getPluginId env (lit "/bot/plugins/tools/dice.mjs.js")
  = getPluginId env (lit "/bot/plugins/tools/dice.mjs").
Proof.
  pose proof (js_files_get_distinct_identities env) as (_ & H).
  exact (proj2 (H (lit "/bot/plugins/tools/dice.mjs")
                  (lit "/bot/plugins/tools/dice.mjs.js")
                  (lit "tools/dice") eq_refl eq_refl eq_refl)).
Defined.

Lemma reply_goes_where_the_message_came_from_witness :
  isGroup (createContext guildMessage) = false
  ∧ groupId (createContext guildMessage) = JNull.
Proof.
  pose proof (reply_goes_where_the_message_came_from env guildMessage (lit "ok")
                (host [])) as (_ & _ & _ & H).
  destruct (H ltac:(discriminate) ltac:(discriminate)) as (H1 & H2 & _).
  split; [exact H1|exact H2].
Defined.

(** The reply to a message that is neither private nor a group message. *)
Example guild_reply :
  reply env (createContext guildMessage) (lit "ok") (host [])
  = (Ok JNull, {| plugins := []; world := [lit "send_group_msg"] |},
     [SendAction {| action := lit "send_group_msg"; target := JNum 7;
                    content := lit "ok" |}]).
Proof. reflexivity. Qed.

End HostSpec.

(** ** Properties of the sandbox *)

Module SandboxSpec.
Import Host HostFacts Exported Sandbox.

Section Spec.

Context {World RawModule : Type} (rt : Runtime World).

Implicit Types (st : State World RawModule) (pluginInfo : PluginInfo World RawModule).
Implicit Types (context : Context).

(** X20.  [initializePlugin] fails in three cases only: the module is
    [null] or [undefined] (the [TypeError] of reading [default]), the export
    is a function that throws, or it is a function that returns [undefined]
    or [null] (the [TypeError] of reading [name]).  In every other case it
    returns a plugin, and that plugin has an [onMessage] function, whatever
    was exported.  A truthy [default] export is used in place of the module
    itself. *)
Theorem initializePlugin_outcomes (pluginModule : Module_ World)
    (filePath : jsstring) (w : World) :
  match initializePlugin rt pluginModule filePath w with
  | (inr adapted, _) => is_Some (Host.onMessage adapted)
  | (inl e, w') =>
      (pluginModule = Nullish ∧ e = typeError rt ∧ w' = w)
      ∨ (∃ default self pluginFunction,
           pluginModule = Loaded default self
           ∧ from_option (fun d => d) self default = Function pluginFunction
           ∧ (pluginFunction filePath w = (inl e, w')
              ∨ (pluginFunction filePath w = (inr None, w') ∧ e = typeError rt)))
  end
  ∧ (∀ d self, initializePlugin rt (Loaded (Some d) self) filePath w
               = initializePlugin rt (Loaded None d) filePath w).
Proof.
  split; [|done].
  destruct pluginModule as [|default self]; simpl; [by left|].
  destruct (from_option _ self default) as [f|o|] eqn:E; simpl.
  - unfold createPluginFromFunction.
    destruct (f filePath w) as [[e|[o|]] w'] eqn:Ef; simpl; [|by eauto|].
    + right. exists default, self, f. eauto.
    + right. exists default, self, f. eauto.
  - eauto.
  - eauto.
Qed.

(** X21.  For a plugin object with a [main] function (the Yunzai style),
    the call of the adapted [onMessage] by the manager never throws: it
    claims the message exactly when [main] returns [true]; when [main]
    throws, the error is logged by the sandbox and the message is not
    claimed.  The [onMessage] of the plugin object, if it has one, is not
    used. *)
Theorem yunzai_main_never_fails (plugin : PluginObject World)
    (mainFunc : YunzaiContext → World → completion * World)
    (context : Context) (pluginId : jsstring)
    (pluginInfo : PluginInfo World RawModule) (st : State World RawModule) :
  main plugin = Method mainFunc →
  instance pluginInfo = adaptPluginObject rt plugin →
  ∃ claimed w',
    tryOnMessage context pluginId pluginInfo st
    = (Ok claimed, {| plugins := plugins st; world := w' |},
       [Invoke pluginId OnMessage])
    ∧ (claimed = true
       ↔ ∃ w'', mainFunc (yunzaiContext context) (world st)
                = (Normal (JBool true), w''))
    ∧ (∀ e w'', mainFunc (yunzaiContext context) (world st) = (Throw e, w'') →
         claimed = false ∧ w' = logger_error rt e w'')
    ∧ (∀ other, main other = Method mainFunc →
         Host.onMessage (adaptPluginObject rt other)
         = Host.onMessage (adaptPluginObject rt plugin)).
Proof.
  intros Hm Hi.
  assert (∀ other, main other = Method mainFunc →
            Host.onMessage (adaptPluginObject rt other)
            = Host.onMessage (adaptPluginObject rt plugin)) as Hother.
  { intros other Ho. simpl. by rewrite Ho, Hm. }
  cut (∃ claimed w',
         tryOnMessage context pluginId pluginInfo st
         = (Ok claimed, {| plugins := plugins st; world := w' |},
            [Invoke pluginId OnMessage])
         ∧ (claimed = true
            ↔ ∃ w'', mainFunc (yunzaiContext context) (world st)
                     = (Normal (JBool true), w''))
         ∧ (∀ e w'', mainFunc (yunzaiContext context) (world st) = (Throw e, w'') →
              claimed = false ∧ w' = logger_error rt e w'')).
  { intros (claimed & w' & H1 & H2 & H3). exists claimed, w'. auto. }
  unfold tryOnMessage. rewrite Hi. simpl. munfold. simpl.
  rewrite Hm. unfold adaptYunzaiMain.
  destruct (mainFunc (yunzaiContext context) (world st)) as [[v|e] w'] eqn:E; simpl.
  - eexists _, _. split; [reflexivity|]. split.
    + split.
      * intros Hv. exists w'. by destruct v as [| |[|]| | |].
      * by intros (w'' & [= ->]).
    + by intros e w'' [=].
  - eexists _, _. split; [reflexivity|]. split.
    + split; [done|by intros (? & [=])].
    + by intros e' w'' [= <- <-].
Qed.

(** X22.  A file whose export is neither a function nor an object (a
    number, a string, ...) is loaded all the same, with a warning: as a
    plugin whose [onMessage] answers [false] and that has no other handler.
    Such a plugin is called for every message and never claims one, is
    passed over for events, and changes nothing. *)
Theorem unsupported_export_is_inert (default : option (Exports World))
    (self : Exports World) (filePath : jsstring) (w : World) :
  from_option (fun d => d) self default = Primitive →
  initializePlugin rt (Loaded default self) filePath w
  = (inr unsupported, logger_warn rt filePath w)
  ∧ (∀ context event pluginId pluginInfo rest st,
       instance pluginInfo = unsupported →
       dispatch context ((pluginId, pluginInfo) :: rest) st
       = prefixed [Invoke pluginId OnMessage] (dispatch context rest st)
       ∧ dispatchEvent event ((pluginId, pluginInfo) :: rest) st
         = dispatchEvent event rest st).
Proof.
  intros Hp. split; [simpl; by rewrite Hp|].
  intros context event pluginId pluginInfo rest st Hi. split.
  - rewrite dispatch_cons.
    unfold tryHandlers, tryOnMessage, tryOnCommand, catchHandlers.
    rewrite Hi. munfold. simpl.
    destruct (isCommand context); simpl; destruct st;
      by destruct (dispatch context rest _) as [[r st'] t].
  - by rewrite dispatchEvent_cons, Hi.
Qed.

End Spec.

Import Scenario.

Lemma initializePlugin_outcomes_witness :
  initializePlugin runtime (Loaded (Some (Object yunzaiPlugin)) Primitive) quietFile []
  = initializePlugin runtime (Loaded None (Object yunzaiPlugin)) quietFile [].
Proof.
  exact (proj2 (initializePlugin_outcomes runtime Nullish quietFile [])
           (Object yunzaiPlugin) Primitive).
Defined.

(** A module that exports [null], and an export function that returns
    nothing: both fail to load with the [TypeError]. *)
Example nullish_exports_fail :
  initializePlugin runtime Nullish quietFile []
  = (inl (JStr (lit "TypeError")), [])
  ∧ initializePlugin runtime
      (Loaded None (Function (fun _ w => (inr None, w ++ [lit "factory"]))))
      quietFile []
    = (inl (JStr (lit "TypeError")), [lit "factory"]).
Proof. split; reflexivity. Qed.

Lemma yunzai_main_never_fails_witness :
  ∃ claimed w',
    tryOnMessage pingContext (lit "yunzai") (adapted "yunzai" yunzaiPlugin).2 (host [])
    = (Ok claimed, {| plugins := plugins (host []); world := w' |},
       [Invoke (lit "yunzai") OnMessage])
    ∧ claimed = false.
Proof.
  destruct (yunzai_main_never_fails runtime yunzaiPlugin _ pingContext (lit "yunzai")
              (adapted "yunzai" yunzaiPlugin).2 (host []) eq_refl eq_refl)
    as (claimed & w' & H & _ & Hthrow & _).
  exists claimed, w'. split; [exact H|].
  exact (proj1 (Hthrow _ _ eq_refl)).
Defined.

Example yunzai_trace :
  tryOnMessage pingContext (lit "yunzai") (adapted "yunzai" yunzaiPlugin).2 (host [])
  = (Ok false, {| plugins := []; world := [lit "main"; lit "logger.error"] |},
     [Invoke (lit "yunzai") OnMessage]).
Proof. reflexivity. Qed.

Lemma unsupported_export_is_inert_witness :
  initializePlugin runtime (Loaded None Primitive) quietFile []
  = (inr unsupported, logger_warn runtime quietFile []).
Proof.
  exact (proj1 (unsupported_export_is_inert (RawModule := RawModule) runtime None
                  Primitive quietFile [] eq_refl)).
Defined.

End SandboxSpec.

(** ** Properties of [parseCommand] and [getPluginId] *)

Module TextSpec.
Import Host Scenario.

Example parse_echo :
  parseCommand defaultCommandPrefix (lit "#echo hello world")
  = Some {| Command.command := lit "echo";
            Command.args := [lit "hello"; lit "world"];
            Command.prefix := lit "#" |}.
Proof. reflexivity. Qed.

Example parse_spaces :
  parseCommand [lit "#"] (lit "#  echo   a  ")
  = Some {| Command.command := lit "echo"; Command.args := [lit "a"];
            Command.prefix := lit "#" |}.
Proof. reflexivity. Qed.

Lemma empty_prefix_is_rejected (commandPrefix : list jsstring) (text : jsstring) :
  findPrefix commandPrefix text = Some [] →
  parseCommand commandPrefix text = None.
Proof.
  intros H. unfold parseCommand. destruct (falsy text); [done|]. by rewrite H.
Qed.

(** C2.  With the prefixes ['#', ''], "#echo hello world" is parsed into the
    command "echo" with the arguments "hello" and "world".  For "hello" the
    loop selects the empty prefix, [!prefix] then holds, and the result is
    [null]: no command. *)
Theorem parseCommand_with_empty_prefix :
  parseCommand [lit "#"; lit ""] (lit "#echo hello world")
  = Some {| Command.command := lit "echo";
            Command.args := [lit "hello"; lit "world"];
            Command.prefix := lit "#" |}
  ∧ findPrefix [lit "#"; lit ""] (lit "hello") = Some (lit "")
  ∧ parseCommand [lit "#"; lit ""] (lit "hello") = None.
Proof. repeat split. Qed.

Lemma strip_js_suffix_other (s : jsstring) :
  endsWith s (lit ".js") = false → strip_js_suffix s = s.
Proof. unfold strip_js_suffix. by intros ->. Qed.

(** C9.  A file with the extension [.mjs] passes the filter of a loader
    that holds the plugin directory, and the test of the watcher; the
    pattern [/\.js$/] does not match its path, and the extension stays in
    the identity.  For a file with the
    extension [.js] the identity is the path relative to the plugin
    directory without the extension. *)
Theorem getPluginId_keeps_mjs_extension :
  keepPluginFile env {| loader_pluginDir := Some (pluginDir env) |}
    (lit "/bot/plugins/tools/dice.mjs") = inr true
  ∧ watched (lit "/bot/plugins/tools/dice.mjs") = true
  ∧ getPluginId env (lit "/bot/plugins/tools/dice.mjs") = lit "tools/dice.mjs"
  ∧ getPluginId env (lit "/bot/plugins/tools/dice.js") = lit "tools/dice".
Proof. repeat split. Qed.

(** *** Further properties of [parseCommand] *)

(** X23.  Whenever [parseCommand] finds a command, the prefix it reports
    is one of the configured prefixes, is not empty, and is what the text
    starts with; the command and every argument are words, non-empty and
    free of white space; and put together they are the text after the prefix
    with its white space taken out: nothing else is lost or added. *)
Theorem parseCommand_yields_words (commandPrefix : list jsstring) (text : jsstring)
    (commandInfo : CommandInfo) :
  parseCommand commandPrefix text = Some commandInfo →
  Command.prefix commandInfo ∈ commandPrefix
  ∧ Command.prefix commandInfo ≠ []
  ∧ startsWith text (Command.prefix commandInfo) = true
  ∧ isWord (Command.command commandInfo) = true
  ∧ forallb isWord (Command.args commandInfo) = true
  ∧ concat (Command.command commandInfo :: Command.args commandInfo)
    = stripWhite (slice (length (Command.prefix commandInfo)) text).
Proof.
  unfold parseCommand. destruct (falsy text); [done|].
  destruct (findPrefix commandPrefix text) as [p|] eqn:Ep; [|done].
  destruct (falsy p) eqn:Efp; [done|].
  destruct (falsy (trim (slice (length p) text))) eqn:Et; [done|].
  intros [= <-]. simpl.
  apply TextFacts.findPrefix_Some in Ep as [Hin Hst].
  split; [done|]. split; [by destruct p|]. split; [done|].
  set (commandText := trim (slice (length p) text)) in *.
  assert (tight commandText) as Htight.
  { apply TextFacts.trim_is_tight. by destruct (trim _). }
  pose proof (TextFacts.split_ws_tight _ Htight) as Hne.
  pose proof (TextFacts.split_go_words commandText [] false eq_refl) as Hso.
  pose proof (TextFacts.split_go_concat commandText [] false) as Hco.
  fold (split_ws commandText) in Hso, Hco.
  destruct (split_ws commandText) as [|w ws] eqn:Es.
  { by apply TextFacts.split_go_not_nil in Es. }
  simpl. apply Forall_cons in Hne as [Hw Hws]. apply Forall_cons in Hso as [Hw' Hws'].
  split; [by apply TextFacts.isWord_intro|]. split.
  - apply forallb_forall. intros x Hx. apply list_elem_of_In in Hx.
    rewrite Forall_forall in Hws, Hws'. apply TextFacts.isWord_intro; auto.
  - simpl in Hco. rewrite Hco. simpl. subst commandText. apply TextFacts.stripWhite_trim.
Qed.

Lemma parseCommand_yields_words_witness :
  isWord (lit "echo") = true ∧ forallb isWord [lit "a"; lit "b"] = true.
Proof.
  pose proof (parseCommand_yields_words [lit "#"] (lit "# echo  a b  ")
                {| Command.command := lit "echo"; Command.args := [lit "a"; lit "b"];
                   Command.prefix := lit "#" |} eq_refl) as (_ & _ & _ & Hc & Ha & _).
  split; [exact Hc|exact Ha].
Defined.

(** X24.  Round trip: take a non-empty prefix [p] that is the first
    configured prefix the text starts with, then optional white space, then
    words separated by white space, then optional white space.
    [parseCommand] gives back the first word as the command, the other words
    as the arguments, in order, and [p] as the prefix. *)
Theorem parseCommand_round_trip (commandPrefix : list jsstring)
    (p lead sep trail w : jsstring) (ws : list jsstring) :
  let text := p ++ lead ++ unwords sep (w :: ws) ++ trail in
  p ≠ [] →
  findPrefix commandPrefix text = Some p →
  isBlank lead = true → isBlank trail = true →
  isBlank sep = true → sep ≠ [] →
  isWord w = true → forallb isWord ws = true →
  parseCommand commandPrefix text
  = Some {| Command.command := w; Command.args := ws; Command.prefix := p |}.
Proof.
  intros text Hp Hf Hl Ht Hs Hsn Hw Hws. unfold parseCommand.
  rewrite Hf. subst text.
  assert (falsy (p ++ lead ++ unwords sep (w :: ws) ++ trail) = false) as ->
    by (by destruct p).
  assert (falsy p = false) as -> by (by destruct p).
  cbv zeta. unfold slice. rewrite drop_app_length.
  pose proof (TextFacts.unwords_tight sep w ws Hw Hws) as Htight.
  rewrite TextFacts.trim_tight by done.
  assert (falsy (unwords sep (w :: ws)) = false) as ->.
  { destruct Htight as [(? & Hh & _) _]. by destruct (unwords sep (w :: ws)). }
  unfold split_ws. by rewrite TextFacts.split_go_unwords.
Qed.

Lemma parseCommand_round_trip_witness :
  parseCommand defaultCommandPrefix (lit "#  echo   hello   world ")
  = Some {| Command.command := lit "echo";
            Command.args := [lit "hello"; lit "world"];
            Command.prefix := lit "#" |}.
Proof.
  exact (parseCommand_round_trip defaultCommandPrefix (lit "#") (lit "  ")
           (lit "   ") (lit " ") (lit "echo") [lit "hello"; lit "world"]
           ltac:(discriminate) eq_refl eq_refl eq_refl eq_refl
           ltac:(discriminate) eq_refl eq_refl).
Defined.

(** X25.  An empty string in the list of prefixes ends the list: with it
    and whatever follows it removed, [parseCommand] gives the same result on
    every text.  The prefixes after it are never used, and a text that starts
    with none of the prefixes before it is no command. *)
Theorem empty_prefix_ends_the_list (before after : list jsstring) (text : jsstring) :
  parseCommand (before ++ [] :: after) text = parseCommand before text.
Proof.
  unfold parseCommand. destruct (falsy text); [done|].
  rewrite TextFacts.findPrefix_app. destruct (findPrefix before text); [done|].
  simpl. by rewrite TextFacts.startsWith_nil.
Qed.

End TextSpec.
